(** * agconf: the synchronisation and drift-detection engine

    A shallow embedding of the TypeScript sources of the agconf CLI
    (core/source.ts, core/lockfile.ts, core/agents.ts, core/targets.ts,
    plugins/providers/types.ts, plugins/targets/{claude,codex}.ts) together
    with the properties the specification states about them. The files
    core/skill-metadata.ts, core/markers.ts and core/merge.ts are not among
    these sources; what the properties need of them is modelled from the
    specification and marked as such.

    JavaScript strings are sequences of UTF-16 code units; they are modelled
    as [list N], one number per code unit, so that [slice], [split], [trim]
    and the regular expressions of the sources count exactly what the
    program counts.

    Where a comment quotes a regular expression of the sources, DQ stands
    for the double-quote character, EMPTY for the empty string literal, and
    a blank separates a star from a closing parenthesis. *)

From Stdlib Require Import String Ascii.
From Stdlib Require Import List NArith ZArith QArith Bool Lia DecimalString.
From Stdlib Require Import Permutation.
Import ListNotations.
Close Scope Q_scope.

Set Implicit Arguments.
Set Default Proof Using "Type".

(* ------------------------------------------------------------------------- *)
(** ** JavaScript strings *)

Module JS.

Definition char := N.
Definition str := list char.

(** An ASCII literal of the sources as a JavaScript string. *)
Definition lit (s : string) : str := map N_of_ascii (list_ascii_of_string s).

Definition nl : str := [10%N].
Definition quote : char := 34%N.
Definition apos : char := 39%N.

Definition str_eqb (a b : str) : bool :=
  if list_eq_dec N.eq_dec a b then true else false.

(** [s.startsWith(p)] *)
Fixpoint startsWith (p s : str) : bool :=
  match p, s with
  | [], _ => true
  | _ :: _, [] => false
  | a :: p', b :: s' => N.eqb a b && startsWith p' s'
  end.

(** [s.endsWith(p)] *)
Definition endsWith (p s : str) : bool := startsWith (rev p) (rev s).

(** [s.includes(p)] *)
Fixpoint includes (p s : str) : bool :=
  startsWith p s ||
  match s with
  | [] => false
  | _ :: s' => includes p s'
  end.

(** [s.slice(0, n)] for a non-negative [n]. *)
Definition slice0 (n : nat) (s : str) : str := firstn n s.

(** A string is truthy when it is not empty. *)
Definition truthy (s : str) : bool :=
  match s with [] => false | _ => true end.

(** [s.split(sep)] for a one-code-unit separator. *)
Fixpoint split_aux (sep : char) (cur : str) (s : str) : list str :=
  match s with
  | [] => [rev cur]
  | c :: s' =>
      if N.eqb c sep then rev cur :: split_aux sep [] s'
      else split_aux sep (c :: cur) s'
  end.

Definition split (sep : char) (s : str) : list str := split_aux sep [] s.

(** [parts.join(sep)] *)
Fixpoint join (sep : str) (parts : list str) : str :=
  match parts with
  | [] => []
  | [p] => p
  | p :: rest => p ++ sep ++ join sep rest
  end.

(** White space of [String.prototype.trim] and of the class [\s]:
    WhiteSpace and LineTerminator code points of ECMAScript. *)
Definition isSpace (c : char) : bool :=
  match c with
  | 9 | 10 | 11 | 12 | 13 | 32 | 160 | 5760
  | 8192 | 8193 | 8194 | 8195 | 8196 | 8197 | 8198 | 8199 | 8200 | 8201 | 8202
  | 8232 | 8233 | 8239 | 8287 | 12288 | 65279 => true
  | _ => false
  end%N.

(** Line terminators: the code units [.] does not match. *)
Definition isLineTerminator (c : char) : bool :=
  match c with
  | 10 | 13 | 8232 | 8233 => true
  | _ => false
  end%N.

Definition isDigit (c : char) : bool := ((48 <=? c) && (c <=? 57))%N.

(** The class [\w]: ASCII letters, digits and the underscore. *)
Definition isWord (c : char) : bool :=
  isDigit c || ((65 <=? c)%N && (c <=? 90)%N)
            || ((97 <=? c)%N && (c <=? 122)%N) || N.eqb c 95.

Definition isQuote (c : char) : bool := N.eqb c quote || N.eqb c apos.

(** A lower-case hexadecimal digit, [[0-9a-f]]. *)
Definition isHexDigit (c : char) : bool :=
  isDigit c || ((97 <=? c)%N && (c <=? 102)%N).

(** The longest prefix of [s] all of whose code units satisfy [p], and the
    rest: a greedy [p*]. *)
Fixpoint span (p : char -> bool) (s : str) : str * str :=
  match s with
  | [] => ([], [])
  | c :: s' =>
      if p c then let (a, b) := span p s' in (c :: a, b) else ([], s)
  end.

Definition dropWhile (p : char -> bool) (s : str) : str := snd (span p s).

Definition trimStart (s : str) : str := dropWhile isSpace s.
Definition trimEnd (s : str) : str := rev (dropWhile isSpace (rev s)).
Definition trim (s : str) : str := trimEnd (trimStart s).

End JS.

(* ------------------------------------------------------------------------- *)
(** ** SHA-256 (FIPS 180-4), the digest behind [createHash] *)

Module Sha256.

Local Open Scope N_scope.

Definition w32 : N := 4294967296.

Definition add32 (a b : N) : N := (a + b) mod w32.
Definition rotr (n x : N) : N :=
  N.lor (N.shiftr x n) (N.shiftl x (32 - n) mod w32).
Definition shr (n x : N) : N := N.shiftr x n.
Definition not32 (x : N) : N := N.lxor x (w32 - 1).

Definition Ch (x y z : N) : N := N.lxor (N.land x y) (N.land (not32 x) z).
Definition Maj (x y z : N) : N :=
  N.lxor (N.lxor (N.land x y) (N.land x z)) (N.land y z).
Definition Sigma0 (x : N) : N := N.lxor (N.lxor (rotr 2 x) (rotr 13 x)) (rotr 22 x).
Definition Sigma1 (x : N) : N := N.lxor (N.lxor (rotr 6 x) (rotr 11 x)) (rotr 25 x).
Definition sigma0 (x : N) : N := N.lxor (N.lxor (rotr 7 x) (rotr 18 x)) (shr 3 x).
Definition sigma1 (x : N) : N := N.lxor (N.lxor (rotr 17 x) (rotr 19 x)) (shr 10 x).

(** The round constants and the initial hash value are derived the way
    FIPS 180-4 defines them: the first 32 bits of the fractional parts of
    the cube roots of the first 64 primes, and of the square roots of the
    first 8 primes. *)
Definition isPrime (n : nat) : bool :=
  forallb (fun d => negb (Nat.eqb (Nat.modulo n d) 0)) (seq 2 (n - 2)).

Definition primes : list N := map N.of_nat (filter isPrime (seq 2 310)).

(** The integer cube root of [n], found bit by bit below [2^bits]. *)
Fixpoint cbrt (bits : nat) (n acc : N) : N :=
  match bits with
  | O => acc
  | S b =>
      let cand := acc + N.shiftl 1 (N.of_nat b) in
      if cand * cand * cand <=? n then cbrt b n cand else cbrt b n acc
  end.

Definition K : list N :=
  map (fun p => cbrt 40 (N.shiftl p 96) 0 mod w32) primes.

(** The eight working variables / the intermediate hash value. *)
Record state := mkState { sa : N; sb : N; sc : N; sd : N;
                          se : N; sf : N; sg : N; sh : N }.

Definition fracSqrt (p : N) : N := N.sqrt (N.shiftl p 64) mod w32.

Definition H0 : state :=
  mkState (fracSqrt 2) (fracSqrt 3) (fracSqrt 5) (fracSqrt 7)
          (fracSqrt 11) (fracSqrt 13) (fracSqrt 17) (fracSqrt 19).

(** Big-endian words of a block of bytes. *)
Fixpoint words (bs : list N) : list N :=
  match bs with
  | b0 :: b1 :: b2 :: b3 :: rest =>
      (b0 * 16777216 + b1 * 65536 + b2 * 256 + b3) :: words rest
  | _ => []
  end.

(** The message schedule, newest word first: [n] more words are derived
    from the sixteen before them. *)
Fixpoint schedule (n : nat) (ws : list N) : list N :=
  match n with
  | O => ws
  | S n' =>
      let w := add32 (add32 (sigma1 (nth 1 ws 0)) (nth 6 ws 0))
                     (add32 (sigma0 (nth 14 ws 0)) (nth 15 ws 0)) in
      schedule n' (w :: ws)
  end.

Definition round (s : state) (kw : N * N) : state :=
  let (k, w) := kw in
  let t1 := add32 (add32 (add32 (sh s) (Sigma1 (se s)))
                         (add32 (Ch (se s) (sf s) (sg s)) k)) w in
  let t2 := add32 (Sigma0 (sa s)) (Maj (sa s) (sb s) (sc s)) in
  mkState (add32 t1 t2) (sa s) (sb s) (sc s) (add32 (sd s) t1) (se s) (sf s) (sg s).

Definition compress (h : state) (block : list N) : state :=
  let ws := rev (schedule 48 (rev (words block))) in
  let s := fold_left round (combine K ws) h in
  mkState (add32 (sa h) (sa s)) (add32 (sb h) (sb s)) (add32 (sc h) (sc s))
          (add32 (sd h) (sd s)) (add32 (se h) (se s)) (add32 (sf h) (sf s))
          (add32 (sg h) (sg s)) (add32 (sh h) (sh s)).

(** The padded message: a 1 bit, zeros up to 56 mod 64 bytes, and the bit
    length as a 64-bit big-endian number. *)
Definition be64 (n : N) : list N :=
  map (fun i => N.shiftr n (8 * i) mod 256) [7; 6; 5; 4; 3; 2; 1; 0].

Definition pad (msg : list N) : list N :=
  let len := N.of_nat (length msg) in
  let zeros := N.to_nat ((119 - len mod 64) mod 64) in
  msg ++ [128] ++ repeat 0 zeros ++ be64 (8 * len).

Fixpoint blocks (n : nat) (h : state) (bs : list N) : state :=
  match n with
  | O => h
  | S n' => blocks n' (compress h (firstn 64 bs)) (skipn 64 bs)
  end.

Definition digest (msg : list N) : state :=
  let p := pad msg in
  blocks (Nat.div (length p) 64) H0 p.

Definition hexDigit (d : N) : N := if d <? 10 then 48 + d else 87 + d.

Definition hex8 (w : N) : JS.str :=
  map (fun i => hexDigit (N.shiftr w (4 * i) mod 16)) [7; 6; 5; 4; 3; 2; 1; 0].

(** The hex digest: 64 lower-case hexadecimal digits. *)
Definition hex (s : state) : JS.str :=
  hex8 (sa s) ++ hex8 (sb s) ++ hex8 (sc s) ++ hex8 (sd s) ++
  hex8 (se s) ++ hex8 (sf s) ++ hex8 (sg s) ++ hex8 (sh s).

(** UTF-8 bytes of a JavaScript string, as [hash.update(string)] encodes
    it: surrogate pairs give four bytes, a lone surrogate gives U+FFFD. *)
Definition isHigh (c : N) : bool := (0xD800 <=? c) && (c <=? 0xDBFF).
Definition isLow (c : N) : bool := (0xDC00 <=? c) && (c <=? 0xDFFF).

Definition utf8cp (cp : N) : list N :=
  if cp <? 0x80 then [cp]
  else if cp <? 0x800 then [0xC0 + N.shiftr cp 6; 0x80 + cp mod 64]
  else if cp <? 0x10000 then
    [0xE0 + N.shiftr cp 12; 0x80 + N.shiftr cp 6 mod 64; 0x80 + cp mod 64]
  else
    [0xF0 + N.shiftr cp 18 mod 8; 0x80 + N.shiftr cp 12 mod 64;
     0x80 + N.shiftr cp 6 mod 64; 0x80 + cp mod 64].

Fixpoint utf8 (s : JS.str) : list N :=
  match s with
  | [] => []
  | c :: s' =>
      if isHigh c then
        match s' with
        | d :: s'' =>
            if isLow d
            then utf8cp (0x10000 + (c - 0xD800) * 1024 + (d - 0xDC00)) ++ utf8 s''
            else utf8cp 0xFFFD ++ utf8 s'
        | [] => utf8cp 0xFFFD
        end
      else if isLow c then utf8cp 0xFFFD ++ utf8 s'
      else utf8cp (c mod 65536) ++ utf8 s'
  end.

(** [createHash(sha256).update(content).digest(hex)] *)
Definition sha256hex (content : JS.str) : JS.str := hex (digest (utf8 content)).

End Sha256.

(* ------------------------------------------------------------------------- *)
(** ** Results of calls that may throw *)

(** What a JavaScript error object is to the sources: a Node system error
    with its [code], an [Error] with its message, the [SyntaxError] of
    [JSON.parse], the [ZodError] of a schema, the error of a git call. *)
Inductive JSError :=
| ErrnoException (code : JS.str)
| Error (message : JS.str)
| SyntaxError
| ZodError
| GitError
| TypeError.

(** [error.code]: only system errors carry one. *)
Definition errorCode (e : JSError) : option JS.str :=
  match e with
  | ErrnoException c => Some c
  | _ => None
  end.

Inductive outcome (A : Type) :=
| Returns (a : A)
| Throws (e : JSError).
Arguments Returns {A} a.
Arguments Throws {A} e.

Definition bind {A B} (x : outcome A) (f : A -> outcome B) : outcome B :=
  match x with
  | Returns a => f a
  | Throws e => Throws e
  end.

Notation "'let*' x ':=' c 'in' k" := (bind c (fun x => k))
  (at level 10, x name, c at level 100, k at level 200).

(** [try { body } catch (e) { handler(e) }] *)
Definition tryCatch {A} (body : outcome A) (handler : JSError -> outcome A) : outcome A :=
  match body with
  | Returns a => Returns a
  | Throws e => handler e
  end.

(* ------------------------------------------------------------------------- *)
(** ** schemas/lockfile.ts: the [Source] union and the [Lockfile] record

    The schema file is not among the sources; the shapes are the ones
    [writeLockfile] builds and plugins/providers/types.ts declares. *)

Inductive Source :=
| GithubSource (repository commit_sha ref : JS.str)
| LocalSource (path : JS.str) (commit_sha : option JS.str).

(** Truthiness of an optional string field: [undefined] and the empty
    string are falsy. *)
Definition truthyOpt (x : option JS.str) : bool :=
  match x with
  | Some s => JS.truthy s
  | None => false
  end.

Record AgentsMdEntry := mkAgentsMdEntry {
  global_block_hash : JS.str;
  merged : bool
}.

Record LockfileContent := mkLockfileContent {
  agents_md : AgentsMdEntry;
  skills : list JS.str;
  targets : list JS.str;
  marker_prefix : option JS.str
}.

Record Lockfile := mkLockfile {
  version : JS.str;
  pinned_version : option JS.str;
  synced_at : JS.str;
  source : Source;
  content : LockfileContent;
  cli_version : option JS.str
}.

(* ------------------------------------------------------------------------- *)
(** ** core/source.ts *)

Module CoreSource.
Import JS.

Record ResolvedSource := mkResolvedSource {
  rs_source : Source;
  basePath : str;
  agentsMdPath : str;
  skillsPath : str
}.

Section Resolve.

(** The environment of one call: [node:path], the file system and git. *)
Variable path_resolve : str -> str.
Variable path_join : list str -> str.
Variable path_dirname : str -> str.
Variable path_root : str -> str.          (* path.parse(dir).root *)
Variable cwd : str.                       (* process.cwd() *)
Variable fs_access : str -> bool.         (* fs.access(p) resolves *)
Variable fs_isDirectory : str -> bool.    (* fs.stat(p) resolves to a directory *)
(** [(await simpleGit(dir).log({ maxCount: 1 })).latest?.hash] *)
Variable git_log : str -> outcome (option str).

(** [simpleGit(dir)] refuses a directory that does not exist. *)
Definition simpleGit (dir : str) : outcome unit :=
  if fs_isDirectory dir then Returns tt else Throws GitError.

Definition isCanonicalRepo (dir : str) : bool :=
  if negb (fs_isDirectory dir) then false
  else
    let instructionsPath := path_join [dir; lit "instructions"; lit "AGENTS.md"] in
    let skillsPath := path_join [dir; lit "skills"] in
    let instructionsExists := fs_access instructionsPath in
    let skillsExists := fs_access skillsPath in
    if negb instructionsExists || negb skillsExists then false
    else true.

(** The first loop of [findCanonicalRepo]: walk up from [checkDir]. *)
Fixpoint findInside (fuel : nat) (root checkDir : str) : option (option str) :=
  match fuel with
  | O => None
  | S fuel' =>
      if str_eqb checkDir root then Some None
      else if isCanonicalRepo checkDir then Some (Some checkDir)
      else findInside fuel' root (path_dirname checkDir)
  end.

(** The second loop: a sibling directory named agent-conf. *)
Fixpoint findSibling (fuel : nat) (root currentDir : str) : option (option str) :=
  match fuel with
  | O => None
  | S fuel' =>
      if str_eqb currentDir root then Some None
      else
        let parentDir := path_dirname currentDir in
        let siblingCanonicalRepo := path_join [parentDir; lit "agent-conf"] in
        if isCanonicalRepo siblingCanonicalRepo then Some (Some siblingCanonicalRepo)
        else findSibling fuel' root parentDir
  end.

(** [None]: the loops did not finish within [fuel] steps. *)
Definition findCanonicalRepo (fuel : nat) (startDir : str) : option (outcome str) :=
  let currentDir := path_resolve startDir in
  let root := path_root currentDir in
  match findInside fuel root currentDir with
  | None => None
  | Some (Some dir) => Some (Returns dir)
  | Some None =>
      match findSibling fuel root (path_resolve startDir) with
      | None => None
      | Some (Some dir) => Some (Returns dir)
      | Some None =>
          Some (Throws (Error (lit
            "Could not find canonical repository. Please specify --local <path> or run from within the canonical repo.")))
      end
  end.

Definition validateCanonicalRepo (basePath : str) : outcome unit :=
  let agentsMdPath := path_join [basePath; lit "instructions"; lit "AGENTS.md"] in
  let skillsPath := path_join [basePath; lit "skills"] in
  let agentsMdExists := fs_access agentsMdPath in
  let skillsExists := fs_access skillsPath in
  if negb agentsMdExists then
    Throws (Error (lit "Invalid canonical repository: missing instructions/AGENTS.md at "
                   ++ basePath))
  else if negb skillsExists then
    Throws (Error (lit "Invalid canonical repository: missing skills/ directory at "
                   ++ basePath))
  else Returns tt.

(** [options.path] is [None] when the option is absent. *)
Definition resolveLocalSource (fuel : nat) (options_path : option str)
  : option (outcome ResolvedSource) :=
  let resolved :=
    if truthyOpt options_path
    then Some (Returns (path_resolve (match options_path with Some p => p | None => [] end)))
    else findCanonicalRepo fuel cwd in
  match resolved with
  | None => None
  | Some r => Some (
      let* basePath := r in
      let* _ := validateCanonicalRepo basePath in
      let* _ := simpleGit basePath in
      let commitSha :=
        match git_log basePath with
        | Returns hash => hash
        | Throws _ => None       (* Not a git repo or git not available *)
        end in
      let source := LocalSource basePath commitSha in
      Returns (mkResolvedSource source basePath
                 (path_join [basePath; lit "instructions"; lit "AGENTS.md"])
                 (path_join [basePath; lit "skills"])))
  end.

End Resolve.

Definition formatSourceString (source : Source) : str :=
  match source with
  | GithubSource repository commit_sha _ =>
      let sha := slice0 7 commit_sha in
      lit "github:" ++ repository ++ lit "@" ++ sha
  | LocalSource path commit_sha =>
      if truthyOpt commit_sha
      then lit "local:" ++ path ++ lit "@"
           ++ slice0 7 (match commit_sha with Some s => s | None => [] end)
      else lit "local:" ++ path
  end.

Definition DEFAULT_REF : str := lit "master".
Definition getDefaultRef : str := DEFAULT_REF.

End CoreSource.

(* ------------------------------------------------------------------------- *)
(** ** plugins/providers/types.ts *)

Module ProviderTypes.
Import JS.

(** [SourceMetadata = GitHubSourceMetadata | LocalSourceMetadata] has the
    fields of [Source]. *)
Definition SourceMetadata := Source.

Definition formatSourceString (source : SourceMetadata) : str :=
  match source with
  | GithubSource repository commit_sha _ =>
      let sha := slice0 7 commit_sha in
      lit "github:" ++ repository ++ lit "@" ++ sha
  | LocalSource path commit_sha =>
      if truthyOpt commit_sha
      then lit "local:" ++ path ++ lit "@"
           ++ slice0 7 (match commit_sha with Some s => s | None => [] end)
      else lit "local:" ++ path
  end.

End ProviderTypes.

(* ------------------------------------------------------------------------- *)
(** ** JavaScript numbers, as far as version comparison sees them *)

Module JSNum.

(** A double is NaN, an infinity or a rational. *)
Inductive number :=
| NaN
| NegInf
| Fin (q : Q)
| PosInf.

Definition zero : number := Fin 0%Q.

(** [a > b]; every comparison with NaN is false. *)
Definition gt (a b : number) : bool :=
  match a, b with
  | NaN, _ | _, NaN => false
  | PosInf, PosInf => false
  | PosInf, _ => true
  | _, PosInf => false
  | NegInf, _ => false
  | Fin _, NegInf => true
  | Fin x, Fin y => negb (Qle_bool x y)
  end.

(** Numeric equality of two numbers that are not NaN. *)
Definition same (a b : number) : bool :=
  match a, b with
  | PosInf, PosInf => true
  | NegInf, NegInf => true
  | Fin x, Fin y => Qeq_bool x y
  | _, _ => false
  end.

(** Truthiness: NaN and zero are falsy. *)
Definition truthy (a : number) : bool :=
  match a with
  | NaN => false
  | Fin q => negb (Qeq_bool q 0%Q)
  | _ => true
  end.

(** [x || 0] where [x] may be [undefined]. *)
Definition orZero (x : option number) : number :=
  match x with
  | Some n => if truthy n then n else zero
  | None => zero
  end.

End JSNum.

(* ------------------------------------------------------------------------- *)
(** ** core/lockfile.ts *)

Module CoreLockfile.
Import JS.

Definition CONFIG_DIR : str := lit ".agent-conf".
Definition LOCKFILE_NAME : str := lit "lockfile.json".

Definition hashContent (content : str) : str :=
  let hash := Sha256.sha256hex content in
  lit "sha256:" ++ slice0 12 hash.

Record VersionMismatch := mkVersionMismatch {
  currentVersion : str;
  lockfileVersion : str
}.

Section Store.

Variable path_join : list str -> str.
(** [fs.readFile(p, utf-8)]: the content, or the system error. *)
Variable fs_readFile : str -> outcome str.
(** [JSON.parse]: [None] when it throws its SyntaxError. *)
Variable Json : Type.
Variable JSON_parse : str -> option Json.
(** [LockfileSchema.parse]: [None] when it throws its ZodError. *)
Variable LockfileSchema_parse : Json -> option Lockfile.
(** The version injected at build time, if any. *)
Variable BUILD_VERSION : option str.
(** The conversion [Number(s)] of a string. *)
Variable Number : str -> JSNum.number.

Definition getLockfilePath (targetDir : str) : str :=
  path_join [targetDir; CONFIG_DIR; LOCKFILE_NAME].

Definition readLockfile (targetDir : str) : outcome (option Lockfile) :=
  let lockfilePath := getLockfilePath targetDir in
  tryCatch
    (let* content := fs_readFile lockfilePath in
     let* parsed := match JSON_parse content with
                    | Some j => Returns j
                    | None => Throws SyntaxError
                    end in
     match LockfileSchema_parse parsed with
     | Some lockfile => Returns (Some lockfile)
     | None => Throws ZodError
     end)
    (fun error =>
       match errorCode error with
       | Some code => if str_eqb code (lit "ENOENT") then Returns None else Throws error
       | None => Throws error
       end).

Definition getCliVersion : str :=
  match BUILD_VERSION with
  | Some v => v
  | None => lit "0.0.0"
  end.

(** The loop [for (let i = 0; i < 3; i++)], [steps] iterations from [i]. *)
Fixpoint compareFrom (steps i : nat) (current lockfile_ : list JSNum.number)
         (mismatch : VersionMismatch) : option VersionMismatch :=
  match steps with
  | O => None                                   (* Versions are equal *)
  | S steps' =>
      let l := JSNum.orZero (nth_error lockfile_ i) in
      let c := JSNum.orZero (nth_error current i) in
      if JSNum.gt l c then Some mismatch
      else if JSNum.gt c l then None            (* Current is newer *)
      else compareFrom steps' (S i) current lockfile_ mismatch
  end.

Definition checkCliVersionMismatch (targetDir : str) : outcome (option VersionMismatch) :=
  let* lockfile := readLockfile targetDir in
  match lockfile with
  | None => Returns None                        (* No lockfile means first sync *)
  | Some lockfile =>
      let currentVersion := getCliVersion in
      let lockfileVersion := cli_version lockfile in
      if negb (truthy currentVersion) || negb (truthyOpt lockfileVersion)
      then Returns None
      else
        let lockfileVersion := match lockfileVersion with Some v => v | None => [] end in
        let current := map Number (split 46%N currentVersion) in
        let lockfile_ := map Number (split 46%N lockfileVersion) in
        Returns (compareFrom 3 0 current lockfile_
                   (mkVersionMismatch currentVersion lockfileVersion))
  end.

End Store.

End CoreLockfile.

(* ------------------------------------------------------------------------- *)
(** ** core/targets.ts and plugins/targets *)

Module Targets.
Import JS.

Inductive Target := claude | codex.

Definition SUPPORTED_TARGETS : list Target := [claude; codex].

Definition targetName (t : Target) : str :=
  match t with
  | claude => lit "claude"
  | codex => lit "codex"
  end.

Record TargetConfig := mkTargetConfig {
  dir : str;
  instructionsFile : option str
}.

Definition TARGET_CONFIGS (t : Target) : TargetConfig :=
  match t with
  | claude => mkTargetConfig (lit ".claude") (Some (lit "CLAUDE.md"))
  | codex => mkTargetConfig (lit ".codex") None
  end.

Definition getTargetConfig (target : Target) : TargetConfig := TARGET_CONFIGS target.

End Targets.

Module TargetPlugins.
Import JS.

Record TargetCapabilities := mkTargetCapabilities {
  cap_skills : bool;
  cap_subAgents : bool;
  cap_hooks : bool;
  cap_fileReferences : bool;
  cap_instructionsFile : bool
}.

Record TargetConfig := mkTargetConfig {
  dir : str;
  instructionsFile : option str;
  instructionsContent : option str
}.

Record TargetAgent := mkTargetAgent {
  name : str;
  config : TargetConfig;
  capabilities : TargetCapabilities
}.

Definition CLAUDE_CONFIG : TargetConfig :=
  mkTargetConfig (lit ".claude") (Some (lit "CLAUDE.md")) (Some (lit "@../AGENTS.md")).

Definition CLAUDE_CAPABILITIES : TargetCapabilities :=
  mkTargetCapabilities true true true true true.

Definition claudeTarget : TargetAgent :=
  mkTargetAgent (lit "claude") CLAUDE_CONFIG CLAUDE_CAPABILITIES.

Definition CODEX_CONFIG : TargetConfig :=
  mkTargetConfig (lit ".codex") None None.

Definition CODEX_CAPABILITIES : TargetCapabilities :=
  mkTargetCapabilities true false true false false.

Definition codexTarget : TargetAgent :=
  mkTargetAgent (lit "codex") CODEX_CONFIG CODEX_CAPABILITIES.

End TargetPlugins.

(* ------------------------------------------------------------------------- *)
(** ** JavaScript objects as ordered property lists *)

Module JSObject.
Import JS.

(** Own enumerable string-keyed properties in the order [Object.entries]
    lists them: array-index keys first, ascending, then the other keys in
    the order they were created. *)
Definition t (V : Type) := list (str * V).

Definition digitsValue (k : str) : N :=
  fold_left (fun acc c => (acc * 10 + (c - 48))%N) k 0%N.

(** A key is an array index when it is the canonical decimal form of an
    integer below 2^32 - 1. *)
Definition arrayIndex (k : str) : option N :=
  match k with
  | [] => None
  | c :: rest =>
      if forallb isDigit k
         && (negb (N.eqb c 48) || match rest with [] => true | _ => false end)
      then if (digitsValue k <? 4294967295)%N then Some (digitsValue k) else None
      else None
  end.

Fixpoint get {V} (k : str) (o : t V) : option V :=
  match o with
  | [] => None
  | (k', v) :: o' => if str_eqb k k' then Some v else get k o'
  end.

Fixpoint mem {V} (k : str) (o : t V) : bool :=
  match o with
  | [] => false
  | (k', _) :: o' => str_eqb k k' || mem k o'
  end.

(** The value of an existing property changes in place. *)
Fixpoint replace {V} (k : str) (v : V) (o : t V) : t V :=
  match o with
  | [] => []
  | (k', v') :: o' => if str_eqb k k' then (k, v) :: o' else (k', v') :: replace k v o'
  end.

(** A new array-index key goes before the first larger index and before
    every other key. *)
Fixpoint insertIndex {V} (i : N) (k : str) (v : V) (o : t V) : t V :=
  match o with
  | [] => [(k, v)]
  | (k', v') :: o' =>
      match arrayIndex k' with
      | Some j => if (i <? j)%N then (k, v) :: o else (k', v') :: insertIndex i k v o'
      | None => (k, v) :: o
      end
  end.

(** A new property: an array index goes to its place, any other key to
    the end. *)
Definition create {V} (k : str) (v : V) (o : t V) : t V :=
  match arrayIndex k with
  | Some i => insertIndex i k v o
  | None => o ++ [(k, v)]
  end.

(** [o[k] = v] on an ordinary object. *)
Definition set {V} (k : str) (v : V) (o : t V) : t V :=
  if mem k o then replace k v o else create k v o.

(** [delete o[k]] *)
Fixpoint remove {V} (k : str) (o : t V) : t V :=
  match o with
  | [] => []
  | (k', v) :: o' => if str_eqb k k' then o' else (k', v) :: remove k o'
  end.

Definition keys {V} (o : t V) : list str := map fst o.

(** [{ ...src }] onto [dst]: every property of [src] set in order. *)
Definition assignAll {V} (src dst : t V) : t V :=
  fold_left (fun acc kv => set (fst kv) (snd kv) acc) src dst.

End JSObject.

(* ------------------------------------------------------------------------- *)
(** ** core/agents.ts *)

Module Agents.
Import JS.

(** A frontmatter value: a string, an array (its items as a template
    string renders them) or a one-level map of strings. *)
Inductive Value :=
| VStr (s : str)
| VArr (items : list str)
| VObj (entries : JSObject.t str).

(** The frontmatter object: its own properties, and the prototype an
    assignment to [__proto__] may have installed. *)
Record AgentFrontmatter := mkFrontmatter {
  fm_proto : option Value;
  fm_props : JSObject.t Value
}.

Definition emptyFrontmatter : AgentFrontmatter := mkFrontmatter None [].

Record Agent := mkAgent {
  relativePath : str;
  rawContent : str;
  frontmatter : option AgentFrontmatter;
  body : str
}.

Definition proto_key : str := lit "__proto__".

(** [o[key] = v] *)
Definition assign (key : str) (v : Value) (o : AgentFrontmatter) : AgentFrontmatter :=
  if str_eqb key proto_key then
    match v with
    | VStr _ => o
    | _ => mkFrontmatter (Some v) (fm_props o)
    end
  else mkFrontmatter (fm_proto o) (JSObject.set key v (fm_props o)).


(** [m[key] = value] on a nested map, for a string [value]. *)
Definition assignNested (key value : str) (m : JSObject.t str) : JSObject.t str :=
  if str_eqb key proto_key then m else JSObject.set key value m.


(* --- the regular expressions of the file ------------------------------- *)

Definition noTerminator (s : str) : bool := forallb (fun c => negb (isLineTerminator c)) s.

(** [/^\s+-\s+/]: the rest of the line after the match. *)
Definition matchItemPrefix (line : str) : option str :=
  match span isSpace line with
  | (_ :: _, 45%N :: r) =>
      match span isSpace r with
      | (_ :: _, rest) => Some rest
      | _ => None
      end
  | _ => None
  end.

(** [line.replace(/^\s+-\s+/, EMPTY)] *)
Definition removeItemPrefix (line : str) : str :=
  match matchItemPrefix line with
  | Some rest => rest
  | None => line
  end.

Definition stripTrailingQuote (s : str) : str :=
  match rev s with
  | q :: t => if isQuote q then rev t else s
  | [] => []
  end.

(** [s.replace(/^[DQ']|[DQ']$/g, EMPTY)] *)
Definition stripQuotes (s : str) : str :=
  match s with
  | c :: r => if isQuote c then stripTrailingQuote r else stripTrailingQuote s
  | [] => []
  end.

(** [/^\s+(\w+):\s*[DQ']?(.* )[DQ']?$/]: groups 1 and 2. *)
Definition matchNested (line : str) : option (str * str) :=
  match span isSpace line with
  | (_ :: _, r) =>
      match span isWord r with
      | (c :: key, 58%N :: r1) =>
          let r2 := dropWhile isSpace r1 in
          let r3 := match r2 with
                    | q :: r' => if isQuote q then r' else r2
                    | [] => []
                    end in
          if noTerminator r3 then Some (c :: key, r3) else None
      | _ => None
      end
  | _ => None
  end.

(** [/^(\w+):\s*(.* )$/]: groups 1 and 2. *)
Definition matchTop (line : str) : option (str * str) :=
  match span isWord line with
  | (c :: key, 58%N :: r1) =>
      let r2 := dropWhile isSpace r1 in
      if noTerminator r2 then Some (c :: key, r2) else None
  | _ => None
  end.

(** [/^\d+$/.test(value)] *)
Definition allDigits (value : str) : bool :=
  match value with
  | [] => false
  | _ => forallb isDigit value
  end.

(** Check if a YAML value needs quoting. *)
Definition needsQuoting (value : str) : bool :=
  includes (lit ":") value
  || includes (lit "#") value
  || includes (lit "@") value
  || str_eqb value (lit "true")
  || str_eqb value (lit "false")
  || allDigits value.

(** [\r?\n---] at the start of [s]: what follows it. *)
Definition matchClose (s : str) : option str :=
  match s with
  | 13%N :: 10%N :: 45%N :: 45%N :: 45%N :: r => Some r
  | 10%N :: 45%N :: 45%N :: 45%N :: r => Some r
  | _ => None
  end.

(** Where the lazy group of FRONTMATTER_REGEX stops: the first position
    at which [\r?\n---] matches; the group and what follows [---]. *)
Fixpoint findClose (s : str) : option (str * str) :=
  match matchClose s with
  | Some r => Some ([], r)
  | None =>
      match s with
      | [] => None
      | c :: s' =>
          match findClose s' with
          | Some (g, rest) => Some (c :: g, rest)
          | None => None
          end
      end
  end.

(** The opening [^---\r?\n] of a frontmatter block. *)
Definition matchOpen (s : str) : option str :=
  match s with
  | 45%N :: 45%N :: 45%N :: 13%N :: 10%N :: r => Some r
  | 45%N :: 45%N :: 45%N :: 10%N :: r => Some r
  | _ => None
  end.

(** The trailing [\r?\n?] *)
Definition skipLineEnd (s : str) : str :=
  let s1 := match s with 13%N :: r => r | _ => s end in
  match s1 with 10%N :: r => r | _ => s1 end.

(** FRONTMATTER_REGEX = [/^---\r?\n([\s\S]*?)\r?\n---\r?\n?/]:
    group 1 and the content after the whole match. *)
Definition matchFrontmatter (content : str) : option (str * str) :=
  match matchOpen content with
  | Some r =>
      match findClose r with
      | Some (rawYaml, rest) => Some (rawYaml, skipLineEnd rest)
      | None => None
      end
  | None => None
  end.

(* --- parseSimpleYaml ---------------------------------------------------- *)

Section Parse.

(** [JSON.parse] on a value that starts with [[] and ends with []]:
    the items of the array (as a template string renders them), or [None]
    when it throws. *)
Variable JSON_parse : str -> option (list str).

Record ParseState := mkParseState {
  result : AgentFrontmatter;
  currentKey : option str;
  currentValue : option Value;
  isArray : bool
}.

(** [lines.indexOf(line)] *)
Fixpoint indexOf (line : str) (lines : list str) : nat :=
  match lines with
  | [] => 0
  | l :: rest => if str_eqb l line then 0 else S (indexOf line rest)
  end.

(** Save previous value if we are moving to a new key. *)
Definition savePrevious (st : ParseState) : ParseState :=
  match currentKey st, currentValue st with
  | Some k, Some v => mkParseState (assign k v (result st)) (currentKey st) None false
  | _, _ => st
  end.

(** Parse top-level key-value. *)
Definition parseTopLevel (lines : list str) (line : str) (st : ParseState) : ParseState :=
  match matchTop line with
  | Some (key, m2) =>
      let value := trim m2 in
      if negb (truthy value) then
        let nextLineIndex := S (indexOf line lines) in
        match nth_error lines nextLineIndex with
        | Some next =>
            match matchItemPrefix next with
            | Some _ => mkParseState (result st) (Some key) (Some (VArr [])) true
            | None => mkParseState (result st) (Some key) (Some (VObj [])) false
            end
        | None => mkParseState (result st) (Some key) (Some (VObj [])) false
        end
      else if startsWith (lit "[") value && endsWith (lit "]") value then
        match JSON_parse value with
        | Some items =>
            mkParseState (assign key (VArr items) (result st)) None None (isArray st)
        | None =>
            mkParseState (assign key (VStr (stripQuotes value)) (result st)) None None
                         (isArray st)
        end
      else
        mkParseState (assign key (VStr (stripQuotes value)) (result st)) None None
                     (isArray st)
  | None => st
  end.

(** One iteration of the loop over the lines. *)
Definition parseLine (lines : list str) (st : ParseState) (line : str)
  : outcome ParseState :=
  if negb (truthy (trim line)) then Returns st
  else
    match matchItemPrefix line with
    | Some rest =>
        match currentKey st, isArray st, currentValue st with
        | Some _, true, Some (VArr items) =>
            let value := trim (stripQuotes rest) in
            Returns (mkParseState (result st) (currentKey st)
                                  (Some (VArr (items ++ [value]))) true)
        | Some _, true, _ => Throws TypeError
        | _, _, _ => Returns st
        end
    | None =>
        let nestedCase :=
          startsWith (lit "  ") line
          && match currentKey st with Some _ => true | None => false end
          && match currentValue st with Some (VStr _) => false | _ => true end
          && negb (isArray st) in
        if nestedCase then
          match matchNested line with
          | Some (key, m2) =>
              let value := stripQuotes m2 in
              match currentValue st with
              | Some (VObj m) =>
                  Returns (mkParseState (result st) (currentKey st)
                                        (Some (VObj (assignNested key value m))) false)
              | Some (VArr _) => Returns st
              | _ => Throws TypeError
              end
          | None => Returns st
          end
        else Returns (parseTopLevel lines line (savePrevious st))
    end.

Fixpoint parseLines (lines : list str) (st : ParseState) (todo : list str)
  : outcome ParseState :=
  match todo with
  | [] => Returns st
  | line :: rest =>
      let* st' := parseLine lines st line in
      parseLines lines st' rest
  end.

Definition parseSimpleYaml (yaml : str) : outcome AgentFrontmatter :=
  let lines := split 10%N yaml in
  let* st := parseLines lines (mkParseState emptyFrontmatter None None false) lines in
  (* Don't forget the last value *)
  Returns (result (savePrevious st)).

Definition parseFrontmatter (content : str) : option AgentFrontmatter * str :=
  match matchFrontmatter content with
  | Some (rawYaml, body) =>
      if negb (truthy rawYaml) then (None, content)
      else
        match parseSimpleYaml rawYaml with
        | Returns frontmatter => (Some frontmatter, body)
        | Throws _ => (None, content)   (* Parse error - treat as no frontmatter *)
        end
  | None => (None, content)
  end.

(* --- parseAgent --------------------------------------------------------- *)

(** After the dash of a list item: [\s+.+\n?]. When the white space runs
    to the end of the input, [\s+] gives back code units until [.+] finds
    one that is not a line terminator. *)
Definition itemTail (s : str) : option str :=
  match span isSpace s with
  | (_ :: _, c :: r) =>
      let rest := dropWhile (fun c => negb (isLineTerminator c)) (c :: r) in
      Some (match rest with 10%N :: t => t | _ => rest end)
  | (w, []) =>
      match span isLineTerminator (rev w) with
      | (terms, _ :: _ :: _) =>
          let rest := rev terms in
          Some (match rest with 10%N :: t => t | _ => rest end)
      | _ => None
      end
  | _ => None
  end.

(** One repetition of [(?:\s+-\s+.+\n?)]: what is left after it. *)
Definition item (s : str) : option str :=
  match span isSpace s with
  | (_ :: _, 45%N :: r) => itemTail r
  | _ => None
  end.

Fixpoint moreItems (fuel : nat) (s : str) : str :=
  match fuel with
  | O => s
  | S fuel' =>
      match item s with
      | Some s' => moreItems fuel' s'
      | None => s
      end
  end.

(** [((?:\s+-\s+.+\n?)+)] at the start of [s]: the text of the group. *)
Definition itemsGroup (s : str) : option str :=
  match item s with
  | Some s' =>
      let rest := moreItems (length s') s' in
      Some (firstn (length s - length rest) s)
  | None => None
  end.

(** [\s*\n((?:...)+)] after [tools:]: the longest [\s*] for which the
    rest matches. *)
Fixpoint toolsContinuation (s : str) : option str :=
  match s with
  | c :: s' =>
      if isSpace c then
        match toolsContinuation s' with
        | Some g => Some g
        | None => if N.eqb c 10 then itemsGroup s' else None
        end
      else None
  | [] => None
  end.

(** The lazy [[\s\S]*?tools:...]: the first position that works. *)
Fixpoint findTools (s : str) : option str :=
  match (if startsWith (lit "tools:") s then toolsContinuation (skipn 6 s) else None) with
  | Some g => Some g
  | None =>
      match s with
      | [] => None
      | _ :: s' => findTools s'
      end
  end.

(** [^---\r?\n] under the m flag: the first line start where it matches. *)
Fixpoint findOpen (atLineStart : bool) (s : str) : option str :=
  match (if atLineStart then matchOpen s else None) with
  | Some r => Some r
  | None =>
      match s with
      | [] => None
      | c :: s' => findOpen (isLineTerminator c) s'
      end
  end.

(** [content.match(/^---\r?\n[\s\S]*?tools:\s*\n((?:\s+-\s+.+\n?)+)/m)]:
    group 1. *)
Definition toolsMatch (content : str) : option str :=
  match findOpen true content with
  | Some r => findTools r
  | None => None
  end.

Definition toolsOf (toolsContent : str) : list str :=
  filter (fun t => negb (Nat.eqb (length t) 0))
    (map (fun line => trim (stripQuotes (removeItemPrefix line)))
       (filter (fun line => startsWith (lit "-") (trim line))
          (split 10%N toolsContent))).

Definition parseAgent (content relativePath : str) : Agent :=
  let (frontmatter, body) := parseFrontmatter content in
  let frontmatter :=
    match frontmatter with
    | Some fm =>
        match toolsMatch content with
        | Some toolsContent =>
            let tools := toolsOf toolsContent in
            if negb (Nat.eqb (length tools) 0)
            then Some (assign (lit "tools") (VArr tools) fm)
            else Some fm
        | None => Some fm
        end
    | None => None
    end in
  mkAgent relativePath content frontmatter body.



End Parse.

(* --- serializeFrontmatter ---------------------------------------------- *)

Definition quoted (value : str) : str :=
  if needsQuoting value then [quote] ++ value ++ [quote] else value.

Definition serializeEntry (kv : str * Value) : list str :=
  let (key, value) := kv in
  match value with
  | VArr items =>
      (key ++ lit ":") :: map (fun item => lit "  - " ++ [quote] ++ item ++ [quote]) items
  | VObj entries =>
      (key ++ lit ":")
      :: map (fun nkv => lit "  " ++ fst nkv ++ lit ": " ++ quoted (snd nkv)) entries
  | VStr value => [key ++ lit ": " ++ quoted value]
  end.

Definition serializeFrontmatter (frontmatter : AgentFrontmatter) : str :=
  join nl (flat_map serializeEntry (fm_props frontmatter)).

(* --- addAgentMetadata --------------------------------------------------- *)






Definition wrapFrontmatter (yamlContent body : str) : str :=
  lit "---" ++ nl ++ yamlContent ++ nl ++ lit "---" ++ nl ++ body.

Section Metadata.

(** [computeContentHash] of core/skill-metadata.ts, called with the content
    and the [metadataPrefix] option. *)
Variable computeSkillContentHash : str -> str -> str.




End Metadata.

End Agents.

(* ------------------------------------------------------------------------- *)
(** ** core/skill-metadata.ts: stripping and hashing *)

Module SkillMetadata.
Import JS.

Section Codec.

Variable JSON_parse : str -> option (list str).

(** Modelled from the spec: the key prefix of a metadata prefix. Dashes
    become underscores, so that the prefix agent-conf gives the keys
    agent_conf_managed and agent_conf_content_hash of the unit tests. *)
Definition toKeyPrefix (metadataPrefix : str) : str :=
  map (fun c => if N.eqb c 45 then 95%N else c) metadataPrefix.

(** Modelled from the spec: the two reserved keys. *)
Definition isReservedKey (metadataPrefix key : str) : bool :=
  str_eqb key (toKeyPrefix metadataPrefix ++ lit "_managed")
  || str_eqb key (toKeyPrefix metadataPrefix ++ lit "_content_hash").

(** Modelled from the spec: the order in which the normal form lists keys,
    by code units (the hash is stable regardless of key ordering). *)
Fixpoint str_leb (a b : str) : bool :=
  match a, b with
  | [], _ => true
  | _ :: _, [] => false
  | x :: a', y :: b' =>
      if N.ltb x y then true
      else if N.eqb x y then str_leb a' b' else false
  end.

(** Modelled from the spec: a field put at its place among fields that
    are listed by key. *)
Fixpoint insertByKey {V} (kv : str * V) (o : JSObject.t V) : JSObject.t V :=
  match o with
  | [] => [kv]
  | kv' :: o' =>
      if str_leb (fst kv) (fst kv') then kv :: o else kv' :: insertByKey kv o'
  end.

(** Modelled from the spec: the fields listed by key. *)
Definition sortByKey {V} (o : JSObject.t V) : JSObject.t V :=
  fold_right insertByKey [] o.

(** Modelled from the spec: what stripping leaves of one field. The
    metadata map loses its reserved keys and is deleted when that empties
    it; every other field stays. The entries of a map are listed in the
    order of their keys. *)
Definition stripField (metadataPrefix : str) (kv : str * Agents.Value)
  : JSObject.t Agents.Value :=
  match snd kv with
  | Agents.VObj entries =>
      if str_eqb (fst kv) (lit "metadata") then
        let kept :=
          filter (fun e => negb (isReservedKey metadataPrefix (fst e))) entries in
        match entries, kept with
        | _ :: _, [] => []
        | _, _ => [(fst kv, Agents.VObj (sortByKey kept))]
        end
      else [(fst kv, Agents.VObj (sortByKey entries))]
  | _ => [kv]
  end.

(** Modelled from the spec: [stripManagedMetadata] of core/skill-metadata.ts,
    which is not among the sources. It removes only the reserved keys of the
    [metadata] map and deletes an emptied [metadata] map entirely; the
    other fields keep their values (section 8: the result is semantically
    equal for every non-reserved field). The stripped content is written
    with its keys in order, so that the hash taken over it does not depend
    on the order of the keys (sections 3 and 8). Content without parsed
    frontmatter has nothing to remove. Parsing and serialization are those
    of core/agents.ts. *)
Definition stripManagedMetadata (content metadataPrefix : str) : str :=
  match Agents.parseFrontmatter JSON_parse content with
  | (Some frontmatter, body) =>
      let props := Agents.fm_props frontmatter in
      let props' := sortByKey (flat_map (stripField metadataPrefix) props) in
      Agents.wrapFrontmatter
        (Agents.serializeFrontmatter
           (Agents.mkFrontmatter (Agents.fm_proto frontmatter) props'))
        body
  | (None, _) => content
  end.

(** Modelled from the spec: [computeContentHash] of core/skill-metadata.ts,
    which is not among the sources: sha256 of the metadata-stripped content,
    truncated to 12 hex characters, prefixed sha256: *)
Definition computeContentHash (content metadataPrefix : str) : str :=
  let stripped := stripManagedMetadata content metadataPrefix in
  let hash := Sha256.sha256hex stripped in
  lit "sha256:" ++ slice0 12 hash.


End Codec.

End SkillMetadata.

(* ------------------------------------------------------------------------- *)
(** ** core/markers.ts and core/merge.ts: the marker merge engine *)

Module Markers.
Import JS.

Section Prefix.

(** The marker prefix, agent-conf by default. *)
Variable prefix : str.















End Prefix.

End Markers.

(* ------------------------------------------------------------------------- *)
(** ** The version order the specification describes *)

Module VersionSpec.
Import JS.

(** Component [i] of a version, a missing one treated as 0 (and so is one
    that is not a number). *)
Definition component (parts : list JSNum.number) (i : nat) : JSNum.number :=
  JSNum.orZero (nth_error parts i).

(** The (major, minor, patch) triplet of a version string. *)
Definition triplet (Number : str -> JSNum.number) (v : str)
  : JSNum.number * JSNum.number * JSNum.number :=
  let parts := map Number (split 46%N v) in
  (component parts 0, component parts 1, component parts 2).

(** [a] is strictly greater than [b], triplet-wise. *)
Definition newer (a b : JSNum.number * JSNum.number * JSNum.number) : bool :=
  let '(a0, a1, a2) := a in
  let '(b0, b1, b2) := b in
  JSNum.gt a0 b0
  || (JSNum.same a0 b0
      && (JSNum.gt a1 b1 || (JSNum.same a1 b1 && JSNum.gt a2 b2))).

End VersionSpec.

(* ------------------------------------------------------------------------- *)
(** ** Objects the parser can build *)

Module WellFormed.
Import JS Agents.




(** [JSON.parse] is not reached by a file none of whose values is written
    between square brackets; this stand-in serves the concrete examples. *)
Definition noInlineArrays : str -> option (list str) := fun _ => None.

End WellFormed.

(* ------------------------------------------------------------------------- *)
(** ** Frontmatter in the form the serializer writes and the parser reads back *)

Module Canonical.
Import JS Agents.

Definition headIs (p : char -> bool) (s : str) : bool :=
  match s with
  | c :: _ => p c
  | [] => false
  end.

Definition lastIs (p : char -> bool) (s : str) : bool := headIs p (rev s).

Fixpoint nodupb (l : list str) : bool :=
  match l with
  | [] => true
  | k :: l' => negb (existsb (str_eqb k) l') && nodupb l'
  end.

(** A key: an identifier that is neither a number nor __proto__. *)
Definition keyOK (k : str) : bool :=
  headIs isWord k && forallb isWord k && negb (forallb isDigit k)
  && negb (str_eqb k proto_key).

(** A top-level scalar: on one line, and either quoted by the serializer
    or plain: not empty, no blank or quote at either end, not written
    between square brackets. *)
Definition scalarOK (s : str) : bool :=
  noTerminator s
  && (needsQuoting s
      || (truthy s && negb (headIs isSpace s) && negb (lastIs isSpace s)
          && negb (headIs isQuote s) && negb (lastIs isQuote s)
          && negb (startsWith (lit "[") s && endsWith (lit "]") s))).

(** A value of a nested map: on one line, not empty, no quote in front,
    and either quoted by the serializer or without blank or quote at its
    ends. *)
Definition nestedOK (s : str) : bool :=
  noTerminator s && truthy s && negb (headIs isQuote s)
  && (needsQuoting s
      || (negb (headIs isSpace s) && negb (lastIs isSpace s)
          && negb (lastIs isQuote s))).

Definition entryOK (kv : str * str) : bool := keyOK (fst kv) && nestedOK (snd kv).

Definition entriesOK (es : JSObject.t str) : bool :=
  forallb entryOK es && nodupb (JSObject.keys es).

(** An item of a list: on one line, not empty, no blank at either end. *)
Definition itemOK (s : str) : bool :=
  noTerminator s && truthy s && negb (headIs isSpace s) && negb (lastIs isSpace s).

(** A field: a scalar; a list that is not empty, whose key is tools if it
    ends in tools; or a map whose key does not end in tools. *)
Definition fieldOK (kv : str * Value) : bool :=
  keyOK (fst kv)
  && match snd kv with
     | VStr s => scalarOK s
     | VArr items =>
         negb (Nat.eqb (length items) 0) && forallb itemOK items
         && (negb (endsWith (lit "tools") (fst kv)) || str_eqb (fst kv) (lit "tools"))
     | VObj es => entriesOK es && negb (endsWith (lit "tools") (fst kv))
     end.

Definition serializable (props : JSObject.t Value) : bool :=
  forallb fieldOK props && nodupb (JSObject.keys props).


(** The fields hold a list of tools. *)
Definition toolsListed (props : JSObject.t Value) : bool :=
  match JSObject.get (lit "tools") props with
  | Some (VArr _) => true
  | _ => false
  end.





(** A line ends with tools: and blanks only; the list of tools that
    [parseAgent] looks for begins after such a line. *)
Fixpoint toolsSuffix (line : str) : bool :=
  (startsWith (lit "tools:") line && forallb isSpace (skipn 6 line))
  || match line with
     | [] => false
     | _ :: line' => toolsSuffix line'
     end.

End Canonical.

(* ------------------------------------------------------------------------- *)
(** ** The sample files of the unit tests *)

Module Samples.
Import JS.






End Samples.

(* ------------------------------------------------------------------------- *)
(** ** Notions of the statements and proofs *)

Section Notions.
Import JS Agents WellFormed Canonical.

(** A [path.join] for the examples: the parts separated by a slash. *)
Definition demo_join (parts : list JS.str) : JS.str := JS.join (JS.lit "/") parts.






(** What a word character is not. *)
Definition plainChar (c : char) : bool :=
  negb (isSpace c) && negb (isLineTerminator c) && negb (isQuote c)
  && negb (N.eqb c 58) && negb (N.eqb c 45) && negb (N.eqb c 91).

(** What every line of a serialized canonical frontmatter satisfies. *)
Definition lineOK (line : str) : Prop :=
  noTerminator line = true
  /\ headIs (fun c => N.eqb c 45) line = false
  /\ line <> [].

(** The line of a list item, as the serializer writes it. *)
Definition itemLine (item : str) : str := lit "  - " ++ [quote] ++ item ++ [quote].

(** Lines, each followed by a line feed. *)
Definition unlines (lines : list str) : str := flat_map (fun l => l ++ nl) lines.

(** A field other than a list of tools. *)
Definition quietField (kv : str * Value) : bool :=
  match snd kv with
  | VArr _ => negb (str_eqb (fst kv) (lit "tools"))
  | _ => true
  end.

(** The state after the fields [pre] have been read. *)
Definition reads (pre : JSObject.t Value) (st : ParseState) : Prop :=
  result (savePrevious st) = mkFrontmatter None pre
  /\ isArray (savePrevious st) = false.












End Notions.

(* ------------------------------------------------------------------------- *)
(** ** core/targets.ts: validating and parsing the targets option *)

Module TargetParsing.
Import JS Targets.

(** The strings SUPPORTED_TARGETS holds. *)
Definition supportedNames : list str := map targetName SUPPORTED_TARGETS.

(** [SUPPORTED_TARGETS.includes(target)] *)
Definition isValidTarget (target : str) : bool :=
  existsb (fun t => str_eqb t target) supportedNames.

(** The error of an invalid part. *)
Definition invalidTarget (part : str) : JSError :=
  Error (lit "Invalid target " ++ [quote] ++ part ++ [quote]
         ++ lit ". Supported targets: " ++ join (lit ", ") supportedNames).

(** The inner loop, [for (const part of parts)]. *)
Fixpoint addParts (parts targets : list str) : outcome (list str) :=
  match parts with
  | [] => Returns targets
  | part :: rest =>
      if negb (isValidTarget part) then Throws (invalidTarget part)
      else
        addParts rest
          (if negb (existsb (fun t => str_eqb t part) targets)
           then targets ++ [part]
           else targets)
  end.

Section Parse.

(** [String.prototype.toLowerCase] *)
Variable toLowerCase : str -> str.

(** Support comma-separated values:
    [t.split(COMMA).map((p) => p.trim().toLowerCase())] *)
Definition partsOf (t : str) : list str :=
  map (fun p => toLowerCase (trim p)) (split 44%N t).

(** The outer loop, [for (const t of input)]. *)
Fixpoint parseFrom (input targets : list str) : outcome (list str) :=
  match input with
  | [] => Returns targets
  | t :: rest =>
      let* targets' := addParts (partsOf t) targets in
      parseFrom rest targets'
  end.

Definition parseTargets (input : list str) : outcome (list str) :=
  let* targets := parseFrom input [] in
  Returns (if Nat.ltb 0 (length targets) then targets else [lit "claude"]).

End Parse.

(** Lower case for the letters A to Z, on which every implementation of
    [toLowerCase] agrees; it serves the concrete examples. *)
Definition asciiLower (s : str) : str :=
  map (fun c => if ((65 <=? c) && (c <=? 90))%N then (c + 32)%N else c) s.

End TargetParsing.

(* ------------------------------------------------------------------------- *)
(** ** plugins/providers/registry.ts: the source provider registry *)

Module ProviderRegistry.
Import JS.

Section Providers.

(** [ResolvedConfig] of config/schema.ts; the registry never looks into it. *)
Variable ResolvedConfig : Type.

Record SourceResolveOptions := mkSourceResolveOptions {
  config : ResolvedConfig;
  tempDir : option str
}.

Record SourceProvider := mkSourceProvider {
  name : str;
  canHandle : str -> bool;
  resolve : str -> SourceResolveOptions -> outcome CoreSource.ResolvedSource
}.

(** The [providers] field of DefaultSourceProviderRegistry. *)
Definition Registry := list SourceProvider.

Definition alreadyRegistered (provider : SourceProvider) : JSError :=
  Error (lit "Provider with name '" ++ name provider ++ lit "' is already registered").

Definition register (provider : SourceProvider) (providers : Registry)
  : outcome Registry :=
  (* Check for duplicate names *)
  match find (fun p => str_eqb (name p) (name provider)) providers with
  | Some _ => Throws (alreadyRegistered provider)
  | None => Returns (providers ++ [provider])
  end.

Definition getProvider (source : str) (providers : Registry) : option SourceProvider :=
  find (fun p => canHandle p source) providers.

(** [[...this.providers]] *)
Definition getProviders (providers : Registry) : list SourceProvider := providers.

(** The built-in providers of providers/local.ts and providers/github.ts. *)
Variable createLocalProvider : SourceProvider.
Variable createGitHubProvider : SourceProvider.

Definition createProviderRegistry : outcome Registry :=
  let registry : Registry := [] in
  (* Local provider should be checked first (for explicit paths) *)
  let* registry := register createLocalProvider registry in
  register createGitHubProvider registry.

End Providers.

(** Two providers for the concrete examples. *)
Definition demo_resolve (source : str) (options : SourceResolveOptions unit)
  : outcome CoreSource.ResolvedSource := Throws GitError.

Definition demo_local : SourceProvider unit :=
  mkSourceProvider (lit "local") (fun s => startsWith (lit "/") s || startsWith (lit ".") s)
                   demo_resolve.

Definition demo_github : SourceProvider unit :=
  mkSourceProvider (lit "github") (fun s => includes (lit "/") s) demo_resolve.

End ProviderRegistry.

(* ------------------------------------------------------------------------- *)
(** ** core/source.ts: resolving a GitHub source *)

Module GithubSource.
Import JS.

Section Resolve.

Variable path_join : list str -> str.
(** [simpleGit()] and [simpleGit(dir)]: the constructor may refuse. *)
Variable simpleGit : option str -> outcome unit.
(** [git.clone(repoUrl, tempDir, args)] *)
Variable git_clone : str -> str -> list str -> outcome unit.
(** [(await git.log({ maxCount: 1 })).latest?.hash] in a directory. *)
Variable git_log : str -> outcome (option str).

(** [options.ref] is [None] when the property is undefined. *)
Definition resolveGithubSource (repository : str) (options_ref : option str)
           (tempDir : str) : outcome CoreSource.ResolvedSource :=
  let ref := match options_ref with Some r => r | None => CoreSource.DEFAULT_REF end in
  let repoUrl := lit "https://github.com/" ++ repository ++ lit ".git" in
  let* _ := simpleGit None in
  let* _ := git_clone repoUrl tempDir [lit "--depth"; lit "1"; lit "--branch"; ref] in
  let* _ := simpleGit (Some tempDir) in
  let* log := git_log tempDir in
  let commitSha := match log with Some hash => hash | None => [] end in
  let source := GithubSource repository commitSha ref in
  Returns (CoreSource.mkResolvedSource source tempDir
             (path_join [tempDir; lit "instructions"; lit "AGENTS.md"])
             (path_join [tempDir; lit "skills"])).

End Resolve.

End GithubSource.

(* ------------------------------------------------------------------------- *)
(** ** Walking up the directories *)

Section Climbing.

(** The directory [k] levels above [dir]. *)
Fixpoint climb (path_dirname : JS.str -> JS.str) (k : nat) (dir : JS.str) : JS.str :=
  match k with
  | O => dir
  | S k' => climb path_dirname k' (path_dirname dir)
  end.

(** A [path.dirname] for the examples, on paths separated by slashes. *)
Definition demo_dirname (p : JS.str) : JS.str :=
  match JS.join (JS.lit "/") (removelast (JS.split 47%N p)) with
  | [] => JS.lit "/"
  | d => d
  end.

(** A file system for the examples: a canonical repository at
    /work/agent-conf and nothing else. *)
Definition demo_access (p : JS.str) : bool :=
  JS.startsWith (JS.lit "/work/agent-conf/") p.

Definition demo_isDirectory (p : JS.str) : bool :=
  JS.str_eqb p (JS.lit "/work/agent-conf").

(** The error of [findCanonicalRepo]. *)
Definition notFound : JSError :=
  Error (JS.lit
    "Could not find canonical repository. Please specify --local <path> or run from within the canonical repo.").

End Climbing.

(* ------------------------------------------------------------------------- *)
(** ** core/lockfile.ts: writing the lockfile *)

Module LockfileStore.
Import JS CoreLockfile.

Record WriteLockfileOptions := mkWriteLockfileOptions {
  o_source : Source;
  globalBlockContent : str;
  o_skills : list str;
  o_targets : option (list str);
  pinnedVersion : option str;
  markerPrefix : option str
}.

Section Write.

Variable path_join : list str -> str.
Variable path_dirname : str -> str.
(** The state of the file system, changed by [fs.mkdir] (recursive) and
    [fs.writeFile], which may fail. *)
Variable Files : Type.
Variable fs_mkdir : Files -> str -> outcome Files.
Variable fs_writeFile : Files -> str -> str -> outcome Files.
(** [new Date().toISOString()] *)
Variable now : str.
(** [JSON.stringify(lockfile, null, 2)] *)
Variable JSON_stringify : Lockfile -> str.
Variable BUILD_VERSION : option str.

Definition writeLockfile (files : Files) (targetDir : str)
           (options : WriteLockfileOptions) : outcome (Lockfile * Files) :=
  let lockfilePath := getLockfilePath path_join targetDir in
  let lockfile :=
    mkLockfile (lit "1") (pinnedVersion options) now (o_source options)
      (mkLockfileContent
         (mkAgentsMdEntry (hashContent (globalBlockContent options)) true)
         (o_skills options)
         (match o_targets options with Some t => t | None => [lit "claude"] end)
         (markerPrefix options))
      (Some (getCliVersion BUILD_VERSION)) in
  let* files := fs_mkdir files (path_dirname lockfilePath) in
  let* files := fs_writeFile files lockfilePath (JSON_stringify lockfile ++ nl) in
  Returns (lockfile, files).

End Write.

(** A file system for the examples: the files as a list of paths with
    their content, the last write first. *)
Definition demo_files := list (str * str).

Definition demo_mkdir (files : demo_files) (dir : str) : outcome demo_files :=
  Returns files.

Definition demo_writeFile (files : demo_files) (p c : str) : outcome demo_files :=
  Returns ((p, c) :: files).

Definition demo_readFile (files : demo_files) (p : str) : outcome str :=
  match find (fun f => str_eqb (fst f) p) files with
  | Some f => Returns (snd f)
  | None => Throws (ErrnoException (lit "ENOENT"))
  end.

Definition demo_options : WriteLockfileOptions :=
  mkWriteLockfileOptions (LocalSource (lit "/work/agent-conf") None)
    (lit "Global v1") [lit "review"] None None None.

(** A codec for the examples: the text of a lockfile is its cli_version,
    and reading a text gives a lockfile of that version. *)
Definition demo_lockfile (v : str) : Lockfile :=
  mkLockfile (lit "1") None (lit "2026-01-01T00:00:00.000Z")
    (o_source demo_options)
    (mkLockfileContent
       (mkAgentsMdEntry (hashContent (globalBlockContent demo_options)) true)
       (o_skills demo_options) [lit "claude"] None)
    (Some v).

Definition demo_stringify (lockfile : Lockfile) : str :=
  match cli_version lockfile with Some v => v | None => [] end.

Definition demo_parse (text : str) : option str :=
  Some (match split 10%N text with v :: _ => v | [] => [] end).

Definition demo_schema (j : str) : option Lockfile := Some (demo_lockfile j).

(** [Number] on the decimal numerals the examples use. *)
Definition demo_digit (c : char) : option Z :=
  if isDigit c then Some (Z.of_N c - 48)%Z else None.

Fixpoint demo_numeral (acc : Z) (s : str) : option Z :=
  match s with
  | [] => Some acc
  | c :: s' =>
      match demo_digit c with
      | Some d => demo_numeral (10 * acc + d)%Z s'
      | None => None
      end
  end.

Definition demo_Number (s : str) : JSNum.number :=
  match demo_numeral 0%Z s with
  | Some z => JSNum.Fin (inject_Z z)
  | None => JSNum.NaN
  end.

End LockfileStore.

(* ------------------------------------------------------------------------- *)
(** ** An agent for the examples *)

Section AgentExamples.
Import JS Agents.




End AgentExamples.

(* ------------------------------------------------------------------------- *)
(** ** utils/git.ts *)

Module GitUtils.
Import JS.

Record GitInfo := mkGitInfo {
  gi_isGitRepo : bool;
  branch : option str;
  commitSha : option str;
  isDirty : option bool
}.

(** A remote as [git.getRemotes(true)] lists it. *)
Record RemoteWithRefs := mkRemoteWithRefs {
  remote_name : str;
  refs_fetch : option str;
  refs_push : option str
}.

(** The group of [/github\.com\/([^/]+)\//] (the separator a slash) or of
    [/github\.com:([^/]+)\//] (a colon) for a match that starts at the
    head of [s]: the longest run without a slash, which has to be
    followed by one. *)
Definition orgHere (sep : char) (s : str) : option str :=
  if startsWith (lit "github.com" ++ [sep]) s then
    let (org, rest) := span (fun c => negb (N.eqb c 47)) (skipn 11 s) in
    match org, rest with
    | _ :: _, 47%N :: _ => Some org
    | _, _ => None
    end
  else None.

(** [url.match(re)?.[1]]: the leftmost match. *)
Fixpoint orgMatch (sep : char) (s : str) : option str :=
  match orgHere sep s with
  | Some org => Some org
  | None =>
      match s with
      | [] => None
      | _ :: s' => orgMatch sep s'
      end
  end.

(** [promise.catch(() => undefined)] *)
Definition settled {A} (x : outcome A) : option A :=
  match x with
  | Returns a => Some a
  | Throws _ => None
  end.

Section Git.

(** [(await fs.stat(dir)).isDirectory()] *)
Variable fs_stat : str -> outcome bool.
Variable fs_realpath : str -> outcome str.
Variable path_basename : str -> str.
Variable path_resolve : str -> str.
(** [simpleGit(dir)] and the calls on the instance it returns. *)
Variable simpleGit : str -> outcome unit.
Variable git_checkIsRepo : str -> outcome bool.
Variable git_branch : str -> outcome str.               (* .current *)
Variable git_log : str -> outcome (option str).         (* .latest?.hash *)
Variable git_status : str -> outcome bool.              (* .isClean() *)
Variable git_revparse : str -> list str -> outcome str.
Variable git_getConfig : str -> str -> outcome (option str).   (* .value *)
Variable git_getRemotes : str -> outcome (list RemoteWithRefs).

Definition directoryExistsForGit (dir : str) : outcome bool :=
  tryCatch (fs_stat dir) (fun _ => Returns false).

Definition notARepo : GitInfo := mkGitInfo false None None None.

Definition getGitInfo (dir : str) : outcome GitInfo :=
  let* git := simpleGit dir in
  tryCatch
    (let* isRepo := git_checkIsRepo dir in
     if negb isRepo then Returns notARepo
     else
       let branch := settled (git_branch dir) in
       let log := match git_log dir with Returns hash => hash | Throws _ => None end in
       let status := settled (let* clean := git_status dir in Returns (negb clean)) in
       Returns (mkGitInfo true branch log status))
    (fun _ => Returns notARepo).

Definition isGitRepo (dir : str) : outcome bool :=
  let* git := simpleGit dir in
  tryCatch (git_checkIsRepo dir) (fun _ => Returns false).

Definition getGitRoot (dir : str) : outcome (option str) :=
  let* exists_ := directoryExistsForGit dir in
  if negb exists_ then Returns None
  else
    tryCatch
      (let* git := simpleGit dir in
       let* isRepo := git_checkIsRepo dir in
       if negb isRepo then Returns None
       else
         (* Get the root directory of the git repository *)
         let* root := git_revparse dir [lit "--show-toplevel"] in
         Returns (Some (trim root)))
      (fun _ => Returns None).

Definition getGitProjectName (dir : str) : outcome (option str) :=
  let* gitRoot := getGitRoot dir in
  if negb (truthyOpt gitRoot) then Returns None
  else Returns (Some (path_basename (match gitRoot with Some r => r | None => [] end))).

Definition isGitRoot (dir : str) : outcome bool :=
  let* exists_ := directoryExistsForGit dir in
  if negb exists_ then Returns false
  else
    let* gitRoot := getGitRoot dir in
    if negb (truthyOpt gitRoot) then Returns false
    else
      let gitRoot := match gitRoot with Some r => r | None => [] end in
      tryCatch
        (let* realDir := fs_realpath dir in
         let* realGitRoot := fs_realpath gitRoot in
         Returns (str_eqb realDir realGitRoot))
        (fun _ =>
           (* Fallback to simple comparison if realpath fails *)
           Returns (str_eqb (path_resolve dir) (path_resolve gitRoot))).

Definition getGitConfig (dir key : str) : outcome (option str) :=
  let* exists_ := directoryExistsForGit dir in
  if negb exists_ then Returns None
  else
    tryCatch
      (let* git := simpleGit dir in
       let* isRepo := git_checkIsRepo dir in
       if negb isRepo then Returns None
       else
         let* value := git_getConfig dir key in
         Returns value)
      (fun _ => Returns None).

(** The organization of a remote URL: the https form first. *)
Definition orgOfUrl (url : str) : option str :=
  let httpsMatch := orgMatch 47%N url in
  let sshMatch := orgMatch 58%N url in
  match httpsMatch with
  | Some org => Some org
  | None => sshMatch
  end.

Definition getGitOrganization (dir : str) : outcome (option str) :=
  let* exists_ := directoryExistsForGit dir in
  if negb exists_ then Returns None
  else
    tryCatch
      (let* git := simpleGit dir in
       let* isRepo := git_checkIsRepo dir in
       if negb isRepo then Returns None
       else
         (* Try to extract organization from remote origin URL *)
         let* remotes := git_getRemotes dir in
         let origin := find (fun r => str_eqb (remote_name r) (lit "origin")) remotes in
         let fromOrigin :=
           match origin with
           | Some r =>
               if truthyOpt (refs_fetch r) then
                 let url := match refs_fetch r with Some u => u | None => [] end in
                 let org := orgOfUrl url in
                 if truthyOpt org then org else None
               else None
           | None => None
           end in
         match fromOrigin with
         | Some org => Returns (Some org)
         | None =>
             (* Fallback to user.name from git config *)
             let* userName := git_getConfig dir (lit "user.name") in
             Returns userName
         end)
      (fun _ => Returns None).

End Git.

End GitUtils.


(* ========================================================================= *)
(** * Properties *)

(* ------------------------------------------------------------------------- *)
(** ** Strings *)

Section StringFacts.
Import JS.

Lemma str_eqb_eq (a b : str) : str_eqb a b = true <-> a = b.
Proof.
  unfold str_eqb. destruct (list_eq_dec N.eq_dec a b); split; congruence.
Qed.

Lemma str_eqb_refl (a : str) : str_eqb a a = true.
Proof. now apply str_eqb_eq. Qed.

Lemma str_eqb_neq (a b : str) : str_eqb a b = false <-> a <> b.
Proof.
  unfold str_eqb. destruct (list_eq_dec N.eq_dec a b); split; congruence.
Qed.


Lemma startsWith_app (p s : str) : startsWith p (p ++ s) = true.
Proof.
  induction p as [|a p IH]; simpl; [reflexivity|].
  now rewrite N.eqb_refl, IH.
Qed.

Lemma startsWith_split (p s : str) :
  startsWith p s = true -> s = p ++ skipn (length p) s.
Proof.
  revert s. induction p as [|a p IH]; intros s H; simpl in *; [reflexivity|].
  destruct s as [|b s]; [discriminate|].
  apply andb_true_iff in H. destruct H as [Hab H].
  apply N.eqb_eq in Hab. subst b. simpl. f_equal. now apply IH.
Qed.

End StringFacts.

(* ------------------------------------------------------------------------- *)
(** ** The shape of a digest *)

Section DigestFacts.
Import JS.
Local Open Scope N_scope.

Lemma hexDigit_hex (d : N) : d < 16 -> isHexDigit (Sha256.hexDigit d) = true.
Proof.
  intros H. unfold Sha256.hexDigit, isHexDigit, isDigit.
  destruct (d <? 10) eqn:E.
  - apply N.ltb_lt in E.
    replace (48 <=? 48 + d) with true by (symmetry; apply N.leb_le; lia).
    replace (48 + d <=? 57) with true by (symmetry; apply N.leb_le; lia).
    reflexivity.
  - apply N.ltb_ge in E.
    replace (97 <=? 87 + d) with true by (symmetry; apply N.leb_le; lia).
    replace (87 + d <=? 102) with true by (symmetry; apply N.leb_le; lia).
    apply orb_true_r.
Qed.

Lemma hex8_length (w : N) : length (Sha256.hex8 w) = 8%nat.
Proof. reflexivity. Qed.

Lemma hex8_hex (w : N) : forallb isHexDigit (Sha256.hex8 w) = true.
Proof.
  unfold Sha256.hex8. rewrite forallb_forall. intros c Hc.
  apply in_map_iff in Hc. destruct Hc as [i [<- _]].
  apply hexDigit_hex. apply N.mod_lt. discriminate.
Qed.

Lemma sha256hex_length (content : str) : length (Sha256.sha256hex content) = 64%nat.
Proof.
  unfold Sha256.sha256hex, Sha256.hex.
  repeat rewrite length_app. repeat rewrite hex8_length. reflexivity.
Qed.

Lemma sha256hex_hex (content : str) : forallb isHexDigit (Sha256.sha256hex content) = true.
Proof.
  unfold Sha256.sha256hex, Sha256.hex.
  repeat rewrite forallb_app. repeat rewrite hex8_hex. reflexivity.
Qed.

Lemma digest12 (content : str) :
  length (slice0 12 (Sha256.sha256hex content)) = 12%nat
  /\ forallb isHexDigit (slice0 12 (Sha256.sha256hex content)) = true.
Proof.
  unfold slice0. split.
  - rewrite length_firstn, sha256hex_length. reflexivity.
  - pose proof (sha256hex_hex content) as H.
    rewrite <- (firstn_skipn 12 (Sha256.sha256hex content)) in H.
    rewrite forallb_app in H. apply andb_true_iff in H. tauto.
Qed.

End DigestFacts.

(** Two test vectors of FIPS 180-4. *)
Example sha256_abc :
  Sha256.sha256hex (JS.lit "abc") =
  JS.lit "ba7816bf8f01cfea414140de5dae2223b00361a396177a9cb410ff61f20015ad".
Proof. vm_compute. reflexivity. Qed.

Example sha256_empty :
  Sha256.sha256hex [] =
  JS.lit "e3b0c44298fc1c149afbf4c8996fb92427ae41e4649b934ca495991b7852b855".
Proof. vm_compute. reflexivity. Qed.

(** C2: for every input string, the content hash, [hashContent] of the
    lockfile store as well as [computeContentHash] of the codec, is the
    string sha256: followed by exactly the first 12 hexadecimal characters
    of the SHA-256 digest, taken over the content itself by [hashContent]
    and over the metadata-stripped content by [computeContentHash]. *)
Theorem content_hash_format (content : JS.str) :
  (CoreLockfile.hashContent content
     = JS.lit "sha256:" ++ firstn 12 (Sha256.sha256hex content)
   /\ length (firstn 12 (Sha256.sha256hex content)) = 12%nat
   /\ forallb JS.isHexDigit (firstn 12 (Sha256.sha256hex content)) = true
   /\ length (CoreLockfile.hashContent content) = 19%nat)
  /\ forall JSON_parse metadataPrefix,
       let stripped :=
         SkillMetadata.stripManagedMetadata JSON_parse content metadataPrefix in
       SkillMetadata.computeContentHash JSON_parse content metadataPrefix
         = JS.lit "sha256:" ++ firstn 12 (Sha256.sha256hex stripped)
       /\ length (firstn 12 (Sha256.sha256hex stripped)) = 12%nat
       /\ forallb JS.isHexDigit (firstn 12 (Sha256.sha256hex stripped)) = true.
Proof.
  split.
  - destruct (digest12 content) as [Hl Hh]. unfold JS.slice0 in *.
    split; [reflexivity|]. split; [exact Hl|]. split; [exact Hh|].
    unfold CoreLockfile.hashContent, JS.slice0.
    rewrite length_app, Hl. reflexivity.
  - intros J p stripped. destruct (digest12 stripped) as [Hl Hh].
    unfold JS.slice0 in *. repeat split; auto.
Qed.

(* ------------------------------------------------------------------------- *)
(** ** Source strings *)

(** C10: the two implementations of [formatSourceString] (core/source.ts
    and plugins/providers/types.ts) return the same string for every
    source: github:<repository>@<first 7 sha characters> for a github
    source, local:<path>@<first 7 sha characters> for a local source with
    a (non-empty) sha, and local:<path> otherwise. *)
Theorem formatSourceString_agree (source : Source) :
  CoreSource.formatSourceString source = ProviderTypes.formatSourceString source
  /\ CoreSource.formatSourceString source =
     match source with
     | GithubSource repository commit_sha _ =>
         JS.lit "github:" ++ repository ++ JS.lit "@" ++ firstn 7 commit_sha
     | LocalSource path (Some (c :: sha)) =>
         JS.lit "local:" ++ path ++ JS.lit "@" ++ firstn 7 (c :: sha)
     | LocalSource path _ => JS.lit "local:" ++ path
     end.
Proof.
  split; [reflexivity|].
  destruct source as [repo sha ref | path [[|c sha]|]]; reflexivity.
Qed.

(* ------------------------------------------------------------------------- *)
(** ** Targets *)

(** C9: there are two built-in targets. The configuration of claude names
    an adapter instructions file, CLAUDE.md, whose content is the inclusion
    directive @../AGENTS.md; the configuration of codex names no adapter
    file (instructionsFile is null). Both the static table of
    core/targets.ts and the target plugins say so. *)
Theorem builtin_targets :
  Targets.SUPPORTED_TARGETS = [Targets.claude; Targets.codex]
  /\ Targets.claude <> Targets.codex
  /\ Targets.instructionsFile (Targets.getTargetConfig Targets.claude)
     = Some (JS.lit "CLAUDE.md")
  /\ Targets.instructionsFile (Targets.getTargetConfig Targets.codex) = None
  /\ TargetPlugins.name TargetPlugins.claudeTarget = JS.lit "claude"
  /\ TargetPlugins.instructionsFile (TargetPlugins.config TargetPlugins.claudeTarget)
     = Some (JS.lit "CLAUDE.md")
  /\ TargetPlugins.instructionsContent (TargetPlugins.config TargetPlugins.claudeTarget)
     = Some (JS.lit "@../AGENTS.md")
  /\ TargetPlugins.name TargetPlugins.codexTarget = JS.lit "codex"
  /\ TargetPlugins.instructionsFile (TargetPlugins.config TargetPlugins.codexTarget)
     = None
  /\ TargetPlugins.instructionsContent (TargetPlugins.config TargetPlugins.codexTarget)
     = None.
Proof. repeat split; try reflexivity. discriminate. Qed.

(* ------------------------------------------------------------------------- *)
(** ** The lockfile store *)

Section NumberFacts.
Import JSNum.

Lemma orZero_not_NaN (x : option number) : orZero x <> NaN.
Proof.
  destruct x as [[| |q|]|]; simpl; try discriminate.
  destruct (negb (Qeq_bool q 0)); discriminate.
Qed.

Lemma gt_same_false (a b : number) : gt b a = true -> same a b = false.
Proof.
  destruct a, b; simpl; try reflexivity; try discriminate.
  intros H. apply negb_true_iff in H.
  destruct (Qeq_bool q q0) eqn:E; [|reflexivity].
  apply Qeq_bool_iff in E.
  assert (Qle_bool q0 q = true) as H'.
  { apply Qle_bool_iff. rewrite E. apply Qle_refl. }
  congruence.
Qed.

Lemma gt_same_false' (a b : number) : gt a b = true -> same a b = false.
Proof.
  destruct a, b; simpl; try reflexivity; try discriminate.
  intros H. apply negb_true_iff in H.
  destruct (Qeq_bool q q0) eqn:E; [|reflexivity].
  apply Qeq_bool_iff in E.
  assert (Qle_bool q q0 = true) as H'.
  { apply Qle_bool_iff. rewrite E. apply Qle_refl. }
  congruence.
Qed.

Lemma neither_gt_same (a b : number) :
  a <> NaN -> b <> NaN -> gt a b = false -> gt b a = false -> same a b = true.
Proof.
  destruct a, b; simpl; try congruence.
  intros _ _ H1 H2. apply negb_false_iff in H1, H2.
  apply Qle_bool_iff in H1, H2. apply Qeq_bool_iff. now apply Qle_antisym.
Qed.

End NumberFacts.

(** Case analyses over results end in goals that follow from the
    equations in the context. *)
Ltac break_hyps :=
  repeat match goal with
         | H : exists _, _ |- _ => destruct H
         | H : _ /\ _ |- _ => destruct H
         | H : Returns _ = Returns _ |- _ => inversion H; clear H; subst
         | H : Throws _ = Throws _ |- _ => inversion H; clear H; subst
         | H : Some _ = Some _ |- _ => inversion H; clear H; subst
         end.

Ltac by_cases :=
  repeat match goal with
         | |- _ /\ _ => split
         | |- _ <-> _ => split
         | |- forall _, _ => intro
         end;
  break_hyps; subst;
  try congruence;
  try (repeat eexists; (eassumption || reflexivity || congruence)).

Section LockfileFacts.
Import JS CoreLockfile.

Variable path_join : list str -> str.
Variable fs_readFile : str -> outcome str.
Variable Json : Type.
Variable JSON_parse : str -> option Json.
Variable LockfileSchema_parse : Json -> option Lockfile.
Variable BUILD_VERSION : option str.
Variable Number : str -> JSNum.number.

(** The three iterations of the loop decide the triplet order. *)
Lemma compareFrom_newer (current lockfile_ : list JSNum.number) (m : VersionMismatch) :
  compareFrom 3 0 current lockfile_ m =
  if VersionSpec.newer
       (VersionSpec.component lockfile_ 0, VersionSpec.component lockfile_ 1,
        VersionSpec.component lockfile_ 2)
       (VersionSpec.component current 0, VersionSpec.component current 1,
        VersionSpec.component current 2)
  then Some m else None.
Proof.
  unfold VersionSpec.newer, VersionSpec.component. cbn [compareFrom].
  pose proof (orZero_not_NaN (nth_error lockfile_ 0)) as L0.
  pose proof (orZero_not_NaN (nth_error lockfile_ 1)) as L1.
  pose proof (orZero_not_NaN (nth_error current 0)) as C0.
  pose proof (orZero_not_NaN (nth_error current 1)) as C1.
  revert L0 L1 C0 C1.
  generalize (JSNum.orZero (nth_error lockfile_ 0)) as l0.
  generalize (JSNum.orZero (nth_error lockfile_ 1)) as l1.
  generalize (JSNum.orZero (nth_error lockfile_ 2)) as l2.
  generalize (JSNum.orZero (nth_error current 0)) as c0.
  generalize (JSNum.orZero (nth_error current 1)) as c1.
  generalize (JSNum.orZero (nth_error current 2)) as c2.
  intros c2 c1 c0 l2 l1 l0 L0 L1 C0 C1.
  destruct (JSNum.gt l0 c0) eqn:G0; cbn [orb andb]; [reflexivity|].
  destruct (JSNum.gt c0 l0) eqn:G0'.
  { rewrite (gt_same_false _ _ G0'). reflexivity. }
  rewrite (neither_gt_same L0 C0 G0 G0'). cbn [orb andb].
  destruct (JSNum.gt l1 c1) eqn:G1; cbn [orb andb]; [reflexivity|].
  destruct (JSNum.gt c1 l1) eqn:G1'.
  { rewrite (gt_same_false _ _ G1'). reflexivity. }
  rewrite (neither_gt_same L1 C1 G1 G1'). cbn [orb andb].
  destruct (JSNum.gt l2 c2) eqn:G2; cbn [orb andb]; [reflexivity|].
  destruct (JSNum.gt c2 l2); reflexivity.
Qed.

Lemma compareFrom_triplet (cur lv : str) (m : VersionMismatch) :
  compareFrom 3 0 (map Number (split 46%N cur)) (map Number (split 46%N lv)) m =
  if VersionSpec.newer (VersionSpec.triplet Number lv) (VersionSpec.triplet Number cur)
  then Some m else None.
Proof. apply compareFrom_newer. Qed.

Lemma truthy_nonempty (v : str) : truthy v = true <-> v <> [].
Proof. destruct v; simpl; split; congruence. Qed.

End LockfileFacts.

(** C7: [readLockfile] returns null exactly when reading the lockfile
    fails with ENOENT (the file is absent); every other failure is
    propagated: another read error, JSON that does not parse, content the
    schema rejects; and a lockfile it returns is what the schema made of
    the parsed content. *)
Theorem readLockfile_spec
  (path_join : list JS.str -> JS.str) (fs_readFile : JS.str -> outcome JS.str)
  (Json : Type) (JSON_parse : JS.str -> option Json)
  (LockfileSchema_parse : Json -> option Lockfile) (targetDir : JS.str) :
  let lockfilePath := CoreLockfile.getLockfilePath path_join targetDir in
  let r := CoreLockfile.readLockfile path_join fs_readFile JSON_parse
             LockfileSchema_parse targetDir in
  (r = Returns None <->
     exists e, fs_readFile lockfilePath = Throws e
               /\ errorCode e = Some (JS.lit "ENOENT"))
  /\ (forall e, fs_readFile lockfilePath = Throws e ->
                errorCode e <> Some (JS.lit "ENOENT") -> r = Throws e)
  /\ (forall c, fs_readFile lockfilePath = Returns c ->
                JSON_parse c = None -> r = Throws SyntaxError)
  /\ (forall c j, fs_readFile lockfilePath = Returns c ->
                  JSON_parse c = Some j -> LockfileSchema_parse j = None ->
                  r = Throws ZodError)
  /\ (forall lockfile,
        r = Returns (Some lockfile) <->
        exists c j, fs_readFile lockfilePath = Returns c
                    /\ JSON_parse c = Some j
                    /\ LockfileSchema_parse j = Some lockfile).
Proof.
  intros lockfilePath r. subst r. unfold CoreLockfile.readLockfile.
  fold lockfilePath.
  destruct (fs_readFile lockfilePath) as [c|e] eqn:Hread; simpl.
  - destruct (JSON_parse c) as [j|] eqn:Hjson; simpl;
      [destruct (LockfileSchema_parse j) as [lf|] eqn:Hschema; simpl|];
      by_cases.
  - destruct (errorCode e) as [code|] eqn:Hcode;
      [destruct (JS.str_eqb code (JS.lit "ENOENT")) eqn:Hc;
       [apply str_eqb_eq in Hc; subst code | apply str_eqb_neq in Hc]|];
      by_cases.
Qed.

(** C6: [checkCliVersionMismatch] returns a mismatch if and only if a
    lockfile exists, both version strings are non-empty and the
    cli_version of the lockfile is strictly greater than the version of
    the running tool, compared as (major, minor, patch) triplets with a
    missing component treated as 0. It returns null when no lockfile
    exists and when the lockfile version is not greater (equal, or the
    running tool is newer); an error of [readLockfile] is propagated. *)
Theorem checkCliVersionMismatch_spec
  (path_join : list JS.str -> JS.str) (fs_readFile : JS.str -> outcome JS.str)
  (Json : Type) (JSON_parse : JS.str -> option Json)
  (LockfileSchema_parse : Json -> option Lockfile)
  (BUILD_VERSION : option JS.str) (Number : JS.str -> JSNum.number)
  (targetDir : JS.str) :
  let read := CoreLockfile.readLockfile path_join fs_readFile JSON_parse
                LockfileSchema_parse targetDir in
  let check := CoreLockfile.checkCliVersionMismatch path_join fs_readFile JSON_parse
                 LockfileSchema_parse BUILD_VERSION Number targetDir in
  let current := CoreLockfile.getCliVersion BUILD_VERSION in
  (forall m,
      check = Returns (Some m) <->
      exists lockfile lv,
        read = Returns (Some lockfile)
        /\ cli_version lockfile = Some lv /\ lv <> [] /\ current <> []
        /\ VersionSpec.newer (VersionSpec.triplet Number lv)
                             (VersionSpec.triplet Number current) = true
        /\ m = CoreLockfile.mkVersionMismatch current lv)
  /\ (read = Returns None -> check = Returns None)
  /\ (forall lockfile lv,
        read = Returns (Some lockfile) -> cli_version lockfile = Some lv ->
        VersionSpec.newer (VersionSpec.triplet Number lv)
                          (VersionSpec.triplet Number current) = false ->
        check = Returns None)
  /\ (forall e, read = Throws e -> check = Throws e).
Proof.
  intros read check current. subst check.
  unfold CoreLockfile.checkCliVersionMismatch. fold read. fold current.
  destruct read as [[lf|]|e] eqn:Hread; cbn [bind]; [|by_cases|by_cases].
  rewrite compareFrom_triplet.
  destruct (cli_version lf) as [lv|] eqn:Hlv; cbn [truthyOpt].
  - destruct (JS.truthy current) eqn:Hc; cbn [negb orb].
    + destruct (JS.truthy lv) eqn:Hl; cbn [negb orb].
      * apply truthy_nonempty in Hc, Hl.
        destruct (VersionSpec.newer _ _) eqn:Hn; by_cases.
      * destruct lv; [|discriminate]. by_cases.
    + destruct current; [|discriminate]. by_cases.
  - destruct (JS.truthy current); cbn [negb orb]; by_cases.
Qed.

(* ------------------------------------------------------------------------- *)
(** ** Local source resolution *)

(** C8: for every explicit local path, [resolveLocalSource] fails with
    the invalid-canonical-repository error when instructions/AGENTS.md or
    the skills directory is missing, and succeeds otherwise; a git log
    that fails is not fatal and only leaves commit_sha unset. The file
    system is assumed coherent: the directory of an accessible file
    exists. *)
Theorem resolveLocalSource_explicit
  (path_resolve : JS.str -> JS.str) (path_join : list JS.str -> JS.str)
  (path_dirname path_root : JS.str -> JS.str) (cwd : JS.str)
  (fs_access fs_isDirectory : JS.str -> bool)
  (git_log : JS.str -> outcome (option JS.str))
  (fuel : nat) (p : JS.str) :
  p <> [] ->
  (forall base,
      fs_access (path_join [base; JS.lit "instructions"; JS.lit "AGENTS.md"]) = true ->
      fs_isDirectory base = true) ->
  let basePath := path_resolve p in
  let agentsMd := path_join [basePath; JS.lit "instructions"; JS.lit "AGENTS.md"] in
  let skillsDir := path_join [basePath; JS.lit "skills"] in
  let r := CoreSource.resolveLocalSource path_resolve path_join path_dirname path_root
             cwd fs_access fs_isDirectory git_log fuel (Some p) in
  (fs_access agentsMd = false \/ fs_access skillsDir = false ->
   exists message,
     r = Some (Throws (Error message))
     /\ JS.startsWith (JS.lit "Invalid canonical repository: missing ") message = true)
  /\ (fs_access agentsMd = true -> fs_access skillsDir = true ->
      r = Some (Returns
                  (CoreSource.mkResolvedSource
                     (LocalSource basePath
                        (match git_log basePath with
                         | Returns hash => hash
                         | Throws _ => None
                         end))
                     basePath agentsMd skillsDir))).
Proof.
  intros Hp Hfs basePath agentsMd skillsDir r. subst r.
  unfold CoreSource.resolveLocalSource.
  destruct p as [|c p]; [congruence|]. cbn [truthyOpt JS.truthy].
  fold basePath. cbn [bind].
  unfold CoreSource.validateCanonicalRepo. fold agentsMd. fold skillsDir.
  split.
  - intros [H|H].
    + rewrite H. cbn [negb bind]. eexists. split; reflexivity.
    + rewrite H. destruct (fs_access agentsMd); cbn [negb bind];
        eexists; split; reflexivity.
  - intros H1 H2. rewrite H1, H2. cbn [negb bind].
    unfold CoreSource.simpleGit. rewrite (Hfs basePath H1). reflexivity.
Qed.

Lemma resolveLocalSource_explicit_witness :
  let r := CoreSource.resolveLocalSource (fun p => p) demo_join (fun p => p)
             (fun _ => JS.lit "/") (JS.lit "/work") (fun _ => true) (fun _ => true)
             (fun _ => Throws GitError) 0 (Some (JS.lit "/canonical")) in
  r = Some (Returns
              (CoreSource.mkResolvedSource
                 (LocalSource (JS.lit "/canonical") None) (JS.lit "/canonical")
                 (JS.lit "/canonical/instructions/AGENTS.md")
                 (JS.lit "/canonical/skills"))).
Proof.
  intros r.
  exact (proj2 (@resolveLocalSource_explicit (fun p => p) demo_join (fun p => p)
                  (fun _ => JS.lit "/") (JS.lit "/work") (fun _ => true) (fun _ => true)
                  (fun _ => Throws GitError) 0 (JS.lit "/canonical")
                  ltac:(discriminate) (fun _ _ => eq_refl))
               eq_refl eq_refl).
Defined.

(* ------------------------------------------------------------------------- *)
(** ** The marker merge *)

Section MarkerFacts.
Import JS Markers.











Variable prefix : str.






End MarkerFacts.



(* ------------------------------------------------------------------------- *)
(** ** Property lists *)

Section ObjectFacts.
Import JS JSObject.

Variable V : Type.
Implicit Types (o : t V) (k : str) (v : V).

Lemma mem_In k o : mem k o = true <-> In k (keys o).
Proof.
  induction o as [|[k' v'] o IH]; simpl; [split; [discriminate|tauto]|].
  rewrite orb_true_iff, IH, str_eqb_eq. split; intros [H|H]; auto.
Qed.

Lemma mem_false_In k o : mem k o = false <-> ~ In k (keys o).
Proof.
  rewrite <- mem_In. destruct (mem k o); split; congruence.
Qed.

Lemma get_None_mem k o : get k o = None <-> mem k o = false.
Proof.
  induction o as [|[k' v'] o IH]; simpl; [tauto|].
  destruct (str_eqb k k'); simpl; [split; discriminate|exact IH].
Qed.




Lemma keys_replace k v o : keys (replace k v o) = keys o.
Proof.
  induction o as [|[k1 v1] o IH]; simpl; [reflexivity|].
  destruct (str_eqb k k1) eqn:E; simpl.
  - apply str_eqb_eq in E. now subst.
  - f_equal. exact IH.
Qed.

Lemma get_app k o o' :
  get k (o ++ o') = match get k o with Some v => Some v | None => get k o' end.
Proof.
  induction o as [|[k1 v1] o IH]; simpl; [reflexivity|].
  destruct (str_eqb k k1); auto.
Qed.



Lemma keys_insertIndex i k v o k' :
  In k' (keys (insertIndex i k v o)) <-> k' = k \/ In k' (keys o).
Proof.
  induction o as [|[k1 v1] o IH]; simpl.
  - intuition.
  - destruct (arrayIndex k1) as [j|]; [destruct (i <? j)%N|]; simpl;
      rewrite ?IH; intuition.
Qed.

Lemma NoDup_insertIndex i k v o :
  ~ In k (keys o) -> NoDup (keys o) -> NoDup (keys (insertIndex i k v o)).
Proof.
  induction o as [|[k1 v1] o IH]; simpl; intros Hn Hd.
  - constructor; [tauto|constructor].
  - destruct (arrayIndex k1) as [j|]; [destruct (i <? j)%N|]; simpl;
      try (constructor; [simpl; tauto|exact Hd]).
    inversion Hd; subst. constructor.
    + rewrite keys_insertIndex. intros [->|H]; tauto.
    + apply IH; auto.
Qed.




Lemma NoDup_set k v o : NoDup (keys o) -> NoDup (keys (set k v o)).
Proof.
  intros Hd. unfold set, create. destruct (mem k o) eqn:E.
  - now rewrite keys_replace.
  - apply mem_false_In in E. destruct (arrayIndex k).
    + now apply NoDup_insertIndex.
    + unfold keys in *. rewrite map_app. simpl.
      apply NoDup_app; [exact Hd|constructor; [tauto|constructor]|].
      intros x Hx [<-|[]]. tauto.
Qed.

(** A fresh key that is not an array index goes to the end. *)
Lemma set_fresh k v o :
  ~ In k (keys o) -> arrayIndex k = None -> set k v o = o ++ [(k, v)].
Proof.
  intros Hn Hi. apply mem_false_In in Hn. unfold set, create.
  now rewrite Hn, Hi.
Qed.


Lemma NoDup_assignAll (src dst : t V) :
  NoDup (keys dst) -> NoDup (keys (assignAll src dst)).
Proof.
  unfold assignAll. revert dst.
  induction src as [|[k1 v1] src IH]; intros dst Hd; simpl; [exact Hd|].
  apply IH. now apply NoDup_set.
Qed.

(** Where a property stands. *)
Lemma get_split k v o :
  get k o = Some v -> exists pre post, o = pre ++ (k, v) :: post /\ ~ In k (keys pre).
Proof.
  induction o as [|[k1 v1] o IH]; simpl; [discriminate|].
  destruct (str_eqb k k1) eqn:E.
  - intros H. inversion H; subst. apply str_eqb_eq in E. subst k1.
    exists [], o. split; [reflexivity|]. simpl. tauto.
  - intros H. destruct (IH H) as [pre [post [-> Hn]]].
    exists ((k1, v1) :: pre), post. split; [reflexivity|].
    simpl. intros [<-|Hin]; [|tauto]. now rewrite str_eqb_refl in E.
Qed.

Lemma get_In k v o : NoDup (keys o) -> In (k, v) o -> get k o = Some v.
Proof.
  intros Hd Hin. apply in_split in Hin. destruct Hin as [pre [post ->]].
  unfold keys in Hd. rewrite map_app in Hd. simpl in Hd.
  apply NoDup_remove_2 in Hd. rewrite get_app.
  assert (get k pre = None) as ->.
  { apply get_None_mem, mem_false_In. intros H. apply Hd. apply in_or_app. now left. }
  simpl. now rewrite str_eqb_refl.
Qed.

Lemma get_middle k v (pre post : t V) :
  ~ In k (keys pre) -> get k (pre ++ (k, v) :: post) = Some v.
Proof.
  intros Hn. rewrite get_app.
  assert (get k pre = None) as -> by now apply get_None_mem, mem_false_In.
  simpl. now rewrite str_eqb_refl.
Qed.

End ObjectFacts.

(* ------------------------------------------------------------------------- *)
(** ** What the frontmatter parser builds *)

Section ParserFacts.
Import JS Agents WellFormed.







Variable JSON_parse : str -> option (list str).








End ParserFacts.

(* ------------------------------------------------------------------------- *)
(** ** What [addAgentMetadata] keeps *)

Section MetadataFacts.
Import JS Agents WellFormed.
















End MetadataFacts.




(* ------------------------------------------------------------------------- *)
(** ** Reading back what the serializer wrote: characters and lines *)

Section CharFacts.
Import JS Agents Canonical.

(** A property of the code units below 128 is checked by enumeration. *)
Lemma below128 (P : N -> bool) :
  forallb P (map N.of_nat (seq 0 128)) = true ->
  forall c, (c < 128)%N -> P c = true.
Proof.
  intros H c Hc. rewrite forallb_forall in H. apply H.
  apply in_map_iff. exists (N.to_nat c). split; [apply N2Nat.id|].
  apply in_seq. lia.
Qed.

Lemma isWord_below (c : char) : isWord c = true -> (c < 128)%N.
Proof.
  unfold isWord, isDigit. rewrite !orb_true_iff, !andb_true_iff, !N.leb_le, N.eqb_eq.
  lia.
Qed.


Lemma isWord_plain (c : char) : isWord c = true -> plainChar c = true.
Proof.
  intros H.
  pose proof (@below128 (fun c => implb (isWord c) (plainChar c)) eq_refl c
                (isWord_below c H)) as K.
  cbv beta in K. rewrite H in K. exact K.
Qed.

Lemma isWord_not_space (c : char) : isWord c = true -> isSpace c = false.
Proof.
  intros H. apply isWord_plain in H. unfold plainChar in H.
  rewrite !andb_true_iff, !negb_true_iff in H. tauto.
Qed.

Lemma isWord_not_colon (c : char) : isWord c = true -> c <> 58%N.
Proof.
  intros H. apply isWord_plain in H. unfold plainChar in H.
  rewrite !andb_true_iff, !negb_true_iff, !N.eqb_neq in H. tauto.
Qed.

Lemma isWord_not_dash (c : char) : isWord c = true -> c <> 45%N.
Proof.
  intros H. apply isWord_plain in H. unfold plainChar in H.
  rewrite !andb_true_iff, !negb_true_iff, !N.eqb_neq in H. tauto.
Qed.

Lemma isWord_not_terminator (c : char) : isWord c = true -> isLineTerminator c = false.
Proof.
  intros H. apply isWord_plain in H. unfold plainChar in H.
  rewrite !andb_true_iff, !negb_true_iff in H. tauto.
Qed.

End CharFacts.

Section LineFacts.
Import JS Agents Canonical.

Lemma span_stop (p : char -> bool) (a b : str) :
  forallb p a = true -> headIs p b = false -> span p (a ++ b) = (a, b).
Proof.
  intros Ha Hb. induction a as [|c a IH]; simpl in *.
  - destruct b as [|d b]; simpl in *; [reflexivity|now rewrite Hb].
  - apply andb_true_iff in Ha. destruct Ha as [Hc Ha].
    rewrite Hc, (IH Ha). reflexivity.
Qed.

Lemma dropWhile_stop (p : char -> bool) (b : str) :
  headIs p b = false -> dropWhile p b = b.
Proof.
  intros Hb. unfold dropWhile.
  pose proof (@span_stop p [] b eq_refl Hb) as H. simpl in H. now rewrite H.
Qed.

Lemma dropWhile_cons_true (p : char -> bool) (c : char) (b : str) :
  p c = true -> dropWhile p (c :: b) = dropWhile p b.
Proof.
  intros H. unfold dropWhile. simpl. rewrite H. now destruct (span p b).
Qed.

Lemma lastIs_snoc (p : char -> bool) (s : str) (c : char) : lastIs p (s ++ [c]) = p c.
Proof. unfold lastIs. now rewrite rev_app_distr. Qed.

Lemma trimStart_id (s : str) : headIs isSpace s = false -> trimStart s = s.
Proof. apply dropWhile_stop. Qed.

Lemma trimEnd_id (s : str) : lastIs isSpace s = false -> trimEnd s = s.
Proof.
  intros H. unfold trimEnd. rewrite dropWhile_stop by exact H. apply rev_involutive.
Qed.

Lemma trim_id (s : str) :
  headIs isSpace s = false -> lastIs isSpace s = false -> trim s = s.
Proof.
  intros H1 H2. unfold trim. rewrite trimStart_id by assumption. now apply trimEnd_id.
Qed.

Lemma dropWhile_snoc_nonempty (p : char -> bool) (s : str) (c : char) :
  p c = false -> dropWhile p (s ++ [c]) <> [].
Proof.
  intros Hc. induction s as [|d s IH]; simpl.
  - rewrite dropWhile_stop by (simpl; assumption). discriminate.
  - destruct (p d) eqn:E.
    + now rewrite dropWhile_cons_true.
    + rewrite dropWhile_stop by (simpl; assumption). discriminate.
Qed.

(** A line that begins with a non-blank is not blank. *)
Lemma trim_truthy (c : char) (r : str) :
  isSpace c = false -> truthy (trim (c :: r)) = true.
Proof.
  intros Hc. unfold trim. rewrite trimStart_id by (simpl; assumption).
  unfold trimEnd. simpl rev.
  pose proof (dropWhile_snoc_nonempty isSpace (rev r) c Hc) as H.
  destruct (dropWhile isSpace (rev r ++ [c])) as [|d l] eqn:E; [congruence|].
  simpl. destruct (rev l ++ [d]) eqn:E2; [|reflexivity].
  destruct (rev l); discriminate.
Qed.

Lemma noTerminator_app (a b : str) :
  noTerminator (a ++ b) = noTerminator a && noTerminator b.
Proof. apply forallb_app. Qed.

Lemma stripTrailingQuote_snoc (s : str) (q : char) :
  isQuote q = true -> stripTrailingQuote (s ++ [q]) = s.
Proof.
  intros H. unfold stripTrailingQuote. rewrite rev_app_distr. simpl.
  rewrite H. apply rev_involutive.
Qed.

Lemma stripTrailingQuote_id (s : str) :
  lastIs isQuote s = false -> stripTrailingQuote s = s.
Proof.
  unfold lastIs, stripTrailingQuote. intros H.
  destruct (rev s) as [|q t] eqn:E.
  - destruct s; [reflexivity|]. simpl in E. destruct (rev s); discriminate.
  - simpl in H. now rewrite H.
Qed.

Lemma stripQuotes_id (s : str) :
  headIs isQuote s = false -> lastIs isQuote s = false -> stripQuotes s = s.
Proof.
  intros H1 H2. destruct s as [|c r]; [reflexivity|]. simpl in H1.
  unfold stripQuotes. rewrite H1. now apply stripTrailingQuote_id.
Qed.

Lemma stripQuotes_quoted (s : str) :
  stripQuotes (quote :: s ++ [quote]) = s.
Proof.
  unfold stripQuotes. change (isQuote quote) with true. cbv iota.
  now apply stripTrailingQuote_snoc.
Qed.

(** What the serializer writes for a value is read back in one piece. *)
Lemma quoted_shape (s : str) :
  noTerminator s = true ->
  headIs isSpace (quoted s) = (if needsQuoting s then false else headIs isSpace s)
  /\ lastIs isSpace (quoted s) = (if needsQuoting s then false else lastIs isSpace s)
  /\ noTerminator (quoted s) = true
  /\ headIs isQuote (quoted s) = (if needsQuoting s then true else headIs isQuote s).
Proof.
  intros Hs. unfold quoted. destruct (needsQuoting s); [|tauto].
  repeat split.
  - rewrite app_assoc. apply lastIs_snoc.
  - simpl. rewrite noTerminator_app, Hs. reflexivity.
Qed.

Lemma keyOK_inv (k : str) :
  keyOK k = true ->
  exists c k', k = c :: k' /\ isWord c = true /\ forallb isWord k = true
               /\ JSObject.arrayIndex k = None /\ k <> proto_key.
Proof.
  unfold keyOK. rewrite !andb_true_iff, !negb_true_iff.
  intros [[[H1 H2] H3] H4]. destruct k as [|c k']; [discriminate|].
  exists c, k'. repeat split; auto.
  - unfold JSObject.arrayIndex. now rewrite H3.
  - now apply str_eqb_neq.
Qed.

Lemma matchTop_line (k v : str) :
  keyOK k = true -> headIs isSpace v = false -> noTerminator v = true ->
  matchTop (k ++ 58%N :: 32%N :: v) = Some (k, v).
Proof.
  intros Hk Hv Ht. destruct (keyOK_inv k Hk) as [c [k' [-> [Hc [Hw _]]]]].
  unfold matchTop. rewrite span_stop by (auto; reflexivity).
  rewrite dropWhile_cons_true by reflexivity.
  rewrite dropWhile_stop by assumption. now rewrite Ht.
Qed.

Lemma matchTop_header (k : str) :
  keyOK k = true -> matchTop (k ++ [58%N]) = Some (k, []).
Proof.
  intros Hk. destruct (keyOK_inv k Hk) as [c [k' [-> [Hc [Hw _]]]]].
  unfold matchTop. rewrite span_stop by (auto; reflexivity). reflexivity.
Qed.

Lemma matchNested_line (k v : str) :
  keyOK k = true -> headIs isSpace v = false -> noTerminator v = true ->
  matchNested (32%N :: 32%N :: k ++ 58%N :: 32%N :: v)
  = Some (k, match v with
             | q :: r' => if isQuote q then r' else v
             | [] => []
             end).
Proof.
  intros Hk Hv Ht. destruct (keyOK_inv k Hk) as [c [k' [-> [Hc [Hw _]]]]].
  unfold matchNested.
  change (32%N :: 32%N :: (c :: k') ++ 58%N :: 32%N :: v)
    with ([32%N; 32%N] ++ ((c :: k') ++ 58%N :: 32%N :: v)).
  rewrite span_stop;
    [|reflexivity|simpl; now apply isWord_not_space].
  rewrite span_stop by (auto; reflexivity).
  rewrite dropWhile_cons_true by reflexivity.
  rewrite dropWhile_stop by assumption.
  destruct v as [|q r']; [reflexivity|].
  destruct (isQuote q) eqn:Eq; [|now rewrite Ht].
  simpl in Ht. apply andb_true_iff in Ht. destruct Ht as [_ Ht].
  fold (noTerminator r') in Ht. now rewrite Ht.
Qed.

(** Neither a field line nor a nested line looks like a list item. *)
Lemma matchItemPrefix_word (c : char) (r : str) :
  isWord c = true -> matchItemPrefix (c :: r) = None.
Proof.
  intros Hc. unfold matchItemPrefix. simpl.
  now rewrite (isWord_not_space c Hc).
Qed.

Lemma matchItemPrefix_nested (c : char) (r : str) :
  isWord c = true -> matchItemPrefix (32%N :: 32%N :: c :: r) = None.
Proof.
  intros Hc. unfold matchItemPrefix.
  change (32%N :: 32%N :: c :: r) with ([32%N; 32%N] ++ c :: r).
  rewrite span_stop; [|reflexivity|simpl; now apply isWord_not_space].
  destruct (N.eq_dec c 45) as [->|Hne]; [discriminate|].
  destruct c as [|p]; [reflexivity|].
  repeat (destruct p as [p|p|]; try reflexivity); congruence.
Qed.

End LineFacts.

Section ParseBack.
Import JS Agents Canonical.

Lemma not_indented (c : char) (r : str) :
  isWord c = true -> startsWith (lit "  ") (c :: r) = false.
Proof.
  intros Hc. change (N.eqb 32 c && startsWith [32%N] r = false).
  destruct (N.eqb_spec 32 c) as [<-|]; [discriminate|reflexivity].
Qed.

Lemma scalar_value (s : str) :
  scalarOK s = true ->
  headIs isSpace (quoted s) = false
  /\ noTerminator (quoted s) = true
  /\ trim (quoted s) = quoted s
  /\ truthy (quoted s) = true
  /\ startsWith (lit "[") (quoted s) && endsWith (lit "]") (quoted s) = false
  /\ stripQuotes (quoted s) = s.
Proof.
  unfold scalarOK. rewrite andb_true_iff. intros [Ht H].
  unfold quoted. destruct (needsQuoting s).
  - repeat split.
    + simpl. now rewrite noTerminator_app, Ht.
    + apply trim_id; [reflexivity|].
      change (lastIs isSpace ((quote :: s) ++ [quote]) = false).
      now rewrite lastIs_snoc.
    + apply stripQuotes_quoted.
  - simpl in H. rewrite !andb_true_iff, !negb_true_iff in H.
    destruct H as [[[[[H1 H2] H3] H4] H5] H6].
    repeat split; auto.
    + now apply trim_id.
    + now apply stripQuotes_id.
Qed.

Lemma nested_value (v : str) :
  nestedOK v = true ->
  headIs isSpace (quoted v) = false
  /\ noTerminator (quoted v) = true
  /\ stripQuotes (match quoted v with
                  | q :: r' => if isQuote q then r' else quoted v
                  | [] => []
                  end) = v.
Proof.
  unfold nestedOK. rewrite !andb_true_iff, !negb_true_iff.
  intros [[[Ht Hn] Hq] H]. unfold quoted.
  destruct v as [|c v']; [discriminate|]. simpl in Hq.
  destruct (needsQuoting (c :: v')).
  - repeat split.
    + unfold noTerminator in *. now rewrite !forallb_app, Ht.
    + change (stripQuotes (c :: (v' ++ [quote])) = c :: v').
      unfold stripQuotes. rewrite Hq.
      change (stripTrailingQuote ((c :: v') ++ [quote]) = c :: v').
      now apply stripTrailingQuote_snoc.
  - simpl in H. rewrite !andb_true_iff, !negb_true_iff in H.
    destruct H as [[H1 H2] H3].
    repeat split; auto.
    rewrite Hq. apply stripQuotes_id; auto.
Qed.

Lemma assign_fresh (k : str) (v : Value) (props : JSObject.t Value) :
  keyOK k = true -> ~ In k (JSObject.keys props) ->
  assign k v (mkFrontmatter None props) = mkFrontmatter None (props ++ [(k, v)]).
Proof.
  intros Hk Hn. destruct (keyOK_inv k Hk) as [c [k' [_ [_ [_ [Hi Hp]]]]]].
  unfold assign. apply str_eqb_neq in Hp. rewrite Hp. simpl.
  now rewrite set_fresh.
Qed.

Lemma assignNested_fresh (k v : str) (es : JSObject.t str) :
  keyOK k = true -> ~ In k (JSObject.keys es) ->
  assignNested k v es = es ++ [(k, v)].
Proof.
  intros Hk Hn. destruct (keyOK_inv k Hk) as [c [k' [_ [_ [_ [Hi Hp]]]]]].
  unfold assignNested. apply str_eqb_neq in Hp. rewrite Hp.
  now rewrite set_fresh.
Qed.

Variable JSON_parse : str -> option (list str).

(** The line of a scalar field. *)
Lemma parseLine_scalar (lines : list str) (st : ParseState) (k s : str) :
  keyOK k = true -> scalarOK s = true ->
  parseLine JSON_parse lines st (k ++ lit ": " ++ quoted s)
  = Returns (mkParseState (assign k (VStr s) (result (savePrevious st))) None None
                          (isArray (savePrevious st))).
Proof.
  intros Hk Hs.
  destruct (scalar_value s Hs) as [H1 [H2 [H3 [H4 [H5 H6]]]]].
  pose proof (matchTop_line k (quoted s) Hk H1 H2) as Hm.
  destruct (keyOK_inv k Hk) as [c [k' [-> [Hc _]]]].
  change (matchTop (c :: (k' ++ 58%N :: 32%N :: quoted s)) = Some (c :: k', quoted s))
    in Hm.
  change ((c :: k') ++ lit ": " ++ quoted s)
    with (c :: (k' ++ 58%N :: 32%N :: quoted s)).
  unfold parseLine.
  rewrite trim_truthy by now apply isWord_not_space.
  rewrite matchItemPrefix_word by assumption.
  cbn [negb].
  rewrite not_indented by assumption. cbn [andb].
  unfold parseTopLevel. rewrite Hm, H3, H4. cbn [negb]. rewrite H5, H6.
  reflexivity.
Qed.

(** The line that opens a map or a list: which one the parser takes it
    for depends on the line after its first occurrence. *)
Lemma parseLine_opening (lines : list str) (st : ParseState) (k : str) :
  keyOK k = true ->
  parseLine JSON_parse lines st (k ++ lit ":")
  = Returns
      (match nth_error lines (S (indexOf (k ++ lit ":") lines)) with
       | Some next =>
           match matchItemPrefix next with
           | Some _ =>
               mkParseState (result (savePrevious st)) (Some k) (Some (VArr [])) true
           | None =>
               mkParseState (result (savePrevious st)) (Some k) (Some (VObj [])) false
           end
       | None => mkParseState (result (savePrevious st)) (Some k) (Some (VObj [])) false
       end).
Proof.
  intros Hk.
  pose proof (matchTop_header k Hk) as Hm.
  destruct (keyOK_inv k Hk) as [c [k' [-> [Hc _]]]].
  change (matchTop (c :: (k' ++ [58%N])) = Some (c :: k', [])) in Hm.
  change ((c :: k') ++ lit ":") with (c :: (k' ++ [58%N])).
  unfold parseLine.
  rewrite trim_truthy by now apply isWord_not_space.
  rewrite matchItemPrefix_word by assumption.
  cbn [negb].
  rewrite not_indented by assumption. cbn [andb].
  unfold parseTopLevel. rewrite Hm. cbn [trim trimStart trimEnd dropWhile span rev snd truthy negb].
  destruct (nth_error lines (S (indexOf (c :: k' ++ [58%N]) lines))) as [next|];
    [|reflexivity].
  destruct (matchItemPrefix next); reflexivity.
Qed.

(** The line that opens a map: the line after its first occurrence, if
    any, is not a list item. *)
Lemma parseLine_header (lines : list str) (st : ParseState) (k : str) :
  keyOK k = true ->
  match nth_error lines (S (indexOf (k ++ lit ":") lines)) with
  | Some next => matchItemPrefix next = None
  | None => True
  end ->
  parseLine JSON_parse lines st (k ++ lit ":")
  = Returns (mkParseState (result (savePrevious st)) (Some k) (Some (VObj [])) false).
Proof.
  intros Hk Hl. rewrite parseLine_opening by exact Hk.
  destruct (nth_error lines (S (indexOf (k ++ lit ":") lines))) as [next|];
    [|reflexivity].
  now rewrite Hl.
Qed.

(** The line that opens a list: the line after its first occurrence is a
    list item. *)
Lemma parseLine_listHeader (lines : list str) (st : ParseState) (k next rest : str) :
  keyOK k = true ->
  nth_error lines (S (indexOf (k ++ lit ":") lines)) = Some next ->
  matchItemPrefix next = Some rest ->
  parseLine JSON_parse lines st (k ++ lit ":")
  = Returns (mkParseState (result (savePrevious st)) (Some k) (Some (VArr [])) true).
Proof.
  intros Hk Hn Hm. rewrite parseLine_opening by exact Hk. now rewrite Hn, Hm.
Qed.

Lemma itemLine_prefix (i : str) :
  matchItemPrefix (itemLine i) = Some (quote :: i ++ [quote]).
Proof. reflexivity. Qed.

Lemma itemLine_truthy (i : str) : truthy (trim (itemLine i)) = true.
Proof. exact (trim_truthy 45%N (32%N :: quote :: i ++ [quote]) eq_refl). Qed.

(** The parser reads an item back as it was. *)
Lemma item_value (i : str) :
  itemOK i = true -> trim (stripQuotes (quote :: i ++ [quote])) = i.
Proof.
  unfold itemOK. rewrite !andb_true_iff, !negb_true_iff. intros [[_ H1] H2].
  rewrite stripQuotes_quoted. now apply trim_id.
Qed.

(** The line of an item of a list. *)
Lemma parseLine_item (lines : list str) (R : AgentFrontmatter) (k : str)
      (items : list str) (i : str) :
  itemOK i = true ->
  parseLine JSON_parse lines (mkParseState R (Some k) (Some (VArr items)) true)
            (itemLine i)
  = Returns (mkParseState R (Some k) (Some (VArr (items ++ [i]))) true).
Proof.
  intros Hi. unfold parseLine. rewrite itemLine_truthy, itemLine_prefix.
  cbn [negb currentKey isArray currentValue result]. now rewrite item_value.
Qed.

(** The line of an entry of a map. *)
Lemma parseLine_nested (lines : list str) (R : AgentFrontmatter) (k : str)
      (es : JSObject.t str) (nk v : str) :
  keyOK nk = true -> nestedOK v = true ->
  parseLine JSON_parse lines (mkParseState R (Some k) (Some (VObj es)) false)
            (lit "  " ++ nk ++ lit ": " ++ quoted v)
  = Returns (mkParseState R (Some k) (Some (VObj (assignNested nk v es))) false).
Proof.
  intros Hk Hv.
  destruct (nested_value v Hv) as [H1 [H2 H3]].
  pose proof (matchNested_line nk (quoted v) Hk H1 H2) as Hm.
  destruct (keyOK_inv nk Hk) as [c [k' [-> [Hc _]]]].
  change (lit "  " ++ (c :: k') ++ lit ": " ++ quoted v)
    with (32%N :: 32%N :: c :: (k' ++ 58%N :: 32%N :: quoted v)).
  match type of Hm with
  | _ = ?rhs =>
      change (matchNested (32%N :: 32%N :: c :: (k' ++ 58%N :: 32%N :: quoted v)) = rhs)
        in Hm
  end.
  unfold parseLine.
  assert (truthy (trim (32%N :: 32%N :: c :: k' ++ 58%N :: 32%N :: quoted v)) = true)
    as Htr.
  { unfold trim, trimStart.
    rewrite !dropWhile_cons_true by reflexivity.
    rewrite dropWhile_stop by (simpl; now apply isWord_not_space).
    pose proof (trim_truthy c (k' ++ 58%N :: 32%N :: quoted v)
                  (isWord_not_space c Hc)) as T.
    unfold trim in T. rewrite trimStart_id in T by (simpl; now apply isWord_not_space).
    exact T. }
  rewrite Htr, matchItemPrefix_nested by assumption.
  cbn [negb currentKey currentValue isArray result startsWith lit map
       list_ascii_of_string andb].
  change (N.eqb (N_of_ascii " ") 32) with true. cbn [andb].
  rewrite Hm.
  exact (f_equal
           (fun x => Returns (mkParseState R (Some k)
                                (Some (VObj (assignNested (c :: k') x es))) false))
           H3).
Qed.

End ParseBack.

(* ------------------------------------------------------------------------- *)
(** ** The lines of a serialized frontmatter *)

Section SerializedLines.
Import JS Agents Canonical.

Lemma snoc_cases (A : Type) (l : list A) : l = [] \/ exists l' d, l = l' ++ [d].
Proof.
  destruct l as [|a l]; [now left|right].
  destruct (@exists_last _ (a :: l)) as [l' [d H]]; [discriminate|].
  now exists l', d.
Qed.

Lemma toolsSuffix_split (line : str) :
  toolsSuffix line = true ->
  exists pre u, line = pre ++ lit "tools:" ++ u /\ forallb isSpace u = true.
Proof.
  induction line as [|c line IH]; [discriminate|].
  cbn [toolsSuffix]. intros H.
  - apply orb_true_iff in H. destruct H as [H|H].
    + apply andb_true_iff in H. destruct H as [H1 H2].
      exists [], (skipn 6 (c :: line)). split; [|exact H2].
      apply (startsWith_split (lit "tools:") (c :: line) H1).
    + destruct (IH H) as [pre [u [-> Hu]]]. now exists (c :: pre), u.
Qed.

(** A line whose last character is neither a blank nor a colon. *)
Lemma toolsSuffix_last (x : str) (c : char) :
  isSpace c = false -> c <> 58%N -> toolsSuffix (x ++ [c]) = false.
Proof.
  intros Hs Hc. destruct (toolsSuffix (x ++ [c])) eqn:E; [|reflexivity].
  destruct (toolsSuffix_split _ E) as [pre [u [Heq Hu]]].
  destruct (snoc_cases u) as [->|[u' [d ->]]].
  - change (lit "tools:" ++ []) with (lit "tools" ++ [58%N]) in Heq.
    rewrite app_assoc in Heq. apply app_inj_tail in Heq. destruct Heq. congruence.
  - rewrite !app_assoc in Heq. apply app_inj_tail in Heq. destruct Heq as [_ <-].
    rewrite forallb_app in Hu. simpl in Hu. rewrite Hs in Hu.
    rewrite andb_false_r in Hu. discriminate.
Qed.

Lemma endsWith_app (p pre : str) : endsWith p (pre ++ p) = true.
Proof. unfold endsWith. rewrite rev_app_distr. apply startsWith_app. Qed.

(** The line that opens a map whose key does not end in tools. *)
Lemma toolsSuffix_header (k : str) :
  endsWith (lit "tools") k = false -> toolsSuffix (k ++ [58%N]) = false.
Proof.
  intros Hk. destruct (toolsSuffix (k ++ [58%N])) eqn:E; [|reflexivity].
  destruct (toolsSuffix_split _ E) as [pre [u [Heq Hu]]].
  destruct (snoc_cases u) as [->|[u' [d ->]]].
  - change (lit "tools:" ++ []) with (lit "tools" ++ [58%N]) in Heq.
    rewrite app_assoc in Heq. apply app_inj_tail in Heq. destruct Heq as [-> _].
    now rewrite endsWith_app in Hk.
  - rewrite !app_assoc in Heq. apply app_inj_tail in Heq. destruct Heq as [_ <-].
    rewrite forallb_app in Hu. simpl in Hu. rewrite andb_false_r in Hu.
    discriminate.
Qed.

Lemma includes_single (c : char) (s : str) : includes [c] s = false -> ~ In c s.
Proof.
  induction s as [|d s IH]; simpl; [tauto|].
  rewrite orb_false_iff, andb_true_r. intros [H1 H2] [->|H].
  - now rewrite N.eqb_refl in H1.
  - now apply IH.
Qed.

(** A plain value has no colon. *)
Lemma plain_no_colon (s : str) : needsQuoting s = false -> ~ In 58%N s.
Proof.
  unfold needsQuoting. rewrite !orb_false_iff. intros [[[[[H _] _] _] _] _].
  now apply includes_single.
Qed.

Lemma lastIs_false_snoc (p : char -> bool) (s : str) :
  s <> [] -> lastIs p s = false -> exists x c, s = x ++ [c] /\ p c = false.
Proof.
  intros Hne H. destruct (snoc_cases s) as [->|[x [c ->]]]; [congruence|].
  rewrite lastIs_snoc in H. now exists x, c.
Qed.

(** The serialized form of a value never ends a line with tools: *)
Lemma toolsSuffix_value (pre s : str) :
  noTerminator s = true ->
  needsQuoting s = true \/ (s <> [] /\ lastIs isSpace s = false) ->
  toolsSuffix (pre ++ quoted s) = false.
Proof.
  intros Ht H. unfold quoted. destruct (needsQuoting s) eqn:E.
  - rewrite !app_assoc. apply toolsSuffix_last; [reflexivity|discriminate].
  - destruct H as [H|[Hne Hl]]; [discriminate|].
    destruct (lastIs_false_snoc isSpace Hne Hl) as [x [c [-> Hc]]].
    rewrite app_assoc. apply toolsSuffix_last; [exact Hc|].
    intros ->. apply (plain_no_colon _ E). apply in_or_app. right. now left.
Qed.

Lemma noTerminator_word (k : str) : forallb isWord k = true -> noTerminator k = true.
Proof.
  unfold noTerminator. rewrite !forallb_forall. intros H c Hc.
  now rewrite (isWord_not_terminator c (H c Hc)).
Qed.

Lemma scalarOK_tail (s : str) :
  scalarOK s = true ->
  noTerminator s = true
  /\ (needsQuoting s = true \/ (s <> [] /\ lastIs isSpace s = false)).
Proof.
  unfold scalarOK. rewrite andb_true_iff, orb_true_iff.
  rewrite !andb_true_iff, !negb_true_iff.
  intros [Ht [H|H]]; split; auto. right.
  destruct H as [[[[[H1 _] H3] _] _] _]. split; [|exact H3].
  destruct s; [discriminate|discriminate].
Qed.

Lemma nestedOK_tail (s : str) :
  nestedOK s = true ->
  noTerminator s = true
  /\ (needsQuoting s = true \/ (s <> [] /\ lastIs isSpace s = false)).
Proof.
  unfold nestedOK. rewrite !andb_true_iff, orb_true_iff.
  rewrite !andb_true_iff, !negb_true_iff.
  intros [[[Ht Hn] _] [H|H]]; split; auto. right.
  destruct H as [[_ H3] _]. split; [|exact H3].
  destruct s; [discriminate|discriminate].
Qed.

Lemma lineOK_scalar (k s : str) :
  keyOK k = true -> scalarOK s = true -> lineOK (k ++ lit ": " ++ quoted s).
Proof.
  intros Hk Hs. destruct (keyOK_inv k Hk) as [c [k' [-> [Hc [Hw _]]]]].
  destruct (scalar_value s Hs) as [_ [H2 _]].
  split; [|split].
  - rewrite !noTerminator_app, (noTerminator_word _ Hw), H2. reflexivity.
  - simpl. apply N.eqb_neq. now apply isWord_not_dash.
  - discriminate.
Qed.

Lemma lineOK_header (k : str) : keyOK k = true -> lineOK (k ++ lit ":").
Proof.
  intros Hk. destruct (keyOK_inv k Hk) as [c [k' [-> [Hc [Hw _]]]]].
  split; [|split].
  - rewrite !noTerminator_app, (noTerminator_word _ Hw). reflexivity.
  - simpl. apply N.eqb_neq. now apply isWord_not_dash.
  - discriminate.
Qed.

Lemma lineOK_nested (k v : str) :
  keyOK k = true -> nestedOK v = true ->
  lineOK (lit "  " ++ k ++ lit ": " ++ quoted v).
Proof.
  intros Hk Hv. destruct (keyOK_inv k Hk) as [c [k' [-> [Hc [Hw _]]]]].
  destruct (nested_value v Hv) as [_ [H2 _]].
  split; [|split].
  - rewrite !noTerminator_app, (noTerminator_word _ Hw), H2. reflexivity.
  - reflexivity.
  - discriminate.
Qed.

Lemma itemOK_inv (i : str) :
  itemOK i = true ->
  noTerminator i = true /\ i <> []
  /\ headIs isSpace i = false /\ lastIs isSpace i = false.
Proof.
  unfold itemOK. rewrite !andb_true_iff, !negb_true_iff.
  intros [[[H1 H2] H3] H4]. repeat split; auto. now destruct i.
Qed.

Lemma lineOK_item (i : str) : itemOK i = true -> lineOK (itemLine i).
Proof.
  intros Hi. destruct (itemOK_inv i Hi) as [Ht _]. unfold itemLine.
  split; [|split].
  - rewrite !noTerminator_app, Ht. reflexivity.
  - reflexivity.
  - discriminate.
Qed.

(** Lines that do not end with tools: *)
Lemma quiet_scalar (k s : str) :
  scalarOK s = true -> toolsSuffix (k ++ lit ": " ++ quoted s) = false.
Proof.
  intros Hs. destruct (scalarOK_tail s Hs) as [Ht Hq].
  rewrite app_assoc. now apply toolsSuffix_value.
Qed.

Lemma quiet_nested (k v : str) :
  nestedOK v = true -> toolsSuffix (lit "  " ++ k ++ lit ": " ++ quoted v) = false.
Proof.
  intros Hv. destruct (nestedOK_tail v Hv) as [Ht Hq].
  rewrite !app_assoc. now apply toolsSuffix_value.
Qed.

Lemma quiet_item (i : str) : toolsSuffix (itemLine i) = false.
Proof.
  unfold itemLine. rewrite !app_assoc.
  apply toolsSuffix_last; [reflexivity|discriminate].
Qed.

Lemma fieldOK_inv (kv : str * Value) :
  fieldOK kv = true ->
  keyOK (fst kv) = true
  /\ ((exists s, snd kv = VStr s /\ scalarOK s = true)
      \/ (exists items, snd kv = VArr items /\ items <> []
                        /\ forallb itemOK items = true
                        /\ (endsWith (lit "tools") (fst kv) = false
                            \/ fst kv = lit "tools"))
      \/ (exists es, snd kv = VObj es /\ entriesOK es = true
                     /\ endsWith (lit "tools") (fst kv) = false)).
Proof.
  unfold fieldOK. rewrite andb_true_iff. intros [Hk H]. split; [exact Hk|].
  destruct (snd kv) as [s|items|es]; [left|right; left|right; right].
  - now exists s.
  - rewrite !andb_true_iff, orb_true_iff, !negb_true_iff, str_eqb_eq in H.
    destruct H as [[H1 H2] H3]. exists items. repeat split; auto.
    intros ->. discriminate.
  - apply andb_true_iff in H. destruct H as [H1 H2].
    apply negb_true_iff in H2. now exists es.
Qed.

Lemma entriesOK_inv (es : JSObject.t str) :
  entriesOK es = true ->
  forall kv, In kv es -> keyOK (fst kv) = true /\ nestedOK (snd kv) = true.
Proof.
  unfold entriesOK, entryOK. rewrite andb_true_iff, forallb_forall.
  intros [H _] kv Hin. apply andb_true_iff. now apply H.
Qed.

(** Every line of a serialized field is well-shaped. *)
Lemma lineOK_entry (kv : str * Value) (line : str) :
  fieldOK kv = true -> In line (serializeEntry kv) -> lineOK line.
Proof.
  intros Hf Hin.
  destruct (fieldOK_inv kv Hf)
    as [Hk [[s [Hs Hok]]|[[items [Hs [Hne [Hok Ht]]]]|[es [Hs [Hok Ht]]]]]];
    destruct kv as [k v]; simpl in *; subst v; simpl in Hin.
  - destruct Hin as [<-|[]]. now apply lineOK_scalar.
  - destruct Hin as [<-|Hin]; [now apply lineOK_header|].
    apply in_map_iff in Hin. destruct Hin as [i [<- Hin]].
    rewrite forallb_forall in Hok. now apply lineOK_item, Hok.
  - destruct Hin as [<-|Hin]; [now apply lineOK_header|].
    apply in_map_iff in Hin. destruct Hin as [[nk nv] [<- Hin]].
    destruct (entriesOK_inv es Hok _ Hin). now apply lineOK_nested.
Qed.

Lemma lineOK_lines (props : JSObject.t Value) (line : str) :
  forallb fieldOK props = true ->
  In line (flat_map serializeEntry props) -> lineOK line.
Proof.
  rewrite forallb_forall. intros H Hin.
  apply in_flat_map in Hin. destruct Hin as [kv [Hkv Hl]].
  eapply lineOK_entry; eauto.
Qed.

(** No line of a field other than a list of tools ends with tools: *)
Lemma quiet_entry (kv : str * Value) (line : str) :
  fieldOK kv = true -> quietField kv = true ->
  In line (serializeEntry kv) -> toolsSuffix line = false.
Proof.
  intros Hf Hq Hin.
  destruct (fieldOK_inv kv Hf)
    as [Hk [[s [Hs Hok]]|[[items [Hs [Hne [Hok Ht]]]]|[es [Hs [Hok Ht]]]]]];
    destruct kv as [k v]; unfold quietField in Hq; simpl in *; subst v;
    simpl in Hin.
  - destruct Hin as [<-|[]]. now apply quiet_scalar.
  - destruct Hin as [<-|Hin].
    + apply toolsSuffix_header. destruct Ht as [Ht| ->]; [exact Ht|discriminate].
    + apply in_map_iff in Hin. destruct Hin as [i [<- Hin]]. apply quiet_item.
  - destruct Hin as [<-|Hin]; [now apply toolsSuffix_header|].
    apply in_map_iff in Hin. destruct Hin as [[nk nv] [<- Hin]].
    destruct (entriesOK_inv es Hok _ Hin). now apply quiet_nested.
Qed.

(** The first line of a field begins with a word character. *)
Lemma entry_head (kv : str * Value) :
  fieldOK kv = true ->
  exists c r rest, serializeEntry kv = (c :: r) :: rest /\ isWord c = true.
Proof.
  intros Hf. destruct (fieldOK_inv kv Hf) as [Hk _].
  destruct (keyOK_inv _ Hk) as [c [k' [E [Hc _]]]].
  destruct kv as [k v]. simpl in E. subst k. destruct v; simpl; eauto.
Qed.

End SerializedLines.

(* ------------------------------------------------------------------------- *)
(** ** Parsing a serialized frontmatter gives it back *)

Section RoundTrip.
Import JS Agents Canonical.

Lemma existsb_str_eqb (k : str) (l : list str) :
  existsb (str_eqb k) l = false -> ~ In k l.
Proof.
  induction l as [|a l IH]; simpl; [tauto|].
  rewrite orb_false_iff. intros [H1 H2] [->|H].
  - now rewrite str_eqb_refl in H1.
  - now apply IH.
Qed.

Lemma nodupb_NoDup (l : list str) : nodupb l = true -> NoDup l.
Proof.
  induction l as [|a l IH]; simpl; [constructor|].
  rewrite andb_true_iff, negb_true_iff. intros [H1 H2].
  constructor; [now apply existsb_str_eqb|now apply IH].
Qed.


(* --- splitting the text into lines --- *)

Lemma split_aux_last (sep : char) (cur l : str) :
  ~ In sep l -> split_aux sep cur l = [rev cur ++ l].
Proof.
  revert cur. induction l as [|c l IH]; intros cur Hn; simpl.
  - now rewrite app_nil_r.
  - destruct (N.eqb_spec c sep) as [->|Hne]; [exfalso; apply Hn; now left|].
    rewrite IH by (intros H; apply Hn; now right).
    simpl. now rewrite <- app_assoc.
Qed.

Lemma split_aux_line (sep : char) (cur l rest : str) :
  ~ In sep l ->
  split_aux sep cur (l ++ sep :: rest) = (rev cur ++ l) :: split_aux sep [] rest.
Proof.
  revert cur. induction l as [|c l IH]; intros cur Hn; simpl.
  - now rewrite N.eqb_refl, app_nil_r.
  - destruct (N.eqb_spec c sep) as [->|Hne]; [exfalso; apply Hn; now left|].
    rewrite IH by (intros H; apply Hn; now right).
    simpl. now rewrite <- app_assoc.
Qed.

Lemma split_join (sep : char) (lines : list str) :
  lines <> [] -> (forall l, In l lines -> ~ In sep l) ->
  split sep (join [sep] lines) = lines.
Proof.
  unfold split. induction lines as [|l lines IH]; intros Hne Hl; [congruence|].
  destruct lines as [|l2 lines].
  - simpl. rewrite split_aux_last by (apply Hl; now left). reflexivity.
  - change (join [sep] (l :: l2 :: lines)) with (l ++ sep :: join [sep] (l2 :: lines)).
    rewrite split_aux_line by (apply Hl; now left). simpl rev. simpl app.
    f_equal. apply IH; [discriminate|]. intros x Hx. apply Hl. now right.
Qed.

Lemma noTerminator_not_In (c : char) (l : str) :
  isLineTerminator c = true -> noTerminator l = true -> ~ In c l.
Proof.
  intros Hc Hl Hin. unfold noTerminator in Hl. rewrite forallb_forall in Hl.
  specialize (Hl c Hin). now rewrite Hc in Hl.
Qed.

(* --- finding the end of the block --- *)

Lemma matchClose_other (c : char) (r : str) :
  c <> 10%N -> c <> 13%N -> matchClose (c :: r) = None.
Proof.
  intros H1 H2. destruct c as [|p]; [reflexivity|].
  repeat (destruct p as [p|p|]; try reflexivity); congruence.
Qed.

Lemma matchClose_newline (c : char) (r : str) :
  c <> 45%N -> matchClose (10%N :: c :: r) = None.
Proof.
  intros H1. destruct c as [|p]; [reflexivity|].
  repeat (destruct p as [p|p|]; try reflexivity); congruence.
Qed.

Lemma findClose_line (l s : str) :
  ~ In 10%N l -> ~ In 13%N l ->
  findClose (l ++ s)
  = match findClose s with
    | Some (g, r) => Some (l ++ g, r)
    | None => None
    end.
Proof.
  intros H1 H2. induction l as [|c l IH]; simpl app.
  - destruct (findClose s) as [[g r]|]; reflexivity.
  - cbn [findClose]. rewrite matchClose_other;
      [|intros ->; apply H1; now left|intros ->; apply H2; now left].
    rewrite IH; [|intros H; apply H1; now right|intros H; apply H2; now right].
    destruct (findClose s) as [[g r]|]; reflexivity.
Qed.

Lemma findClose_newline (c : char) (r : str) :
  c <> 45%N ->
  findClose (10%N :: c :: r)
  = match findClose (c :: r) with
    | Some (g, x) => Some (10%N :: g, x)
    | None => None
    end.
Proof.
  intros H. cbn [findClose]. rewrite matchClose_newline by assumption. reflexivity.
Qed.

Lemma lineOK_chars (l : str) :
  lineOK l ->
  ~ In 10%N l /\ ~ In 13%N l /\ exists c r, l = c :: r /\ c <> 45%N.
Proof.
  intros [Ht [Hh Hne]]. repeat split.
  - now apply noTerminator_not_In.
  - now apply noTerminator_not_In.
  - destruct l as [|c r]; [congruence|]. exists c, r. split; [reflexivity|].
    simpl in Hh. now apply N.eqb_neq.
Qed.

Lemma findClose_yaml (lines : list str) (b : str) :
  lines <> [] -> (forall l, In l lines -> lineOK l) ->
  findClose (join nl lines ++ nl ++ lit "---" ++ nl ++ b)
  = Some (join nl lines, nl ++ b).
Proof.
  induction lines as [|l lines IH]; intros Hne Hl; [congruence|].
  destruct (lineOK_chars (Hl l (or_introl eq_refl))) as [H10 [H13 _]].
  destruct lines as [|l2 lines].
  - simpl join. rewrite findClose_line by assumption.
    change (findClose (nl ++ lit "---" ++ nl ++ b)) with (Some (@nil char, 10%N :: b)).
    cbv iota beta. now rewrite app_nil_r.
  - change (join nl (l :: l2 :: lines)) with (l ++ nl ++ join nl (l2 :: lines)).
    rewrite <- !app_assoc. rewrite findClose_line by assumption.
    assert (forall x, In x (l2 :: lines) -> lineOK x) as Hl' by (intros; apply Hl; now right).
    destruct (lineOK_chars (Hl' l2 (or_introl eq_refl))) as [_ [_ [c [r [E Hc]]]]].
    specialize (IH ltac:(discriminate) Hl').
    remember (join nl (l2 :: lines)) as j eqn:Ej.
    assert (exists r', j = c :: r') as [r' Ej'].
    { subst j. destruct lines; simpl; rewrite E; simpl; eauto. }
    rewrite Ej' in *. simpl app in IH |- *.
    rewrite findClose_newline by assumption.
    simpl app in IH. rewrite IH. reflexivity.
Qed.

Lemma serializeEntry_nonempty (kv : str * Value) : serializeEntry kv <> [].
Proof. destruct kv as [k [s|items|es]]; discriminate. Qed.

Lemma join_head (l : str) (lines : list str) :
  exists r, join nl (l :: lines) = l ++ r.
Proof.
  destruct lines as [|l2 lines].
  - exists []. simpl. now rewrite app_nil_r.
  - eexists. reflexivity.
Qed.

Variable JSON_parse : str -> option (list str).

Lemma parseLines_app (lines a b : list str) (st : ParseState) :
  parseLines JSON_parse lines st (a ++ b)
  = bind (parseLines JSON_parse lines st a)
         (fun st' => parseLines JSON_parse lines st' b).
Proof.
  revert st. induction a as [|l a IH]; intros st; simpl; [reflexivity|].
  destruct (parseLine JSON_parse lines st l); simpl; auto.
Qed.

(** The entries of a map, one line each. *)
Lemma parse_nested_block (lines : list str) (R : AgentFrontmatter) (k : str)
      (es es0 : JSObject.t str) :
  (forall kv, In kv es -> keyOK (fst kv) = true /\ nestedOK (snd kv) = true) ->
  NoDup (JSObject.keys (es0 ++ es)) ->
  parseLines JSON_parse lines (mkParseState R (Some k) (Some (VObj es0)) false)
    (map (fun nkv => lit "  " ++ fst nkv ++ lit ": " ++ quoted (snd nkv)) es)
  = Returns (mkParseState R (Some k) (Some (VObj (es0 ++ es))) false).
Proof.
  revert es0. induction es as [|[nk nv] es IH]; intros es0 Hok Hd.
  - simpl. now rewrite app_nil_r.
  - destruct (Hok (nk, nv) (or_introl eq_refl)) as [Hk Hv]. simpl in Hk, Hv.
    cbn [map fst snd parseLines].
    rewrite parseLine_nested by assumption. cbn [bind].
    rewrite assignNested_fresh; [|assumption|].
    + replace (es0 ++ (nk, nv) :: es) with ((es0 ++ [(nk, nv)]) ++ es)
        by now rewrite <- app_assoc.
      apply IH.
      * intros kv Hin. apply Hok. now right.
      * now rewrite <- app_assoc.
    + unfold JSObject.keys in Hd. rewrite map_app in Hd. simpl in Hd.
      apply NoDup_remove_2 in Hd. intros Hin. apply Hd.
      apply in_or_app. now left.
Qed.

(** The items of a list, one line each. *)
Lemma parse_list_block (lines : list str) (R : AgentFrontmatter) (k : str)
      (items items0 : list str) :
  forallb itemOK items = true ->
  parseLines JSON_parse lines (mkParseState R (Some k) (Some (VArr items0)) true)
    (map (fun item => lit "  - " ++ [quote] ++ item ++ [quote]) items)
  = Returns (mkParseState R (Some k) (Some (VArr (items0 ++ items))) true).
Proof.
  revert items0. induction items as [|i items IH]; intros items0 Hok.
  - simpl. now rewrite app_nil_r.
  - simpl in Hok. apply andb_true_iff in Hok. destruct Hok as [Hi Hok].
    cbn [map parseLines].
    change (lit "  - " ++ [quote] ++ i ++ [quote]) with (itemLine i).
    rewrite parseLine_item by exact Hi. cbn [bind].
    rewrite IH by exact Hok. now rewrite <- app_assoc.
Qed.

(* --- where a line stands among the lines --- *)

Lemma indexOf_fresh (x : str) (l r : list str) :
  ~ In x l -> indexOf x (l ++ x :: r) = length l.
Proof.
  induction l as [|a l IH]; intros Hn; simpl.
  - now rewrite str_eqb_refl.
  - destruct (str_eqb a x) eqn:E.
    + apply str_eqb_eq in E. subst a. exfalso. apply Hn. now left.
    + rewrite IH; [reflexivity|]. intros H. apply Hn. now right.
Qed.

Lemma word_colon (k x : str) :
  forallb isWord k = true -> span isWord (k ++ 58%N :: x) = (k, 58%N :: x).
Proof. intros Hk. now apply span_stop. Qed.

(** The opening line of a key is no line of a field with another key. *)
Lemma header_not_line (k : str) (kv : str * Value) :
  keyOK k = true -> fieldOK kv = true -> fst kv <> k ->
  ~ In (k ++ lit ":") (serializeEntry kv).
Proof.
  intros Hk Hf Hne Hin.
  destruct (keyOK_inv k Hk) as [c [r [Ek [Hc [Hw _]]]]].
  destruct (fieldOK_inv kv Hf) as [Hk' _].
  destruct (keyOK_inv _ Hk') as [c' [r' [Ek' [Hc' [Hw' _]]]]].
  destruct kv as [k' v]. cbn [fst] in *.
  assert (forall y, k' ++ 58%N :: y = k ++ lit ":" -> False) as Hcolon.
  { intros y E. apply (f_equal (span isWord)) in E.
    change (k ++ lit ":") with (k ++ 58%N :: []) in E.
    rewrite !word_colon in E by assumption. inversion E. congruence. }
  assert (forall y, 32%N :: y = k ++ lit ":" -> False) as Hblank.
  { intros y E. rewrite Ek in E. inversion E. subst c. discriminate. }
  destruct v as [s|items|es]; simpl in Hin.
  - destruct Hin as [E|[]]. exact (Hcolon _ E).
  - destruct Hin as [E|Hin]; [exact (Hcolon _ E)|].
    apply in_map_iff in Hin. destruct Hin as [i [E _]]. exact (Hblank _ E).
  - destruct Hin as [E|Hin]; [exact (Hcolon _ E)|].
    apply in_map_iff in Hin. destruct Hin as [nkv [E _]]. exact (Hblank _ E).
Qed.

Lemma header_fresh (k : str) (pre : JSObject.t Value) :
  keyOK k = true -> forallb fieldOK pre = true -> ~ In k (JSObject.keys pre) ->
  ~ In (k ++ lit ":") (flat_map serializeEntry pre).
Proof.
  intros Hk Hf Hn Hin. apply in_flat_map in Hin. destruct Hin as [kv [Hkv Hl]].
  rewrite forallb_forall in Hf.
  apply (@header_not_line k kv Hk (Hf kv Hkv)); [|exact Hl].
  intros E. apply Hn. subst k. now apply in_map.
Qed.

(** The line after the opening line of a field. *)
Lemma next_line (pre post : JSObject.t Value) (kv : str * Value) (tl : list str) :
  keyOK (fst kv) = true -> forallb fieldOK pre = true ->
  ~ In (fst kv) (JSObject.keys pre) ->
  serializeEntry kv = (fst kv ++ lit ":") :: tl ->
  nth_error (flat_map serializeEntry (pre ++ kv :: post))
            (S (indexOf (fst kv ++ lit ":") (flat_map serializeEntry (pre ++ kv :: post))))
  = nth_error (tl ++ flat_map serializeEntry post) 0.
Proof.
  intros Hk Hf Hn E. rewrite flat_map_app. cbn [flat_map]. rewrite E.
  rewrite <- app_comm_cons.
  rewrite indexOf_fresh by now apply header_fresh.
  rewrite nth_error_app2 by lia.
  replace (S (length (flat_map serializeEntry pre)) - length (flat_map serializeEntry pre))%nat
    with 1%nat by lia.
  reflexivity.
Qed.

Lemma fieldOK_split (pre post : JSObject.t Value) (kv : str * Value) :
  forallb fieldOK (pre ++ kv :: post) = true ->
  NoDup (JSObject.keys (pre ++ kv :: post)) ->
  forallb fieldOK pre = true /\ fieldOK kv = true /\ forallb fieldOK post = true
  /\ ~ In (fst kv) (JSObject.keys pre).
Proof.
  rewrite forallb_app. cbn [forallb]. rewrite !andb_true_iff.
  intros [H1 [H2 H3]] Hd. repeat split; auto.
  unfold JSObject.keys in Hd. rewrite map_app in Hd. simpl in Hd.
  apply NoDup_remove_2 in Hd. intros Hin. apply Hd. apply in_or_app. now left.
Qed.

Lemma parse_entry (pre post : JSObject.t Value) (kv : str * Value) (st : ParseState) :
  forallb fieldOK (pre ++ kv :: post) = true ->
  NoDup (JSObject.keys (pre ++ kv :: post)) ->
  reads pre st ->
  exists st',
    parseLines JSON_parse (flat_map serializeEntry (pre ++ kv :: post)) st
      (serializeEntry kv) = Returns st'
    /\ reads (pre ++ [kv]) st'.
Proof.
  intros Hall Hd [Hr Ha].
  destruct (fieldOK_split pre post kv Hall Hd) as [Hpre [Hf [Hpost Hn]]].
  set (lines := flat_map serializeEntry (pre ++ kv :: post)).
  destruct (fieldOK_inv kv Hf)
    as [Hk [[s [Hs Hok]]|[[items [Hs [Hne [Hok Ht]]]]|[es [Hs [Hok Ht]]]]]].
  - destruct kv as [k v]. cbn [fst snd] in *. subst v.
    eexists. cbn [serializeEntry parseLines].
    rewrite parseLine_scalar by assumption. cbn [bind]. split; [reflexivity|].
    rewrite Hr, Ha. unfold reads. cbn [savePrevious currentKey result isArray].
    split; [|reflexivity]. now apply assign_fresh.
  - pose proof (@next_line pre post kv
                  (map (fun item => lit "  - " ++ [quote] ++ item ++ [quote]) items)
                  Hk Hpre Hn) as Hnext.
    destruct kv as [k v]. cbn [fst snd] in *. subst v.
    specialize (Hnext eq_refl). fold lines in Hnext.
    destruct items as [|i items]; [congruence|].
    eexists. cbn [serializeEntry parseLines].
    rewrite (@parseLine_listHeader JSON_parse lines st k (itemLine i) (quote :: i ++ [quote]) Hk);
      [|rewrite Hnext; reflexivity|apply itemLine_prefix].
    cbn [bind]. rewrite parse_list_block by exact Hok. cbn [app].
    split; [reflexivity|]. unfold reads.
    cbn [savePrevious currentKey currentValue result isArray].
    split; [|reflexivity]. rewrite Hr. now apply assign_fresh.
  - pose proof (@next_line pre post kv
                  (map (fun nkv => lit "  " ++ fst nkv ++ lit ": " ++ quoted (snd nkv)) es)
                  Hk Hpre Hn) as Hnext.
    destruct kv as [k v]. cbn [fst snd] in *. subst v.
    specialize (Hnext eq_refl). fold lines in Hnext.
    eexists. cbn [serializeEntry parseLines].
    rewrite parseLine_header; [|exact Hk|].
    + cbn [bind]. rewrite (parse_nested_block lines _ k es []).
      * split; [reflexivity|]. unfold reads.
        cbn [savePrevious currentKey currentValue result isArray app].
        split; [|reflexivity]. rewrite Hr. now apply assign_fresh.
      * now apply entriesOK_inv.
      * simpl. apply nodupb_NoDup. unfold entriesOK in Hok.
        apply andb_true_iff in Hok. tauto.
    + rewrite Hnext. destruct es as [|[nk nv] es].
      * cbn [map app]. destruct post as [|kv2 post]; [exact I|].
        cbn [forallb] in Hpost. apply andb_true_iff in Hpost.
        destruct (entry_head kv2 (proj1 Hpost)) as [c [r [rest [E Hc]]]].
        cbn [flat_map]. rewrite E. cbn [app nth_error].
        now apply matchItemPrefix_word.
      * cbn [map app nth_error fst snd].
        destruct (entriesOK_inv _ Hok (nk, nv) (or_introl eq_refl)) as [Hnk _].
        destruct (keyOK_inv _ Hnk) as [c [r [E [Hc _]]]]. cbn [fst] in E. subst nk.
        now apply (matchItemPrefix_nested c (r ++ lit ": " ++ quoted nv)).
Qed.

Lemma parse_entries (props post pre : JSObject.t Value) (st : ParseState) :
  props = pre ++ post ->
  forallb fieldOK props = true -> NoDup (JSObject.keys props) ->
  reads pre st ->
  exists st',
    parseLines JSON_parse (flat_map serializeEntry props) st
      (flat_map serializeEntry post) = Returns st'
    /\ reads props st'.
Proof.
  revert pre st. induction post as [|kv post IH]; intros pre st E Hf Hd Hr.
  - exists st. rewrite app_nil_r in E. subst props. split; [reflexivity|exact Hr].
  - subst props.
    destruct (@parse_entry pre post kv st Hf Hd Hr) as [st1 [H1 Hr1]].
    destruct (IH (pre ++ [kv]) st1) as [st2 [H2 Hr2]].
    + now rewrite <- app_assoc.
    + exact Hf.
    + exact Hd.
    + exact Hr1.
    + exists st2. cbn [flat_map]. rewrite parseLines_app, H1. cbn [bind].
      split; [exact H2|exact Hr2].
Qed.

(** Parsing the text the serializer wrote for serializable fields gives
    the fields and the body back. *)
Lemma parseFrontmatter_serialized (props : JSObject.t Value) (b : str) :
  props <> [] -> serializable props = true ->
  parseFrontmatter JSON_parse
    (wrapFrontmatter (serializeFrontmatter (mkFrontmatter None props)) b)
  = (Some (mkFrontmatter None props), b).
Proof.
  intros Hne Hs. unfold serializable in Hs. apply andb_true_iff in Hs.
  destruct Hs as [Hf Hd]. apply nodupb_NoDup in Hd.
  unfold serializeFrontmatter. cbn [fm_props].
  set (lines := flat_map serializeEntry props).
  assert (Hl : forall l, In l lines -> lineOK l).
  { intros l Hin. now apply (lineOK_lines props). }
  assert (Hlne : lines <> []).
  { subst lines. destruct props as [|kv props]; [congruence|]. simpl.
    pose proof (serializeEntry_nonempty kv). destruct (serializeEntry kv); [congruence|discriminate]. }
  unfold parseFrontmatter, matchFrontmatter, wrapFrontmatter.
  change (matchOpen (lit "---" ++ nl ++ join nl lines ++ nl ++ lit "---" ++ nl ++ b))
    with (Some (join nl lines ++ nl ++ lit "---" ++ nl ++ b)).
  cbv iota beta. rewrite findClose_yaml by assumption.
  change (skipLineEnd (nl ++ b)) with b. cbv iota beta.
  assert (truthy (join nl lines) = true) as Htr.
  { destruct lines as [|l ls]; [congruence|].
    destruct (join_head l ls) as [r ->].
    destruct (Hl l (or_introl eq_refl)) as [_ [_ Hl0]].
    destruct l; [congruence|reflexivity]. }
  rewrite Htr. cbn [negb].
  unfold parseSimpleYaml.
  change nl with [10%N]. rewrite split_join; [|assumption|].
  2:{ intros l Hin. destruct (lineOK_chars (Hl l Hin)) as [H _]. exact H. }
  destruct (@parse_entries props props []
              (mkParseState emptyFrontmatter None None false)) as [st' [Hp [Hr _]]].
  - reflexivity.
  - exact Hf.
  - exact Hd.
  - split; reflexivity.
  - fold lines in Hp. rewrite Hp. cbn [bind]. now rewrite Hr.
Qed.

End RoundTrip.

(* ------------------------------------------------------------------------- *)
(** ** The search for a list of tools *)

Section ToolsSearch.
Import JS Agents Canonical.

Lemma startsWith_before_newline (p l rest : str) :
  ~ In 10%N p -> startsWith p (l ++ 10%N :: rest) = startsWith p l.
Proof.
  revert l. induction p as [|a p IH]; intros l Hn; [reflexivity|].
  destruct l as [|c l]; simpl.
  - destruct (N.eqb_spec a 10) as [->|_]; [exfalso; apply Hn; now left|reflexivity].
  - rewrite IH; [reflexivity|]. intros H. apply Hn. now right.
Qed.

Lemma startsWith_length (p s : str) :
  startsWith p s = true -> (length p <= length s)%nat.
Proof.
  revert s. induction p as [|a p IH]; intros s H; simpl; [lia|].
  destruct s as [|c s]; [discriminate|]. simpl in *.
  apply andb_true_iff in H. destruct H as [_ H]. apply IH in H. lia.
Qed.

Lemma skipn_app_long (n : nat) (l x : str) :
  (n <= length l)%nat -> skipn n (l ++ x) = skipn n l ++ x.
Proof.
  intros H. rewrite skipn_app. replace (n - length l)%nat with 0%nat by lia.
  reflexivity.
Qed.

Lemma skipn_In (n : nat) (l : str) (x : char) : In x (skipn n l) -> In x l.
Proof.
  revert l. induction n as [|n IH]; intros l H; [exact H|].
  destruct l as [|c l]; [exact H|]. right. now apply IH.
Qed.

(** After tools: something other than blanks must not come before the
    end of the line. *)
Lemma toolsContinuation_nonspace (u x : str) :
  ~ In 10%N u -> forallb isSpace u = false -> toolsContinuation (u ++ x) = None.
Proof.
  induction u as [|d u IH]; intros Hn Hs; [discriminate|].
  simpl app. cbn [toolsContinuation]. destruct (isSpace d) eqn:E; [|reflexivity].
  simpl in Hs. rewrite E in Hs. simpl in Hs.
  rewrite IH; [|intros H; apply Hn; now right|exact Hs].
  destruct (N.eqb_spec d 10) as [->|_]; [exfalso; apply Hn; now left|reflexivity].
Qed.

Lemma findTools_line (line rest : str) :
  ~ In 10%N line -> toolsSuffix line = false ->
  findTools (line ++ 10%N :: rest) = findTools rest.
Proof.
  induction line as [|c line IH]; intros Hn Hs.
  - reflexivity.
  - cbn [toolsSuffix] in Hs. apply orb_false_iff in Hs. destruct Hs as [Hs1 Hs2].
    simpl app. cbn [findTools].
    change (c :: line ++ 10%N :: rest) with ((c :: line) ++ 10%N :: rest).
    rewrite startsWith_before_newline by (vm_compute; intuition discriminate).
    destruct (startsWith (lit "tools:") (c :: line)) eqn:E.
    + simpl in Hs1.
      rewrite skipn_app_long by (apply startsWith_length in E; exact E).
      rewrite toolsContinuation_nonspace.
      * apply IH; [intros H; apply Hn; now right|exact Hs2].
      * intros H. apply Hn.
        apply (skipn_In 6 (c :: line)). exact H.
      * exact Hs1.
    + apply IH; [intros H; apply Hn; now right|exact Hs2].
Qed.

Lemma join_unlines (lines : list str) :
  lines <> [] -> join nl lines ++ nl = unlines lines.
Proof.
  induction lines as [|l lines IH]; intros Hne; [congruence|].
  destruct lines as [|l2 lines].
  - simpl. now rewrite app_nil_r.
  - change (join nl (l :: l2 :: lines)) with (l ++ nl ++ join nl (l2 :: lines)).
    change (unlines (l :: l2 :: lines)) with ((l ++ nl) ++ unlines (l2 :: lines)).
    rewrite <- IH by discriminate. now rewrite <- !app_assoc.
Qed.

Lemma unlines_app (a b : list str) : unlines (a ++ b) = unlines a ++ unlines b.
Proof. apply flat_map_app. Qed.

Lemma unlines_length (lines : list str) : (length lines <= length (unlines lines))%nat.
Proof.
  induction lines as [|l lines IH]; simpl; [lia|].
  rewrite !length_app. simpl. lia.
Qed.

(** The search passes over lines that do not end with tools: *)
Lemma findTools_unlines (lines : list str) (rest : str) :
  (forall l, In l lines -> noTerminator l = true /\ toolsSuffix l = false) ->
  findTools (unlines lines ++ rest) = findTools rest.
Proof.
  induction lines as [|l lines IH]; intros Hl; [reflexivity|].
  destruct (Hl l (or_introl eq_refl)) as [Hn Ht].
  change (unlines (l :: lines)) with ((l ++ nl) ++ unlines lines).
  rewrite <- !app_assoc.
  change (l ++ nl ++ unlines lines ++ rest) with (l ++ 10%N :: (unlines lines ++ rest)).
  rewrite findTools_line;
    [|now apply noTerminator_not_In|exact Ht].
  apply IH. intros x Hx. apply Hl. now right.
Qed.

Lemma quiet_lines (props : JSObject.t Value) (l : str) :
  forallb fieldOK props = true -> forallb quietField props = true ->
  In l (flat_map serializeEntry props) ->
  noTerminator l = true /\ toolsSuffix l = false.
Proof.
  rewrite !forallb_forall. intros Hf Hq Hin.
  apply in_flat_map in Hin. destruct Hin as [kv [Hkv Hl]]. split.
  - now destruct (lineOK_entry kv l (Hf kv Hkv) Hl).
  - exact (quiet_entry kv l (Hf kv Hkv) (Hq kv Hkv) Hl).
Qed.

Lemma lines_nonempty (props : JSObject.t Value) :
  props <> [] -> flat_map serializeEntry props <> [].
Proof.
  destruct props as [|kv props]; [congruence|]. intros _. simpl.
  pose proof (serializeEntry_nonempty kv).
  destruct (serializeEntry kv); [congruence|discriminate].
Qed.

(** The text in which [parseAgent] searches a serialized file. *)
Lemma toolsMatch_text (props : JSObject.t Value) (b : str) :
  props <> [] ->
  toolsMatch (wrapFrontmatter (serializeFrontmatter (mkFrontmatter None props)) b)
  = findTools (unlines (flat_map serializeEntry props) ++ lit "---" ++ nl ++ b).
Proof.
  intros Hne. unfold toolsMatch, wrapFrontmatter, serializeFrontmatter. cbn [fm_props].
  set (lines := flat_map serializeEntry props).
  change (findOpen true (lit "---" ++ nl ++ join nl lines ++ nl ++ lit "---" ++ nl ++ b))
    with (Some (join nl lines ++ nl ++ lit "---" ++ nl ++ b)).
  cbv iota beta. rewrite app_assoc. rewrite join_unlines; [reflexivity|].
  now apply lines_nonempty.
Qed.

(** In a serialized file without a list of tools the search reaches the
    body. *)
Lemma toolsMatch_quiet (props : JSObject.t Value) (b : str) :
  props <> [] -> forallb fieldOK props = true -> forallb quietField props = true ->
  toolsMatch (wrapFrontmatter (serializeFrontmatter (mkFrontmatter None props)) b)
  = findTools b.
Proof.
  intros Hne Hf Hq. rewrite toolsMatch_text by exact Hne.
  rewrite findTools_unlines by (intros l Hin; now apply (quiet_lines props)).
  change (lit "---" ++ nl ++ b) with (lit "---" ++ 10%N :: b).
  apply findTools_line; [vm_compute; intuition discriminate|reflexivity].
Qed.

(* --- the list of tools of a serialized file --- *)

Lemma dropWhile_app (p : char -> bool) (a b : str) :
  forallb p a = true -> headIs p b = false -> dropWhile p (a ++ b) = b.
Proof. intros Ha Hb. unfold dropWhile. now rewrite span_stop. Qed.

Lemma itemTail_line (c : char) (v R : str) :
  isSpace c = false -> noTerminator (c :: v) = true ->
  itemTail (32%N :: c :: v ++ 10%N :: R) = Some R.
Proof.
  intros Hc Hv. unfold itemTail. cbn [span]. change (isSpace 32%N) with true.
  rewrite Hc. cbv iota beta.
  change (c :: v ++ 10%N :: R) with ((c :: v) ++ 10%N :: R).
  rewrite dropWhile_app; [reflexivity|exact Hv|reflexivity].
Qed.

(** One item line, as the regular expression consumes it. *)
Lemma item_line (i R : str) :
  noTerminator i = true -> item (itemLine i ++ nl ++ R) = Some R.
Proof.
  intros Hi.
  change (item (itemLine i ++ nl ++ R))
    with (itemTail (32%N :: quote :: (i ++ [quote]) ++ 10%N :: R)).
  apply itemTail_line; [reflexivity|].
  change (quote :: i ++ [quote]) with ([quote] ++ i ++ [quote]).
  now rewrite !noTerminator_app, Hi.
Qed.

Lemma item_nonspace (c : char) (r : str) : isSpace c = false -> item (c :: r) = None.
Proof. intros H. unfold item. simpl. now rewrite H. Qed.

Lemma moreItems_lines (fuel : nat) (items : list str) (T : str) :
  forallb itemOK items = true -> (length items <= fuel)%nat -> item T = None ->
  moreItems fuel (unlines (map itemLine items) ++ T) = T.
Proof.
  revert fuel. induction items as [|i items IH]; intros fuel Hok Hfuel HT.
  - simpl. destruct fuel; [reflexivity|]. cbn [moreItems]. now rewrite HT.
  - simpl in Hok. apply andb_true_iff in Hok. destruct Hok as [Hi Hok].
    destruct fuel as [|fuel]; [simpl in Hfuel; lia|].
    cbn [moreItems map].
    change (unlines (itemLine i :: map itemLine items))
      with ((itemLine i ++ nl) ++ unlines (map itemLine items)).
    rewrite <- !app_assoc.
    rewrite item_line by now destruct (itemOK_inv i Hi).
    apply IH; [exact Hok|simpl in Hfuel; lia|exact HT].
Qed.

Lemma itemsGroup_lines (items : list str) (T : str) :
  items <> [] -> forallb itemOK items = true -> item T = None ->
  itemsGroup (unlines (map itemLine items) ++ T) = Some (unlines (map itemLine items)).
Proof.
  intros Hne Hok HT. destruct items as [|i items]; [congruence|].
  pose proof Hok as Hok'. simpl in Hok'. apply andb_true_iff in Hok'.
  destruct Hok' as [Hi Hok'].
  unfold itemsGroup. cbn [map].
  change (unlines (itemLine i :: map itemLine items))
    with ((itemLine i ++ nl) ++ unlines (map itemLine items)).
  rewrite <- !app_assoc.
  rewrite item_line by now destruct (itemOK_inv i Hi).
  rewrite moreItems_lines; [|exact Hok'| |exact HT].
  - f_equal. rewrite !app_assoc.
    rewrite length_app, Nat.add_sub. rewrite <- app_assoc.
    rewrite firstn_app, Nat.sub_diag, firstn_all. simpl. now rewrite app_nil_r.
  - rewrite length_app. pose proof (unlines_length (map itemLine items)) as H.
    rewrite length_map in H. lia.
Qed.

(** After tools: the list begins on the next line. *)
Lemma toolsContinuation_list (i R : str) :
  toolsContinuation (nl ++ itemLine i ++ R) = itemsGroup (itemLine i ++ R).
Proof. reflexivity. Qed.

Lemma split_unlines (lines : list str) :
  (forall l, In l lines -> ~ In 10%N l) -> split 10%N (unlines lines) = lines ++ [[]].
Proof.
  unfold split. induction lines as [|l lines IH]; intros Hl; [reflexivity|].
  change (unlines (l :: lines)) with ((l ++ nl) ++ unlines lines).
  rewrite <- app_assoc. change (l ++ nl ++ unlines lines) with (l ++ 10%N :: unlines lines).
  rewrite split_aux_line by (apply Hl; now left). simpl rev. simpl app.
  f_equal. apply IH. intros x Hx. apply Hl. now right.
Qed.

Lemma itemLine_trim (i : str) : trim (itemLine i) = 45%N :: 32%N :: quote :: i ++ [quote].
Proof.
  change (trim (itemLine i)) with (trimEnd (45%N :: 32%N :: quote :: i ++ [quote])).
  apply trimEnd_id.
  change (45%N :: 32%N :: quote :: i ++ [quote])
    with ((45%N :: 32%N :: quote :: i) ++ [quote]).
  now rewrite lastIs_snoc.
Qed.

Lemma itemLine_dash (i : str) : startsWith (lit "-") (trim (itemLine i)) = true.
Proof. now rewrite itemLine_trim. Qed.

Lemma tool_of_line (i : str) :
  itemOK i = true -> trim (stripQuotes (removeItemPrefix (itemLine i))) = i.
Proof.
  intros Hi. unfold removeItemPrefix. rewrite itemLine_prefix. now apply item_value.
Qed.

(** The tools [parseAgent] reads from the serialized list are the items. *)
Lemma toolsOf_lines (items : list str) :
  forallb itemOK items = true -> toolsOf (unlines (map itemLine items)) = items.
Proof.
  intros Hok. unfold toolsOf. rewrite split_unlines.
  - rewrite filter_app. cbn [filter]. change (trim []) with (@nil char).
    change (startsWith (lit "-") []) with false. cbv iota. rewrite app_nil_r.
    induction items as [|i items IH]; [reflexivity|].
    simpl in Hok. apply andb_true_iff in Hok. destruct Hok as [Hi Hok].
    cbn [map filter]. rewrite itemLine_dash. cbn [map filter].
    rewrite tool_of_line by exact Hi.
    destruct (itemOK_inv i Hi) as [_ [Hne _]].
    destruct i as [|c i]; [congruence|]. cbn [length Nat.eqb negb].
    f_equal. now apply IH.
  - intros l Hin. apply in_map_iff in Hin. destruct Hin as [i [<- Hin]].
    rewrite forallb_forall in Hok.
    destruct (lineOK_item i (Hok i Hin)) as [Ht _].
    now apply noTerminator_not_In.
Qed.

Lemma findTools_here (R : str) :
  findTools (lit "tools:" ++ R)
  = match toolsContinuation R with
    | Some g => Some g
    | None => findTools (lit "ools:" ++ R)
    end.
Proof. reflexivity. Qed.

(** In a serialized file with a list of tools the search finds that list. *)
Lemma toolsMatch_listed (pre post : JSObject.t Value) (items : list str) (b : str) :
  let props := pre ++ (lit "tools", VArr items) :: post in
  forallb fieldOK props = true -> forallb quietField pre = true ->
  toolsMatch (wrapFrontmatter (serializeFrontmatter (mkFrontmatter None props)) b)
  = Some (unlines (map itemLine items)).
Proof.
  intros props Hf Hq. subst props.
  rewrite toolsMatch_text by (destruct pre; discriminate).
  rewrite forallb_app in Hf. cbn [forallb] in Hf. rewrite !andb_true_iff in Hf.
  destruct Hf as [Hpre [Htools Hpost]].
  destruct (fieldOK_inv _ Htools)
    as [_ [[s [Hs _]]|[[items' [Hs [Hne [Hok _]]]]|[es [Hs _]]]]];
    cbn [snd] in Hs; try discriminate.
  inversion Hs; subst items'. clear Hs.
  rewrite flat_map_app. cbn [flat_map serializeEntry].
  rewrite unlines_app, <- app_assoc.
  rewrite findTools_unlines by (intros l Hin; now apply (quiet_lines pre)).
  change (map (fun item => lit "  - " ++ [quote] ++ item ++ [quote]) items)
    with (map itemLine items).
  change (unlines (((lit "tools" ++ lit ":") :: map itemLine items)
                   ++ flat_map serializeEntry post))
    with (lit "tools:" ++ nl
          ++ unlines (map itemLine items ++ flat_map serializeEntry post)).
  rewrite unlines_app, <- !app_assoc.
  set (T := unlines (flat_map serializeEntry post) ++ lit "---" ++ nl ++ b).
  assert (item T = None) as HT.
  { subst T. destruct post as [|kv2 post]; [reflexivity|].
    cbn [forallb] in Hpost. apply andb_true_iff in Hpost.
    destruct (entry_head kv2 (proj1 Hpost)) as [c [r [rest [E Hc]]]].
    cbn [flat_map]. rewrite E. apply item_nonspace. now apply isWord_not_space. }
  rewrite findTools_here.
  destruct items as [|i items]; [congruence|].
  assert (unlines (map itemLine (i :: items)) ++ T
          = itemLine i ++ nl ++ unlines (map itemLine items) ++ T) as E.
  { change (unlines (map itemLine (i :: items)))
      with ((itemLine i ++ nl) ++ unlines (map itemLine items)).
    now rewrite <- !app_assoc. }
  rewrite E, toolsContinuation_list, <- E.
  now rewrite itemsGroup_lines.
Qed.


Lemma findClose_suffix (r g rest : str) :
  findClose r = Some (g, rest) -> exists a, r = a ++ rest.
Proof.
  revert g. induction r as [|c r IH]; intros g; cbn [findClose].
  - simpl. discriminate.
  - destruct (matchClose (c :: r)) as [x|] eqn:E.
    + intros H. inversion H; subst.
      unfold matchClose in E.
      repeat match type of E with
             | match ?l with _ => _ end = _ => destruct l; try discriminate
             | context [match ?n with _ => _ end] => destruct n; try discriminate
             end;
        inversion E; subst; eexists; simpl; reflexivity || (instantiate (1 := [_; _; _; _]); reflexivity)
        || (instantiate (1 := [_; _; _; _; _]); reflexivity).
    + destruct (findClose r) as [[g' rest']|]; [|discriminate].
      intros H. inversion H; subst.
      destruct (IH g' eq_refl) as [a ->]. now exists (c :: a).
Qed.

End ToolsSearch.

(* ------------------------------------------------------------------------- *)
(** ** Stamping a canonical frontmatter *)

Section ObjectShapes.
Import JS JSObject.

Variable V : Type.
Implicit Types (o : t V) (k : str) (v : V).

Lemma replace_same k v o : get k o = Some v -> replace k v o = o.
Proof.
  induction o as [|[k1 v1] o IH]; simpl; [reflexivity|].
  destruct (str_eqb k k1) eqn:E.
  - intros H. inversion H. apply str_eqb_eq in E. now subst.
  - intros H. now rewrite IH.
Qed.

(** Writing the value a property already has changes nothing. *)
Lemma set_same k v o : get k o = Some v -> set k v o = o.
Proof.
  intros H. unfold set.
  assert (mem k o = true) as ->.
  { destruct (mem k o) eqn:E; [reflexivity|].
    apply get_None_mem in E. congruence. }
  now apply replace_same.
Qed.







End ObjectShapes.

Section StampShape.
Import JS Agents Canonical.






Lemma keyOK_metadata : keyOK (lit "metadata") = true.
Proof. reflexivity. Qed.

Lemma nestedOK_true : nestedOK (lit "true") = true.
Proof. reflexivity. Qed.








Lemma serializable_inv (props : JSObject.t Value) :
  serializable props = true ->
  forallb fieldOK props = true /\ NoDup (JSObject.keys props).
Proof.
  unfold serializable. rewrite andb_true_iff. intros [H1 H2].
  split; [exact H1|now apply nodupb_NoDup].
Qed.







End StampShape.

(* ------------------------------------------------------------------------- *)
(** ** The order of keys *)

Section OrderFacts.
Import JS SkillMetadata.

Lemma str_leb_total (a b : str) : str_leb a b = false -> str_leb b a = true.
Proof.
  revert b. induction a as [|x a IH]; intros [|y b]; simpl; try discriminate; auto.
  destruct (N.ltb_spec x y); [discriminate|].
  destruct (N.eqb_spec x y) as [->|Hne].
  - rewrite N.ltb_irrefl, N.eqb_refl. apply IH.
  - intros _. destruct (N.ltb_spec y x); [reflexivity|lia].
Qed.

Lemma str_leb_antisym (a b : str) :
  str_leb a b = true -> str_leb b a = true -> a = b.
Proof.
  revert b. induction a as [|x a IH]; intros [|y b]; simpl; try discriminate; auto.
  destruct (N.ltb_spec x y).
  - destruct (N.ltb_spec y x); [lia|]. destruct (N.eqb_spec y x); [lia|discriminate].
  - destruct (N.eqb_spec x y) as [->|]; [|discriminate].
    rewrite N.ltb_irrefl, N.eqb_refl. intros H1 H2. f_equal. now apply IH.
Qed.

Lemma str_leb_trans (a b c : str) :
  str_leb a b = true -> str_leb b c = true -> str_leb a c = true.
Proof.
  revert b c.
  induction a as [|x a IH]; intros [|y b] [|z c]; simpl; try discriminate; auto.
  destruct (N.ltb_spec x y).
  - intros _. destruct (N.ltb_spec y z).
    + intros _. destruct (N.ltb_spec x z); [reflexivity|lia].
    + destruct (N.eqb_spec y z) as [->|]; [|discriminate]. intros _.
      destruct (N.ltb_spec x z); [reflexivity|lia].
  - destruct (N.eqb_spec x y) as [->|]; [|discriminate]. intros H1.
    destruct (N.ltb_spec y z); [reflexivity|].
    destruct (N.eqb_spec y z) as [->|]; [|discriminate]. now apply IH.
Qed.

Variable V : Type.
Implicit Types (x y e : str * V) (o : JSObject.t V).

(** Two fields of different keys go to their places in either order. *)
Lemma insertByKey_comm x y o :
  fst x <> fst y -> insertByKey x (insertByKey y o) = insertByKey y (insertByKey x o).
Proof.
  intros Hne.
  assert (Hxy : str_leb (fst x) (fst y) = true -> str_leb (fst y) (fst x) = false).
  { intros H. destruct (str_leb (fst y) (fst x)) eqn:E; [|reflexivity].
    exfalso. apply Hne. now apply str_leb_antisym. }
  induction o as [|e o IH]; cbn [insertByKey].
  - destruct (str_leb (fst x) (fst y)) eqn:Exy.
    + now rewrite (Hxy eq_refl).
    + now rewrite (str_leb_total _ _ Exy).
  - destruct (str_leb (fst y) (fst e)) eqn:Eye, (str_leb (fst x) (fst e)) eqn:Exe;
      cbn [insertByKey]; rewrite ?Eye, ?Exe.
    + destruct (str_leb (fst x) (fst y)) eqn:Exy.
      * now rewrite (Hxy eq_refl), ?Eye.
      * now rewrite (str_leb_total _ _ Exy), ?Exe.
    + destruct (str_leb (fst x) (fst y)) eqn:Exy; [|reflexivity].
      rewrite (str_leb_trans _ _ _ Exy Eye) in Exe. discriminate.
    + destruct (str_leb (fst y) (fst x)) eqn:Eyx; [|reflexivity].
      rewrite (str_leb_trans _ _ _ Eyx Exe) in Eye. discriminate.
    + now rewrite IH.
Qed.

(** Fields of distinct keys have one sorted list, whatever their order. *)
Lemma sortByKey_perm (o1 o2 : JSObject.t V) :
  Permutation o1 o2 -> NoDup (JSObject.keys o1) -> sortByKey o1 = sortByKey o2.
Proof.
  induction 1 as [|x l l' Hp IH|x y l|l l' l'' H1 IH1 H2 IH2]; intros Hd.
  - reflexivity.
  - cbn [sortByKey fold_right]. fold (sortByKey l). fold (sortByKey l').
    rewrite IH; [reflexivity|]. cbn in Hd. now inversion Hd.
  - cbn [sortByKey fold_right]. apply insertByKey_comm.
    cbn in Hd. inversion Hd as [|? ? Hn _]. subst. intros E. apply Hn. now left.
  - rewrite IH1 by exact Hd. apply IH2.
    unfold JSObject.keys in *.
    eapply Permutation_NoDup; [apply Permutation_map; exact H1|exact Hd].
Qed.

End OrderFacts.

(* ------------------------------------------------------------------------- *)
(** ** Frontmatter in any key order *)

Section ReadableFacts.
Import JS Agents Canonical.

















End ReadableFacts.

Section StripShape.
Import JS Agents Canonical SkillMetadata.

Variable JSON_parse : str -> option (list str).




(** Stripping a field leaves it out or leaves one field of the same key. *)
Lemma stripField_one (p : str) (kv : str * Value) :
  stripField p kv = [] \/ exists v, stripField p kv = [(fst kv, v)].
Proof.
  destruct kv as [k v]. unfold stripField. cbn [fst snd].
  destruct v as [s|items|es]; [right; eauto|right; eauto|].
  destruct (str_eqb k (lit "metadata")); [|right; eauto].
  cbv zeta. destruct es as [|e es]; [right; eauto|].
  destruct (filter _ (e :: es)); [now left|right; eauto].
Qed.

Lemma stripField_keys (p k : str) (props : JSObject.t Value) :
  In k (JSObject.keys (flat_map (stripField p) props)) -> In k (JSObject.keys props).
Proof.
  unfold JSObject.keys. induction props as [|kv props IH]; cbn [flat_map map]; [auto|].
  rewrite map_app. intros H. apply in_app_or in H. destruct H as [H|H].
  - destruct (stripField_one p kv) as [E|[v E]]; rewrite E in H.
    + destruct H.
    + destruct H as [H|[]]. now left.
  - right. now apply IH.
Qed.

Lemma stripField_NoDup (p : str) (props : JSObject.t Value) :
  NoDup (JSObject.keys props) -> NoDup (JSObject.keys (flat_map (stripField p) props)).
Proof.
  induction props as [|kv props IH]; cbn [flat_map]; [auto|].
  unfold JSObject.keys in *. cbn [map]. intros Hd. inversion Hd as [|? ? Hn Hd']. subst.
  rewrite map_app.
  destruct (stripField_one p kv) as [E|[v E]]; rewrite E; cbn [map app].
  - now apply IH.
  - constructor; [|now apply IH]. intros H. apply Hn.
    now apply (@stripField_keys p (fst kv) props).
Qed.

(** The stripped fields do not depend on the order of the fields. *)
Lemma stripped_order (p : str) (props1 props2 : JSObject.t Value) :
  Permutation props1 props2 -> NoDup (JSObject.keys props1) ->
  sortByKey (flat_map (stripField p) props1) = sortByKey (flat_map (stripField p) props2).
Proof.
  intros Hp Hd. apply sortByKey_perm.
  - now apply Permutation_flat_map.
  - now apply stripField_NoDup.
Qed.

(** The stripped form of a file with frontmatter. *)
Lemma stripManagedMetadata_parsed (X p b : str) (fm : AgentFrontmatter) :
  parseFrontmatter JSON_parse X = (Some fm, b) ->
  stripManagedMetadata JSON_parse X p
  = wrapFrontmatter
      (serializeFrontmatter
         (mkFrontmatter (fm_proto fm)
            (sortByKey (flat_map (stripField p) (fm_props fm)))))
      b.
Proof. intros Hp. unfold stripManagedMetadata. now rewrite Hp. Qed.

(** Files that differ in the order of their fields have one content hash. *)
Lemma computeContentHash_order (X1 X2 p b : str) (proto : option Value)
      (props1 props2 : JSObject.t Value) :
  parseFrontmatter JSON_parse X1 = (Some (mkFrontmatter proto props1), b) ->
  parseFrontmatter JSON_parse X2 = (Some (mkFrontmatter proto props2), b) ->
  Permutation props1 props2 -> NoDup (JSObject.keys props1) ->
  computeContentHash JSON_parse X1 p = computeContentHash JSON_parse X2 p.
Proof.
  intros H1 H2 Hp Hd. unfold computeContentHash. cbv zeta.
  rewrite (@stripManagedMetadata_parsed X1 p b _ H1).
  rewrite (@stripManagedMetadata_parsed X2 p b _ H2).
  cbn [fm_proto fm_props]. now rewrite (@stripped_order p props1 props2 Hp Hd).
Qed.



Lemma skipLineEnd_suffix (s : str) : exists a, s = a ++ skipLineEnd s.
Proof.
  assert (forall t : str,
             exists a, t = a ++ match t with 10%N :: r => r | _ => t end) as Hnl.
  { intros [|c t]; [now exists []|].
    destruct (N.eqb_spec c 10) as [->|Hc]; [now exists [10%N]|].
    exists []. destruct c as [|c]; [reflexivity|].
    do 4 (try destruct c as [c|c|]); try reflexivity. congruence. }
  destruct s as [|c s]; [now exists []|].
  destruct (N.eqb_spec c 13) as [->|Hc].
  - destruct (Hnl s) as [a Ha]. exists (13%N :: a). unfold skipLineEnd.
    simpl. now f_equal.
  - destruct (Hnl (c :: s)) as [a Ha]. exists a.
    replace (skipLineEnd (c :: s))
      with (match c :: s with 10%N :: r => r | _ => c :: s end); [exact Ha|].
    unfold skipLineEnd. destruct c as [|c]; [reflexivity|].
    do 4 (try destruct c as [c|c|]); try reflexivity. congruence.
Qed.




Lemma toolsListed_quiet (props : JSObject.t Value) :
  NoDup (JSObject.keys props) -> toolsListed props = false ->
  forallb quietField props = true.
Proof.
  intros Hd Ht. apply forallb_forall. intros [k v] Hin. unfold quietField.
  destruct v as [s|items|es]; try reflexivity. cbn [fst snd].
  destruct (str_eqb k (lit "tools")) eqn:E; [|reflexivity].
  apply str_eqb_eq in E. subst k.
  unfold toolsListed in Ht. now rewrite (@get_In _ _ _ _ Hd Hin) in Ht.
Qed.

Lemma fresh_quiet (k : str) (pre : JSObject.t Value) :
  ~ In k (JSObject.keys pre) ->
  forallb (fun kv => negb (str_eqb (fst kv) k)) pre = true.
Proof.
  intros Hn. apply forallb_forall. intros [k1 v1] Hin. cbn [fst].
  apply negb_true_iff, str_eqb_neq. intros ->. apply Hn.
  now apply (in_map fst) in Hin.
Qed.

Lemma toolsListed_split (props : JSObject.t Value) :
  toolsListed props = true ->
  exists pre items post,
    props = pre ++ (lit "tools", VArr items) :: post
    /\ forallb quietField pre = true.
Proof.
  unfold toolsListed. destruct (JSObject.get (lit "tools") props) as [[s|items|es]|] eqn:E;
    try discriminate.
  intros _. destruct (get_split _ _ E) as [pre [post [-> Hn]]].
  exists pre, items, post. split; [reflexivity|].
  apply forallb_forall. intros [k v] Hin. unfold quietField. cbn [fst snd].
  destruct v; try reflexivity.
  apply negb_true_iff, str_eqb_neq. intros ->. apply Hn.
  now apply (in_map fst) in Hin.
Qed.

(** [parseAgent] reads a serialized file back: its fields, with the list
    of tools they hold, and its body. *)
Lemma parseAgent_serialized (props : JSObject.t Value) (b path : str) :
  props <> [] -> serializable props = true ->
  toolsListed props = true \/ findTools b = None ->
  parseAgent JSON_parse
    (wrapFrontmatter (serializeFrontmatter (mkFrontmatter None props)) b) path
  = mkAgent path (wrapFrontmatter (serializeFrontmatter (mkFrontmatter None props)) b)
      (Some (mkFrontmatter None props)) b.
Proof.
  intros Hne Hs Ht. unfold parseAgent.
  rewrite (parseFrontmatter_serialized JSON_parse b Hne Hs).
  destruct (serializable_inv _ Hs) as [Hf Hd].
  destruct (toolsListed props) eqn:El.
  - destruct (toolsListed_split props El) as [pre [items [post [-> Hq]]]].
    rewrite (toolsMatch_listed pre post items b Hf Hq).
    rewrite forallb_app in Hf. cbn [forallb] in Hf. rewrite !andb_true_iff in Hf.
    destruct Hf as [_ [Htools _]].
    destruct (fieldOK_inv _ Htools)
      as [_ [[s [E _]]|[[items' [E [Hi [Hok _]]]]|[es [E _]]]]];
      cbn [snd] in E; try discriminate.
    inversion E; subst items'. clear E.
    rewrite toolsOf_lines by exact Hok.
    destruct items as [|i items]; [congruence|]. cbn [length Nat.eqb negb].
    unfold assign. change (str_eqb (lit "tools") proto_key) with false.
    cbn [fm_proto fm_props]. rewrite set_same; [reflexivity|].
    apply get_middle. unfold JSObject.keys in Hd. rewrite map_app in Hd.
    simpl in Hd. apply NoDup_remove_2 in Hd. intros H. apply Hd.
    apply in_or_app. now left.
  - destruct Ht as [Ht|Ht]; [discriminate|].
    rewrite (toolsMatch_quiet b Hne Hf (toolsListed_quiet props Hd El)).
    now rewrite Ht.
Qed.










End StripShape.





(* ------------------------------------------------------------------------- *)
(** ** Parsing the targets option *)

Section TargetParsingFacts.
Import JS Targets TargetParsing.

Lemma isValidTarget_names (x : str) :
  isValidTarget x = true <-> x = lit "claude" \/ x = lit "codex".
Proof.
  unfold isValidTarget, supportedNames. cbn [map SUPPORTED_TARGETS targetName existsb].
  rewrite !orb_true_iff, !str_eqb_eq. intuition congruence.
Qed.

Lemma existsb_In (x : str) (l : list str) :
  existsb (fun t => str_eqb t x) l = true <-> In x l.
Proof.
  rewrite existsb_exists. split.
  - intros [y [Hy E]]. apply str_eqb_eq in E. now subst.
  - intros H. exists x. split; [exact H|apply str_eqb_refl].
Qed.

(** The inner loop keeps the targets found so far and adds the new ones. *)
Lemma addParts_returns (parts targets r : list str) :
  addParts parts targets = Returns r ->
  NoDup targets ->
  NoDup r
  /\ forallb isValidTarget parts = true
  /\ (forall x, In x r <-> In x targets \/ In x parts).
Proof.
  revert targets. induction parts as [|p parts IH]; intros targets H Hd.
  - simpl in H. inversion H; subst. repeat split; auto; simpl; tauto.
  - cbn [addParts] in H. destruct (isValidTarget p) eqn:Ev; [|discriminate].
    cbn [negb] in H.
    destruct (existsb (fun t => str_eqb t p) targets) eqn:Ein; cbn [negb] in H.
    + apply existsb_In in Ein. destruct (IH _ H Hd) as [H1 [H2 H3]].
      split; [exact H1|]. split; [simpl; now rewrite Ev, H2|].
      intros x. rewrite H3. simpl. intuition (subst; auto).
    + assert (~ In p targets) as Hn.
      { intros Hin. apply existsb_In in Hin. congruence. }
      assert (NoDup (targets ++ [p])) as Hd'.
      { apply NoDup_app; [exact Hd|repeat constructor; auto|].
        intros a Ha [<-|[]]. contradiction. }
      destruct (IH _ H Hd') as [H1 [H2 H3]].
      split; [exact H1|]. split; [simpl; now rewrite Ev, H2|].
      intros x. rewrite H3, in_app_iff. simpl. tauto.
Qed.

Lemma addParts_valid (parts targets : list str) :
  forallb isValidTarget parts = true -> exists r, addParts parts targets = Returns r.
Proof.
  revert targets. induction parts as [|p parts IH]; intros targets H.
  - now exists targets.
  - simpl in H. apply andb_true_iff in H. destruct H as [Hp H].
    cbn [addParts]. rewrite Hp. cbn [negb]. apply IH, H.
Qed.

Lemma addParts_invalid (pre post targets : list str) (part : str) :
  forallb isValidTarget pre = true -> isValidTarget part = false ->
  addParts (pre ++ part :: post) targets = Throws (invalidTarget part).
Proof.
  revert targets. induction pre as [|p pre IH]; intros targets H Hp.
  - cbn [app addParts]. now rewrite Hp.
  - simpl in H. apply andb_true_iff in H. destruct H as [Hv H].
    cbn [app addParts]. rewrite Hv. cbn [negb]. now apply IH.
Qed.

(** [split] always gives at least one part. *)
Lemma split_nonempty (sep : char) (s : str) : split sep s <> [].
Proof.
  unfold split. generalize (@nil char). induction s as [|c s IH]; intros cur; simpl.
  - discriminate.
  - destruct (N.eqb c sep); [discriminate|apply IH].
Qed.

Variable toLowerCase : str -> str.

Lemma parseFrom_returns (input targets r : list str) :
  parseFrom toLowerCase input targets = Returns r ->
  NoDup targets ->
  NoDup r
  /\ forallb isValidTarget (flat_map (partsOf toLowerCase) input) = true
  /\ (forall x, In x r <-> In x targets \/ In x (flat_map (partsOf toLowerCase) input)).
Proof.
  revert targets. induction input as [|t input IH]; intros targets H Hd.
  - simpl in H. inversion H; subst. repeat split; auto; simpl; tauto.
  - cbn [parseFrom] in H.
    destruct (addParts (partsOf toLowerCase t) targets) as [t1|e] eqn:E;
      [|discriminate].
    cbn [bind] in H. destruct (@addParts_returns _ _ _ E Hd) as [A1 [A2 A3]].
    destruct (IH _ H A1) as [H1 [H2 H3]].
    split; [exact H1|]. cbn [flat_map]. split.
    + now rewrite forallb_app, A2, H2.
    + intros x. rewrite H3, A3, in_app_iff. tauto.
Qed.

Lemma parseFrom_valid (input targets : list str) :
  forallb isValidTarget (flat_map (partsOf toLowerCase) input) = true ->
  exists r, parseFrom toLowerCase input targets = Returns r.
Proof.
  revert targets. induction input as [|t input IH]; intros targets H.
  - now exists targets.
  - cbn [flat_map] in H. rewrite forallb_app in H. apply andb_true_iff in H.
    destruct H as [Ht H]. cbn [parseFrom].
    destruct (@addParts_valid _ targets Ht) as [t1 ->]. cbn [bind]. now apply IH.
Qed.

Lemma parseFrom_invalid (input pre post targets : list str) (part : str) :
  flat_map (partsOf toLowerCase) input = pre ++ part :: post ->
  forallb isValidTarget pre = true -> isValidTarget part = false ->
  parseFrom toLowerCase input targets = Throws (invalidTarget part).
Proof.
  revert pre targets. induction input as [|t input IH]; intros pre targets E Hpre Hp.
  - simpl in E. destruct pre; discriminate.
  - cbn [flat_map] in E. cbn [parseFrom].
    destruct (forallb isValidTarget (partsOf toLowerCase t)) eqn:Et.
    + destruct (@addParts_valid _ targets Et) as [t1 ->]. cbn [bind].
      (* the invalid part lies in a later element *)
      assert (exists pre', pre = partsOf toLowerCase t ++ pre'
                           /\ flat_map (partsOf toLowerCase) input = pre' ++ part :: post)
        as [pre' [-> E']].
      { clear IH t1. revert pre E Hpre.
        induction (partsOf toLowerCase t) as [|q qs IHq]; intros pre E Hpre.
        - exists pre. split; [reflexivity|exact E].
        - simpl in Et. apply andb_true_iff in Et. destruct Et as [Hq Et].
          destruct pre as [|a pre].
          + simpl in E. inversion E; subst. congruence.
          + simpl in E. inversion E; subst. simpl in Hpre.
            apply andb_true_iff in Hpre. destruct Hpre as [_ Hpre].
            destruct (IHq Et pre H1 Hpre) as [pre' [-> E']].
            exists pre'. split; [reflexivity|exact E']. }
      rewrite forallb_app in Hpre. apply andb_true_iff in Hpre.
      now apply (IH pre' t1 E').
    + (* the invalid part lies in this element *)
      assert (exists a b, partsOf toLowerCase t = pre ++ part :: b
                          /\ a = b) as [_ [b [Eb _]]].
      { clear IH. revert pre E Hpre.
        induction (partsOf toLowerCase t) as [|q qs IHq]; intros pre E Hpre;
          [discriminate|].
        simpl in Et. destruct pre as [|a pre].
        - simpl in E. inversion E; subst. exists qs, qs. split; reflexivity.
        - simpl in E. inversion E; subst. simpl in Hpre.
          apply andb_true_iff in Hpre. destruct Hpre as [Ha Hpre].
          rewrite Ha in Et. simpl in Et.
          destruct (IHq Et pre H1 Hpre) as [x [b [-> _]]].
          exists b, b. split; reflexivity. }
      rewrite Eb, addParts_invalid by assumption. reflexivity.
Qed.

End TargetParsingFacts.

(** X1: [parseTargets] throws exactly when some part of the input (an
    element split at commas, trimmed, in lower case) is not a supported
    target; the error names the first such part. *)
Theorem parseTargets_rejects (toLowerCase : JS.str -> JS.str) (input : list JS.str) :
  let parts := flat_map (TargetParsing.partsOf toLowerCase) input in
  (forallb TargetParsing.isValidTarget parts = true <->
   exists r, TargetParsing.parseTargets toLowerCase input = Returns r)
  /\ (forall pre part post,
        parts = pre ++ part :: post ->
        forallb TargetParsing.isValidTarget pre = true ->
        TargetParsing.isValidTarget part = false ->
        TargetParsing.parseTargets toLowerCase input
        = Throws (TargetParsing.invalidTarget part)).
Proof.
  intros parts. split; [split|].
  - intros H. unfold TargetParsing.parseTargets.
    destruct (@parseFrom_valid toLowerCase input [] H) as [r ->]. cbn [bind]. eauto.
  - intros [r H]. unfold TargetParsing.parseTargets in H.
    destruct (TargetParsing.parseFrom toLowerCase input []) as [t|e] eqn:E;
      [|discriminate].
    now destruct (@parseFrom_returns toLowerCase _ _ _ E (NoDup_nil _)) as [_ [H2 _]].
  - intros pre part post E Hpre Hp. unfold TargetParsing.parseTargets.
    now rewrite (@parseFrom_invalid toLowerCase input pre post [] part E Hpre Hp).
Qed.

(** X2: what [parseTargets] returns is never empty, holds no target twice
    and only supported targets; for an empty input it is the default,
    claude alone, and otherwise it holds exactly the parts of the input. *)
Theorem parseTargets_result (toLowerCase : JS.str -> JS.str) (input r : list JS.str) :
  TargetParsing.parseTargets toLowerCase input = Returns r ->
  r <> [] /\ NoDup r
  /\ (forall x, In x r -> x = JS.lit "claude" \/ x = JS.lit "codex")
  /\ (input = [] -> r = [JS.lit "claude"])
  /\ (input <> [] ->
      forall x, In x r <-> In x (flat_map (TargetParsing.partsOf toLowerCase) input)).
Proof.
  unfold TargetParsing.parseTargets. intros H.
  destruct (TargetParsing.parseFrom toLowerCase input []) as [t|e] eqn:E;
    [|discriminate].
  cbn [bind] in H.
  destruct (@parseFrom_returns toLowerCase _ _ _ E (NoDup_nil _)) as [H1 [H2 H3]].
  destruct t as [|a t].
  - simpl in H. inversion H; subst r. clear H.
    split; [discriminate|]. split; [repeat constructor; simpl; tauto|].
    split; [intros x [<-|[]]; now left|]. split; [reflexivity|].
    intros Hne. destruct input as [|i input]; [congruence|]. exfalso.
    cbn [flat_map] in H3. unfold TargetParsing.partsOf at 1 in H3.
    destruct (JS.split 44%N i) as [|p ps] eqn:Es.
    + now apply split_nonempty in Es.
    + specialize (H3 (toLowerCase (JS.trim p))). simpl in H3.
      apply H3. right. now left.
  - assert (r = a :: t) as -> by (simpl in H; now inversion H).
    split; [discriminate|]. split; [exact H1|]. split.
    + intros x Hx. apply isValidTarget_names. apply H3 in Hx.
      destruct Hx as [[]|Hx]. rewrite forallb_forall in H2. now apply H2.
    + split.
      * intros ->. simpl in E. inversion E.
      * intros _ x. rewrite H3. simpl. tauto.
Qed.

Lemma parseTargets_result_witness :
  let input := [JS.lit "Claude, codex"; JS.lit "CLAUDE"] in
  TargetParsing.parseTargets TargetParsing.asciiLower input
  = Returns [JS.lit "claude"; JS.lit "codex"]
  /\ NoDup [JS.lit "claude"; JS.lit "codex"].
Proof.
  intros input. split; [reflexivity|].
  exact (proj1 (proj2 (@parseTargets_result TargetParsing.asciiLower input
                         [JS.lit "claude"; JS.lit "codex"] eq_refl))).
Defined.

(* ------------------------------------------------------------------------- *)
(** ** The provider registry *)

Section RegistryFacts.
Import JS ProviderRegistry.

Variable ResolvedConfig : Type.
Implicit Types (p q : SourceProvider ResolvedConfig) (providers : Registry ResolvedConfig).

Lemma find_name_None p providers :
  find (fun q => str_eqb (name q) (name p)) providers = None
  <-> ~ In (name p) (map (@name _) providers).
Proof.
  induction providers as [|q providers IH]; simpl; [tauto|].
  destruct (str_eqb (name q) (name p)) eqn:E.
  - apply str_eqb_eq in E. split; [discriminate|]. intros H. exfalso. apply H. now left.
  - apply str_eqb_neq in E. rewrite IH. tauto.
Qed.

Lemma find_app (A : Type) (f : A -> bool) (l l' : list A) :
  find f (l ++ l') = match find f l with Some x => Some x | None => find f l' end.
Proof.
  induction l as [|a l IH]; simpl; [reflexivity|]. now destruct (f a).
Qed.

End RegistryFacts.

(** X3: [register] refuses a provider exactly when its name is already
    registered, with the already-registered error; otherwise it adds the
    provider after the others, and the names of a registry stay unique. *)
Theorem register_keeps_names_unique
  (ResolvedConfig : Type)
  (provider : ProviderRegistry.SourceProvider ResolvedConfig)
  (providers : ProviderRegistry.Registry ResolvedConfig) :
  let names := map (@ProviderRegistry.name _) providers in
  (In (ProviderRegistry.name provider) names ->
   ProviderRegistry.register provider providers
   = Throws (ProviderRegistry.alreadyRegistered provider))
  /\ (~ In (ProviderRegistry.name provider) names ->
      ProviderRegistry.register provider providers = Returns (providers ++ [provider]))
  /\ (NoDup names ->
      forall r, ProviderRegistry.register provider providers = Returns r ->
                NoDup (map (@ProviderRegistry.name _) r)).
Proof.
  intros names. unfold ProviderRegistry.register.
  destruct (find (fun p => JS.str_eqb (ProviderRegistry.name p)
                             (ProviderRegistry.name provider)) providers) as [q|] eqn:E.
  - assert (In (ProviderRegistry.name provider) names) as Hin.
    { destruct (in_dec (list_eq_dec N.eq_dec) (ProviderRegistry.name provider) names)
        as [H|H]; [exact H|].
      apply find_name_None in H. congruence. }
    split; [reflexivity|]. split; [tauto|]. intros _ r H. discriminate.
  - apply find_name_None in E. fold names in E.
    split; [tauto|]. split; [reflexivity|].
    intros Hd r H. inversion H; subst r. rewrite map_app. simpl.
    apply NoDup_app; [exact Hd|repeat constructor; auto|].
    intros a Ha [<-|[]]. contradiction.
Qed.

(** X4: after a provider is registered, [getProvider] answers as before for
    every source an earlier provider can handle, and gives the new provider
    only for a source that none of them handles and it does: the provider
    registered first wins. *)
Theorem registered_first_wins
  (ResolvedConfig : Type)
  (provider : ProviderRegistry.SourceProvider ResolvedConfig)
  (providers r : ProviderRegistry.Registry ResolvedConfig) (source : JS.str) :
  ProviderRegistry.register provider providers = Returns r ->
  ProviderRegistry.getProvider source r
  = match ProviderRegistry.getProvider source providers with
    | Some earlier => Some earlier
    | None =>
        if ProviderRegistry.canHandle provider source then Some provider else None
    end.
Proof.
  unfold ProviderRegistry.register, ProviderRegistry.getProvider.
  destruct (find _ providers); [discriminate|].
  intros H. inversion H; subst r. rewrite find_app. reflexivity.
Qed.

Lemma registered_first_wins_witness :
  ProviderRegistry.getProvider (JS.lit "./canonical/repo")
    [ProviderRegistry.demo_local; ProviderRegistry.demo_github]
  = Some ProviderRegistry.demo_local.
Proof.
  exact (@registered_first_wins unit ProviderRegistry.demo_github
           [ProviderRegistry.demo_local]
           [ProviderRegistry.demo_local; ProviderRegistry.demo_github]
           (JS.lit "./canonical/repo") eq_refl).
Defined.

(** X5: [createProviderRegistry] fails when the two built-in providers
    have the same name; otherwise it holds the local provider before the
    GitHub provider, so that a source both can handle goes to the local
    provider. *)
Theorem createProviderRegistry_local_first
  (ResolvedConfig : Type)
  (local github : ProviderRegistry.SourceProvider ResolvedConfig) :
  (ProviderRegistry.name local = ProviderRegistry.name github ->
   ProviderRegistry.createProviderRegistry local github
   = Throws (ProviderRegistry.alreadyRegistered github))
  /\ (ProviderRegistry.name local <> ProviderRegistry.name github ->
      ProviderRegistry.createProviderRegistry local github = Returns [local; github]
      /\ forall source,
           ProviderRegistry.getProvider source [local; github]
           = if ProviderRegistry.canHandle local source then Some local
             else if ProviderRegistry.canHandle github source then Some github
                  else None).
Proof.
  unfold ProviderRegistry.createProviderRegistry, ProviderRegistry.register.
  cbn [find bind app]. split.
  - intros E. rewrite E, str_eqb_refl. reflexivity.
  - intros Hne. apply str_eqb_neq in Hne. rewrite Hne. split; [reflexivity|].
    intros source. unfold ProviderRegistry.getProvider. cbn [find].
    destruct (ProviderRegistry.canHandle local source); [reflexivity|].
    destruct (ProviderRegistry.canHandle github source); reflexivity.
Qed.

(* ------------------------------------------------------------------------- *)
(** ** Finding the canonical repository *)

Section SourceFacts.
Import JS CoreSource.

Variable path_resolve : str -> str.
Variable path_join : list str -> str.
Variable path_dirname : str -> str.
Variable path_root : str -> str.
Variable fs_access : str -> bool.
Variable fs_isDirectory : str -> bool.

Lemma findInside_found fuel root d dir :
  findInside path_join path_dirname fs_access fs_isDirectory fuel root d = Some (Some dir) ->
  isCanonicalRepo path_join fs_access fs_isDirectory dir = true
  /\ exists k, dir = climb path_dirname k d
               /\ forall j, j <= k -> climb path_dirname j d <> root.
Proof.
  revert d.
  induction fuel as [|fuel IH]; intros d; simpl; [discriminate|].
  destruct (str_eqb d root) eqn:Er; [discriminate|]. apply str_eqb_neq in Er.
  destruct (isCanonicalRepo _ _ _ d) eqn:Ec.
  - intros H. assert (dir = d) as -> by congruence. split; [exact Ec|].
    exists 0. split; [reflexivity|]. intros j Hj. replace j with 0 by lia. exact Er.
  - intros H. destruct (IH _ H) as [Hc [k [Hk Hr]]]. split; [exact Hc|].
    exists (S k). split; [exact Hk|]. intros [|j] Hj; [exact Er|].
    simpl. apply Hr. lia.
Qed.

Lemma findSibling_found fuel root d dir :
  findSibling path_join path_dirname fs_access fs_isDirectory fuel root d
  = Some (Some dir) ->
  isCanonicalRepo path_join fs_access fs_isDirectory dir = true
  /\ exists k, dir = path_join [climb path_dirname (S k) d; lit "agent-conf"]
               /\ forall j, j <= k -> climb path_dirname j d <> root.
Proof.
  revert d.
  induction fuel as [|fuel IH]; intros d; simpl; [discriminate|].
  destruct (str_eqb d root) eqn:Er; [discriminate|]. apply str_eqb_neq in Er.
  destruct (isCanonicalRepo _ _ _ (path_join [path_dirname d; lit "agent-conf"])) eqn:Ec.
  - intros H.
    assert (dir = path_join [path_dirname d; lit "agent-conf"]) as -> by congruence.
    split; [exact Ec|].
    exists 0. split; [reflexivity|]. intros j Hj. replace j with 0 by lia. exact Er.
  - intros H. destruct (IH _ H) as [Hc [k [Hk Hr]]]. split; [exact Hc|].
    exists (S k). split; [exact Hk|]. intros [|j] Hj; [exact Er|].
    simpl. apply Hr. lia.
Qed.

Lemma findInside_nearest fuel root d k :
  k < fuel ->
  (forall j, j <= k -> climb path_dirname j d <> root) ->
  (forall j, j < k ->
             isCanonicalRepo path_join fs_access fs_isDirectory (climb path_dirname j d)
             = false) ->
  isCanonicalRepo path_join fs_access fs_isDirectory (climb path_dirname k d) = true ->
  findInside path_join path_dirname fs_access fs_isDirectory fuel root d
  = Some (Some (climb path_dirname k d)).
Proof.
  revert fuel d.
  induction k as [|k IH]; intros [|fuel] d Hf Hr Hn Hc; try lia; simpl.
  - pose proof (Hr 0 (le_n _)) as H0. simpl in H0. apply str_eqb_neq in H0.
    rewrite H0. simpl in Hc. now rewrite Hc.
  - pose proof (Hr 0 (Nat.le_0_l _)) as H0. simpl in H0. apply str_eqb_neq in H0.
    rewrite H0. pose proof (Hn 0 (Nat.lt_0_succ _)) as H1. simpl in H1. rewrite H1.
    apply IH; [lia| | |exact Hc].
    + intros j Hj. apply (Hr (S j)). lia.
    + intros j Hj. apply (Hn (S j)). lia.
Qed.

Lemma findInside_finishes fuel root d k :
  climb path_dirname k d = root -> k < fuel ->
  exists r,
    findInside path_join path_dirname fs_access fs_isDirectory fuel root d = Some r.
Proof.
  revert fuel d.
  induction k as [|k IH]; intros [|fuel] d Hk Hf; try lia; simpl.
  - simpl in Hk. subst d. rewrite str_eqb_refl. eauto.
  - destruct (str_eqb d root); [eauto|].
    destruct (isCanonicalRepo _ _ _ d); [eauto|].
    apply IH; [exact Hk|lia].
Qed.

Lemma findSibling_finishes fuel root d k :
  climb path_dirname k d = root -> k < fuel ->
  exists r,
    findSibling path_join path_dirname fs_access fs_isDirectory fuel root d = Some r.
Proof.
  revert fuel d.
  induction k as [|k IH]; intros [|fuel] d Hk Hf; try lia; simpl.
  - simpl in Hk. subst d. rewrite str_eqb_refl. eauto.
  - destruct (str_eqb d root); [eauto|].
    destruct (isCanonicalRepo _ _ _ (path_join [path_dirname d; lit "agent-conf"]));
      [eauto|].
    apply IH; [exact Hk|lia].
Qed.

Lemma canonical_valid dir :
  isCanonicalRepo path_join fs_access fs_isDirectory dir = true ->
  validateCanonicalRepo path_join fs_access dir = Returns tt
  /\ simpleGit fs_isDirectory dir = Returns tt.
Proof.
  unfold isCanonicalRepo, validateCanonicalRepo, simpleGit.
  destruct (fs_isDirectory dir); [|discriminate]. cbn [negb].
  destruct (fs_access (path_join [dir; lit "instructions"; lit "AGENTS.md"]));
    [|discriminate].
  destruct (fs_access (path_join [dir; lit "skills"])); [|discriminate].
  auto.
Qed.

Lemma findCanonicalRepo_found fuel startDir found :
  findCanonicalRepo path_resolve path_join path_dirname path_root
    fs_access fs_isDirectory fuel startDir = Some found ->
  match found with
  | Returns dir => isCanonicalRepo path_join fs_access fs_isDirectory dir = true
  | Throws e => e = notFound
  end.
Proof.
  unfold findCanonicalRepo.
  destruct (findInside _ _ _ _ fuel _ _) as [[dir|]|] eqn:Ei; [| |discriminate].
  - intros [= <-]. exact (proj1 (findInside_found _ _ _ Ei)).
  - destruct (findSibling _ _ _ _ fuel _ _) as [[dir|]|] eqn:Es; [| |discriminate].
    + intros [= <-]. exact (proj1 (findSibling_found _ _ _ Es)).
    + intros [= <-]. reflexivity.
Qed.

End SourceFacts.

(** X6: a directory returned by [findCanonicalRepo] passes
    [isCanonicalRepo] and is either a directory enclosing the start
    directory below the root, or the directory named agent-conf beside
    such a directory; the only error is the could-not-find error. *)
Theorem findCanonicalRepo_sound
  (path_resolve : JS.str -> JS.str) (path_join : list JS.str -> JS.str)
  (path_dirname path_root : JS.str -> JS.str)
  (fs_access fs_isDirectory : JS.str -> bool)
  (fuel : nat) (startDir : JS.str) (r : outcome JS.str) :
  CoreSource.findCanonicalRepo path_resolve path_join path_dirname path_root
    fs_access fs_isDirectory fuel startDir = Some r ->
  let currentDir := path_resolve startDir in
  let root := path_root currentDir in
  match r with
  | Returns dir =>
      CoreSource.isCanonicalRepo path_join fs_access fs_isDirectory dir = true
      /\ exists k,
           (forall j, j <= k -> climb path_dirname j currentDir <> root)
           /\ (dir = climb path_dirname k currentDir
               \/ dir = path_join [climb path_dirname (S k) currentDir;
                                   JS.lit "agent-conf"])
  | Throws e => e = notFound
  end.
Proof.
  intros H currentDir root. unfold CoreSource.findCanonicalRepo in H.
  fold currentDir in H. fold root in H.
  destruct (CoreSource.findInside _ _ _ _ fuel root currentDir) as [[dir|]|] eqn:Ei;
    [| |discriminate].
  - inversion H; subst r.
    destruct (@findInside_found path_join path_dirname fs_access fs_isDirectory
                fuel root currentDir dir Ei) as [Hc [k [Hk Hr]]].
    split; [exact Hc|]. exists k. split; [exact Hr|]. now left.
  - destruct (CoreSource.findSibling _ _ _ _ fuel root currentDir) as [[dir|]|] eqn:Es;
      [| |discriminate].
    + inversion H; subst r.
      destruct (@findSibling_found path_join path_dirname fs_access fs_isDirectory
                  fuel root currentDir dir Es) as [Hc [k [Hk Hr]]].
      split; [exact Hc|]. exists k. split; [exact Hr|]. now right.
    + inversion H; subst r. reflexivity.
Qed.

Lemma findCanonicalRepo_sound_witness :
  CoreSource.isCanonicalRepo demo_join demo_access demo_isDirectory
    (JS.lit "/work/agent-conf") = true
  /\ exists k,
       (forall j, j <= k ->
                  climb demo_dirname j (JS.lit "/work/app") <> JS.lit "/")
       /\ (JS.lit "/work/agent-conf" = climb demo_dirname k (JS.lit "/work/app")
           \/ JS.lit "/work/agent-conf"
              = demo_join [climb demo_dirname (S k) (JS.lit "/work/app");
                           JS.lit "agent-conf"]).
Proof.
  exact (@findCanonicalRepo_sound (fun p => p) demo_join demo_dirname
           (fun _ => JS.lit "/") demo_access demo_isDirectory 5
           (JS.lit "/work/app") (Returns (JS.lit "/work/agent-conf")) eq_refl).
Defined.

(** X7: the nearest directory enclosing the start directory that passes
    [isCanonicalRepo] is what [findCanonicalRepo] returns, whatever
    directories named agent-conf lie beside the path: when the directory
    k levels up is canonical, no directory up to it is the root and none
    below it is canonical, every run of more than k steps returns it. *)
Theorem findCanonicalRepo_nearest_enclosing
  (path_resolve : JS.str -> JS.str) (path_join : list JS.str -> JS.str)
  (path_dirname path_root : JS.str -> JS.str)
  (fs_access fs_isDirectory : JS.str -> bool)
  (fuel k : nat) (startDir : JS.str) :
  let currentDir := path_resolve startDir in
  let root := path_root currentDir in
  let canonical := CoreSource.isCanonicalRepo path_join fs_access fs_isDirectory in
  k < fuel ->
  (forall j, j <= k -> climb path_dirname j currentDir <> root) ->
  (forall j, j < k -> canonical (climb path_dirname j currentDir) = false) ->
  canonical (climb path_dirname k currentDir) = true ->
  CoreSource.findCanonicalRepo path_resolve path_join path_dirname path_root
    fs_access fs_isDirectory fuel startDir
  = Some (Returns (climb path_dirname k currentDir)).
Proof.
  intros currentDir root canonical Hf Hr Hn Hc.
  unfold CoreSource.findCanonicalRepo. fold currentDir. fold root.
  rewrite (@findInside_nearest path_join path_dirname fs_access fs_isDirectory
             fuel root currentDir k Hf Hr Hn Hc).
  reflexivity.
Qed.

Lemma findCanonicalRepo_nearest_enclosing_witness :
  CoreSource.findCanonicalRepo (fun p => p) demo_join demo_dirname
    (fun _ => JS.lit "/") demo_access demo_isDirectory 3
    (JS.lit "/work/agent-conf/skills")
  = Some (Returns (JS.lit "/work/agent-conf")).
Proof.
  refine (@findCanonicalRepo_nearest_enclosing (fun p => p) demo_join demo_dirname
            (fun _ => JS.lit "/") demo_access demo_isDirectory 3 1
            (JS.lit "/work/agent-conf/skills") _ _ _ eq_refl).
  - lia.
  - intros [|[|j]] Hj; [discriminate|discriminate|lia].
  - intros [|j] Hj; [reflexivity|lia].
Defined.

(** X8: the search of [findCanonicalRepo] ends: when k applications of
    [path.dirname] lead from the resolved start directory to its root,
    more than k steps give a result. Started at the root itself it fails
    with the could-not-find error, whatever the root holds. *)
Theorem findCanonicalRepo_finishes
  (path_resolve : JS.str -> JS.str) (path_join : list JS.str -> JS.str)
  (path_dirname path_root : JS.str -> JS.str)
  (fs_access fs_isDirectory : JS.str -> bool)
  (fuel k : nat) (startDir : JS.str) :
  let currentDir := path_resolve startDir in
  let root := path_root currentDir in
  let find := CoreSource.findCanonicalRepo path_resolve path_join path_dirname
                path_root fs_access fs_isDirectory fuel startDir in
  climb path_dirname k currentDir = root ->
  k < fuel ->
  (exists r, find = Some r)
  /\ (k = 0 -> find = Some (Throws notFound)).
Proof.
  intros currentDir root find Hk Hf. subst find.
  unfold CoreSource.findCanonicalRepo. fold currentDir. fold root. split.
  - destruct (@findInside_finishes path_join path_dirname fs_access fs_isDirectory
                fuel root currentDir k Hk Hf) as [[dir|] ->]; [eauto|].
    destruct (@findSibling_finishes path_join path_dirname fs_access fs_isDirectory
                fuel root currentDir k Hk Hf) as [[dir|] ->]; eauto.
  - intros ->. simpl in Hk. destruct fuel as [|fuel]; [lia|]. simpl.
    rewrite Hk, str_eqb_refl. reflexivity.
Qed.

Lemma findCanonicalRepo_finishes_witness :
  let find := CoreSource.findCanonicalRepo (fun p => p) demo_join demo_dirname
                (fun _ => JS.lit "/") demo_access demo_isDirectory 3
                (JS.lit "/work/app") in
  (exists r, find = Some r) /\ (2 = 0 -> find = Some (Throws notFound)).
Proof.
  exact (@findCanonicalRepo_finishes (fun p => p) demo_join demo_dirname
           (fun _ => JS.lit "/") demo_access demo_isDirectory 3 2
           (JS.lit "/work/app") eq_refl ltac:(lia)).
Defined.

(** X9: without a path option (absent or empty) [resolveLocalSource]
    never reports an invalid canonical repository: it fails only with
    the could-not-find error, and a source it returns is a local source
    on a directory that passes [isCanonicalRepo], with the commit of the
    git log when there is one. *)
Theorem resolveLocalSource_discovered
  (path_resolve : JS.str -> JS.str) (path_join : list JS.str -> JS.str)
  (path_dirname path_root : JS.str -> JS.str) (cwd : JS.str)
  (fs_access fs_isDirectory : JS.str -> bool)
  (git_log : JS.str -> outcome (option JS.str))
  (fuel : nat) (options_path : option JS.str) (r : outcome CoreSource.ResolvedSource) :
  truthyOpt options_path = false ->
  CoreSource.resolveLocalSource path_resolve path_join path_dirname path_root
    cwd fs_access fs_isDirectory git_log fuel options_path = Some r ->
  match r with
  | Returns resolved =>
      let dir := CoreSource.basePath resolved in
      CoreSource.isCanonicalRepo path_join fs_access fs_isDirectory dir = true
      /\ resolved
         = CoreSource.mkResolvedSource
             (LocalSource dir
                (match git_log dir with Returns hash => hash | Throws _ => None end))
             dir
             (path_join [dir; JS.lit "instructions"; JS.lit "AGENTS.md"])
             (path_join [dir; JS.lit "skills"])
  | Throws e => e = notFound
  end.
Proof.
  intros Hp. unfold CoreSource.resolveLocalSource. rewrite Hp.
  destruct (CoreSource.findCanonicalRepo _ _ _ _ _ _ fuel cwd) as [found|] eqn:Ef;
    [|discriminate].
  intros H. inversion H; subst r. clear H.
  pose proof (@findCanonicalRepo_found path_resolve path_join path_dirname path_root
                fs_access fs_isDirectory fuel cwd found Ef) as Hs.
  destruct found as [dir|e]; cbn [bind].
  - destruct (@canonical_valid path_join fs_access fs_isDirectory dir Hs) as [-> ->].
    cbn [bind CoreSource.basePath]. split; [exact Hs|reflexivity].
  - exact Hs.
Qed.

Lemma resolveLocalSource_discovered_witness :
  CoreSource.isCanonicalRepo demo_join demo_access demo_isDirectory
    (JS.lit "/work/agent-conf") = true
  /\ CoreSource.mkResolvedSource
       (LocalSource (JS.lit "/work/agent-conf") (Some (JS.lit "0123abcd")))
       (JS.lit "/work/agent-conf")
       (JS.lit "/work/agent-conf/instructions/AGENTS.md")
       (JS.lit "/work/agent-conf/skills")
     = CoreSource.mkResolvedSource
         (LocalSource (JS.lit "/work/agent-conf") (Some (JS.lit "0123abcd")))
         (JS.lit "/work/agent-conf")
         (demo_join [JS.lit "/work/agent-conf"; JS.lit "instructions"; JS.lit "AGENTS.md"])
         (demo_join [JS.lit "/work/agent-conf"; JS.lit "skills"]).
Proof.
  exact (@resolveLocalSource_discovered (fun p => p) demo_join demo_dirname
           (fun _ => JS.lit "/") (JS.lit "/work/app") demo_access demo_isDirectory
           (fun _ => Returns (Some (JS.lit "0123abcd"))) 5 (Some [])
           (Returns (CoreSource.mkResolvedSource
              (LocalSource (JS.lit "/work/agent-conf") (Some (JS.lit "0123abcd")))
              (JS.lit "/work/agent-conf")
              (JS.lit "/work/agent-conf/instructions/AGENTS.md")
              (JS.lit "/work/agent-conf/skills")))
           eq_refl eq_refl).
Defined.

(** X10: [resolveGithubSource] clones https://github.com/REPOSITORY.git
    into the temporary directory with depth 1 at the given ref, or at
    master when none is given. A failure of the clone or of the git log
    is an error (unlike the local resolution); on success the source
    holds the repository, the ref and the latest commit of the log (the
    empty string when the log has none), and is shown as
    github:REPOSITORY@ followed by the first seven characters of it. *)
Theorem resolveGithubSource_clone
  (path_join : list JS.str -> JS.str) (simpleGit : option JS.str -> outcome unit)
  (git_clone : JS.str -> JS.str -> list JS.str -> outcome unit)
  (git_log : JS.str -> outcome (option JS.str))
  (repository : JS.str) (options_ref : option JS.str) (tempDir : JS.str) :
  let ref := match options_ref with Some r => r | None => JS.lit "master" end in
  let repoUrl := JS.lit "https://github.com/" ++ repository ++ JS.lit ".git" in
  let clone := git_clone repoUrl tempDir
                 [JS.lit "--depth"; JS.lit "1"; JS.lit "--branch"; ref] in
  let r := GithubSource.resolveGithubSource path_join simpleGit git_clone git_log
             repository options_ref tempDir in
  (forall resolved,
      r = Returns resolved ->
      clone = Returns tt
      /\ exists log,
           git_log tempDir = Returns log
           /\ let sha := match log with Some hash => hash | None => [] end in
              resolved
              = CoreSource.mkResolvedSource (GithubSource repository sha ref) tempDir
                  (path_join [tempDir; JS.lit "instructions"; JS.lit "AGENTS.md"])
                  (path_join [tempDir; JS.lit "skills"])
              /\ CoreSource.formatSourceString (CoreSource.rs_source resolved)
                 = JS.lit "github:" ++ repository ++ JS.lit "@" ++ JS.slice0 7 sha)
  /\ (forall e, simpleGit None = Returns tt -> clone = Throws e -> r = Throws e)
  /\ (forall e, simpleGit None = Returns tt -> clone = Returns tt ->
                simpleGit (Some tempDir) = Returns tt ->
                git_log tempDir = Throws e -> r = Throws e).
Proof.
  intros ref repoUrl clone r. subst r. unfold GithubSource.resolveGithubSource.
  change CoreSource.DEFAULT_REF with (JS.lit "master").
  fold ref. fold repoUrl. fold clone.
  split; [|split].
  - intros resolved.
    destruct (simpleGit None) as [[]|e0]; cbn [bind]; [|discriminate].
    destruct clone as [[]|e1]; cbn [bind]; [|discriminate].
    destruct (simpleGit (Some tempDir)) as [[]|e2]; cbn [bind]; [|discriminate].
    destruct (git_log tempDir) as [log|e3]; cbn [bind]; [|discriminate].
    intros H. inversion H. split; [reflexivity|]. exists log.
    split; [reflexivity|]. split; reflexivity.
  - intros e -> ->. reflexivity.
  - intros e -> -> -> ->. reflexivity.
Qed.

(* ------------------------------------------------------------------------- *)
(** ** Writing and reading the lockfile *)

Section VersionFacts.
Import JSNum.

Lemma gt_irrefl (a : number) : gt a a = false.
Proof.
  destruct a; simpl; try reflexivity.
  apply negb_false_iff, Qle_bool_iff, Qle_refl.
Qed.

Lemma gt_asym (a b : number) : gt a b = true -> gt b a = false.
Proof.
  destruct a, b; simpl; try reflexivity; try discriminate.
  intros H. apply negb_true_iff in H. apply negb_false_iff, Qle_bool_iff.
  destruct (Qlt_le_dec q0 q) as [L|L]; [now apply Qlt_le_weak|].
  apply Qle_bool_iff in L. congruence.
Qed.

Lemma newer_irrefl t : VersionSpec.newer t t = false.
Proof.
  destruct t as [[a b] c]. unfold VersionSpec.newer.
  rewrite !gt_irrefl. cbn [orb]. now rewrite !andb_false_r.
Qed.

Lemma newer_asym t u : VersionSpec.newer t u = true -> VersionSpec.newer u t = false.
Proof.
  destruct t as [[a0 a1] a2], u as [[b0 b1] b2]. unfold VersionSpec.newer.
  intros H.
  destruct (gt a0 b0) eqn:G0.
  { rewrite (gt_asym _ _ G0), (gt_same_false _ _ G0). reflexivity. }
  cbn [orb] in H. apply andb_true_iff in H. destruct H as [S0 H].
  destruct (gt b0 a0) eqn:G0'.
  { rewrite (gt_same_false _ _ G0') in S0. discriminate. }
  cbn [orb]. destruct (same b0 a0); [|reflexivity]. cbn [andb].
  destruct (gt a1 b1) eqn:G1.
  { rewrite (gt_asym _ _ G1), (gt_same_false _ _ G1). reflexivity. }
  cbn [orb] in H. apply andb_true_iff in H. destruct H as [S1 H].
  destruct (gt b1 a1) eqn:G1'.
  { rewrite (gt_same_false _ _ G1') in S1. discriminate. }
  cbn [orb]. destruct (same b1 a1); [|reflexivity]. cbn [andb].
  apply (gt_asym _ _ H).
Qed.

End VersionFacts.

Section StoreFacts.
Import JS CoreLockfile.

Variable path_join : list str -> str.
Variable fs_readFile : str -> outcome str.
Variable Json : Type.
Variable JSON_parse : str -> option Json.
Variable LockfileSchema_parse : Json -> option Lockfile.
Variable Number : str -> JSNum.number.

(** What the check answers once the lockfile is read. *)
Lemma check_of_read (BUILD_VERSION : option str) (targetDir : str)
      (lockfile : Lockfile) (lv : str) :
  readLockfile path_join fs_readFile JSON_parse LockfileSchema_parse targetDir
  = Returns (Some lockfile) ->
  cli_version lockfile = Some lv ->
  checkCliVersionMismatch path_join fs_readFile JSON_parse LockfileSchema_parse
    BUILD_VERSION Number targetDir
  = Returns
      (if negb (truthy (getCliVersion BUILD_VERSION)) || negb (truthy lv) then None
       else if VersionSpec.newer (VersionSpec.triplet Number lv)
                 (VersionSpec.triplet Number (getCliVersion BUILD_VERSION))
            then Some (mkVersionMismatch (getCliVersion BUILD_VERSION) lv)
            else None).
Proof.
  intros Hr Hv. unfold checkCliVersionMismatch. rewrite Hr. cbn [bind].
  rewrite Hv. cbn [truthyOpt].
  destruct (negb (truthy (getCliVersion BUILD_VERSION)) || negb (truthy lv));
    [reflexivity|].
  now rewrite compareFrom_triplet.
Qed.

End StoreFacts.

(** X11: a lockfile written by [writeLockfile] is what [readLockfile]
    returns for the same directory afterwards, and the tool that wrote it
    gets no version warning from [checkCliVersionMismatch]. The file
    system is assumed to return what was last written to a path, and the
    JSON text of the lockfile to parse back to it. *)
Theorem writeLockfile_then_read
  (path_join : list JS.str -> JS.str) (path_dirname : JS.str -> JS.str)
  (Files : Type) (fs_mkdir : Files -> JS.str -> outcome Files)
  (fs_writeFile : Files -> JS.str -> JS.str -> outcome Files)
  (fs_readFile : Files -> JS.str -> outcome JS.str)
  (now : JS.str) (Json : Type) (JSON_stringify : Lockfile -> JS.str)
  (JSON_parse : JS.str -> option Json)
  (LockfileSchema_parse : Json -> option Lockfile)
  (BUILD_VERSION : option JS.str) (Number : JS.str -> JSNum.number)
  (files files' : Files) (targetDir : JS.str)
  (options : LockfileStore.WriteLockfileOptions) (lockfile : Lockfile) :
  (forall f p c f', fs_writeFile f p c = Returns f' -> fs_readFile f' p = Returns c) ->
  (exists j, JSON_parse (JSON_stringify lockfile ++ JS.nl) = Some j
             /\ LockfileSchema_parse j = Some lockfile) ->
  LockfileStore.writeLockfile path_join path_dirname fs_mkdir fs_writeFile now
    JSON_stringify BUILD_VERSION files targetDir options
  = Returns (lockfile, files') ->
  CoreLockfile.readLockfile path_join (fs_readFile files') JSON_parse
    LockfileSchema_parse targetDir = Returns (Some lockfile)
  /\ CoreLockfile.checkCliVersionMismatch path_join (fs_readFile files') JSON_parse
       LockfileSchema_parse BUILD_VERSION Number targetDir = Returns None
  /\ cli_version lockfile = Some (CoreLockfile.getCliVersion BUILD_VERSION)
  /\ targets (content lockfile)
     = match LockfileStore.o_targets options with
       | Some t => t
       | None => [JS.lit "claude"]
       end.
Proof.
  intros Hfs [j [Hj Hs]]. unfold LockfileStore.writeLockfile.
  destruct (fs_mkdir files _) as [files1|e]; cbn [bind]; [|discriminate].
  destruct (fs_writeFile files1 _ _) as [files2|e] eqn:Ew; cbn [bind]; [|discriminate].
  intros H. injection H as Hl Hf. subst files2.
  assert (cli_version lockfile = Some (CoreLockfile.getCliVersion BUILD_VERSION)
          /\ targets (content lockfile)
             = match LockfileStore.o_targets options with
               | Some t => t
               | None => [JS.lit "claude"]
               end) as [Hv Ht].
  { rewrite <- Hl. split; reflexivity. }
  rewrite Hl in Ew.
  assert (CoreLockfile.readLockfile path_join (fs_readFile files') JSON_parse
            LockfileSchema_parse targetDir = Returns (Some lockfile)) as Hr.
  { unfold CoreLockfile.readLockfile. rewrite (Hfs _ _ _ _ Ew). cbn [bind tryCatch].
    rewrite Hj. cbn [bind]. rewrite Hs. reflexivity. }
  split; [exact Hr|].
  split; [|split; [exact Hv|exact Ht]].
  rewrite (@check_of_read path_join (fs_readFile files') Json JSON_parse
             LockfileSchema_parse Number BUILD_VERSION targetDir lockfile _ Hr Hv).
  rewrite newer_irrefl. now destruct (_ || _).
Qed.

Lemma writeLockfile_then_read_witness :
  let lockfile := LockfileStore.demo_lockfile (JS.lit "0.0.0") in
  let files' := [(JS.lit "/work/app/.agent-conf/lockfile.json",
                  JS.lit "0.0.0" ++ JS.nl)] in
  CoreLockfile.readLockfile demo_join (LockfileStore.demo_readFile files')
    LockfileStore.demo_parse LockfileStore.demo_schema (JS.lit "/work/app")
  = Returns (Some lockfile)
  /\ CoreLockfile.checkCliVersionMismatch demo_join (LockfileStore.demo_readFile files')
       LockfileStore.demo_parse LockfileStore.demo_schema None
       LockfileStore.demo_Number (JS.lit "/work/app") = Returns None
  /\ cli_version lockfile = Some (CoreLockfile.getCliVersion None)
  /\ targets (content lockfile)
     = match LockfileStore.o_targets LockfileStore.demo_options with
       | Some t => t
       | None => [JS.lit "claude"]
       end.
Proof.
  intros lockfile files'.
  refine (@writeLockfile_then_read demo_join demo_dirname LockfileStore.demo_files
            LockfileStore.demo_mkdir LockfileStore.demo_writeFile
            LockfileStore.demo_readFile (JS.lit "2026-01-01T00:00:00.000Z")
            JS.str LockfileStore.demo_stringify LockfileStore.demo_parse
            LockfileStore.demo_schema None LockfileStore.demo_Number
            [] files' (JS.lit "/work/app") LockfileStore.demo_options lockfile
            _ _ eq_refl).
  - intros f p c f' H. injection H as <-. unfold LockfileStore.demo_readFile.
    cbn [find fst snd]. now rewrite str_eqb_refl.
  - exists (JS.lit "0.0.0"). split; reflexivity.
Defined.

(** X12: the version warning goes one way: when the tool of version b
    is warned by [checkCliVersionMismatch] about a lockfile written by
    version a, the tool of version a is not warned about a lockfile
    written by version b. *)
Theorem version_warning_one_way
  (path_join : list JS.str -> JS.str) (fs_readFile : JS.str -> outcome JS.str)
  (Json : Type) (JSON_parse : JS.str -> option Json)
  (LockfileSchema_parse : Json -> option Lockfile)
  (Number : JS.str -> JSNum.number)
  (a b dirA dirB : JS.str) (lockfileA lockfileB : Lockfile)
  (m : CoreLockfile.VersionMismatch) :
  let read := CoreLockfile.readLockfile path_join fs_readFile JSON_parse
                LockfileSchema_parse in
  let check := CoreLockfile.checkCliVersionMismatch path_join fs_readFile JSON_parse
                 LockfileSchema_parse in
  read dirA = Returns (Some lockfileA) -> cli_version lockfileA = Some a ->
  read dirB = Returns (Some lockfileB) -> cli_version lockfileB = Some b ->
  check (Some b) Number dirA = Returns (Some m) ->
  m = CoreLockfile.mkVersionMismatch b a
  /\ check (Some a) Number dirB = Returns None.
Proof.
  intros read check Ha Hva Hb Hvb. subst read check.
  rewrite (@check_of_read path_join fs_readFile Json JSON_parse LockfileSchema_parse
             Number (Some b) dirA lockfileA a Ha Hva).
  rewrite (@check_of_read path_join fs_readFile Json JSON_parse LockfileSchema_parse
             Number (Some a) dirB lockfileB b Hb Hvb).
  cbn [CoreLockfile.getCliVersion].
  destruct (JS.truthy b), (JS.truthy a); cbn [negb orb]; try discriminate.
  destruct (VersionSpec.newer (VersionSpec.triplet Number a)
              (VersionSpec.triplet Number b)) eqn:En; [|discriminate].
  intros H. injection H as <-. split; [reflexivity|].
  now rewrite (newer_asym _ _ En).
Qed.

Lemma version_warning_one_way_witness :
  let read (p : JS.str) : outcome JS.str :=
    Returns (if JS.startsWith (JS.lit "new") p then JS.lit "2.10.0" else JS.lit "2.9.3") in
  CoreLockfile.mkVersionMismatch (JS.lit "2.9.3") (JS.lit "2.10.0")
  = CoreLockfile.mkVersionMismatch (JS.lit "2.9.3") (JS.lit "2.10.0")
  /\ CoreLockfile.checkCliVersionMismatch demo_join read LockfileStore.demo_parse
       LockfileStore.demo_schema (Some (JS.lit "2.10.0")) LockfileStore.demo_Number
       (JS.lit "old")
     = Returns None.
Proof.
  intros read.
  exact (@version_warning_one_way demo_join read JS.str LockfileStore.demo_parse
           LockfileStore.demo_schema LockfileStore.demo_Number
           (JS.lit "2.10.0") (JS.lit "2.9.3") (JS.lit "new") (JS.lit "old")
           (LockfileStore.demo_lockfile (JS.lit "2.10.0"))
           (LockfileStore.demo_lockfile (JS.lit "2.9.3"))
           (CoreLockfile.mkVersionMismatch (JS.lit "2.9.3") (JS.lit "2.10.0"))
           eq_refl eq_refl eq_refl eq_refl eq_refl).
Defined.

(* ------------------------------------------------------------------------- *)
(** ** Reading and writing agent files *)

Section AgentFacts.
Import JS Agents WellFormed Canonical.

Lemma matchOpen_prefix (content r : str) :
  matchOpen content = Some r ->
  startsWith (lit "---") content = true /\ exists a, content = a ++ r.
Proof.
  unfold matchOpen.
  repeat match goal with
         | |- match ?l with _ => _ end = _ -> _ => destruct l; try discriminate
         | |- context [match ?n with _ => _ end] => destruct n; try discriminate
         end;
    intros H; inversion H; subst; (split; [reflexivity|]).
  - now exists (lit "---" ++ [13%N] ++ nl).
  - now exists (lit "---" ++ nl).
Qed.

Lemma matchFrontmatter_suffix (content rawYaml body : str) :
  matchFrontmatter content = Some (rawYaml, body) ->
  startsWith (lit "---") content = true /\ exists a, content = a ++ body.
Proof.
  unfold matchFrontmatter.
  destruct (matchOpen content) as [r|] eqn:Eo; [|discriminate].
  destruct (findClose r) as [[g rest]|] eqn:Ec; [|discriminate].
  intros H. inversion H; subst.
  destruct (matchOpen_prefix _ Eo) as [Hs [a Ha]].
  destruct (findClose_suffix _ Ec) as [a' Ha'].
  destruct (skipLineEnd_suffix rest) as [a'' Ha''].
  split; [exact Hs|]. exists (a ++ a' ++ a'').
  rewrite <- !app_assoc, <- Ha'', <- Ha'. exact Ha.
Qed.

Variable JSON_parse : str -> option (list str).

Lemma parseFrontmatter_suffix (content body : str) (fm0 : option AgentFrontmatter) :
  parseFrontmatter JSON_parse content = (fm0, body) ->
  (fm0 = None -> body = content)
  /\ (fm0 <> None -> startsWith (lit "---") content = true)
  /\ exists a, content = a ++ body.
Proof.
  unfold parseFrontmatter.
  assert (forall x : option AgentFrontmatter * str,
             x = (None, content) -> x = (fm0, body) ->
             (fm0 = None -> body = content)
             /\ (fm0 <> None -> startsWith (lit "---") content = true)
             /\ exists a, content = a ++ body) as Hnone.
  { intros x -> H. inversion H; subst. split; [auto|]. split; [congruence|].
    now exists []. }
  destruct (matchFrontmatter content) as [[rawYaml rest]|] eqn:Em;
    [|now apply Hnone].
  destruct (negb (truthy rawYaml)); [now apply Hnone|].
  destruct (parseSimpleYaml JSON_parse rawYaml) as [fm|e]; [|now apply Hnone].
  intros H. inversion H; subst.
  destruct (matchFrontmatter_suffix _ Em) as [Hs Ha].
  split; [discriminate|]. split; auto.
Qed.

End AgentFacts.




(** X13: [parseAgent] loses no text: the agent keeps the path and the
    whole content; its body is the end of the content, and the whole
    content when no frontmatter is found; a frontmatter is found only in
    content that begins with three dashes. *)
Theorem parseAgent_keeps_text
  (JSON_parse : JS.str -> option (list JS.str)) (content relativePath : JS.str) :
  let agent := Agents.parseAgent JSON_parse content relativePath in
  Agents.relativePath agent = relativePath
  /\ Agents.rawContent agent = content
  /\ (exists head, content = head ++ Agents.body agent)
  /\ (Agents.frontmatter agent = None -> Agents.body agent = content)
  /\ (Agents.frontmatter agent <> None ->
      JS.startsWith (JS.lit "---") content = true).
Proof.
  intros agent. subst agent. unfold Agents.parseAgent.
  destruct (Agents.parseFrontmatter JSON_parse content) as [fm0 body] eqn:Ep.
  destruct (@parseFrontmatter_suffix JSON_parse content body fm0 Ep) as [Hn [Hs Ha]].
  cbn [Agents.relativePath Agents.rawContent Agents.body Agents.frontmatter].
  split; [reflexivity|]. split; [reflexivity|]. split; [exact Ha|].
  destruct fm0 as [fm|].
  - split.
    + destruct (Agents.toolsMatch content) as [t|]; [|discriminate].
      destruct (negb _); discriminate.
    + intros _. apply Hs. discriminate.
  - split; [auto|]. congruence.
Qed.

(** X14: what [serializeFrontmatter] writes is read back: for fields
    that are not empty, have distinct identifier keys and one-line values
    that need no escaping, parsing the frontmatter block followed by any
    body gives the same fields and the same body, by [parseFrontmatter],
    and by [parseAgent] when the fields hold the list of tools or the
    body shows none. *)
Theorem frontmatter_round_trip
  (JSON_parse : JS.str -> option (list JS.str))
  (props : JSObject.t Agents.Value) (body relativePath : JS.str) :
  props <> [] ->
  Canonical.serializable props = true ->
  let fm := Agents.mkFrontmatter None props in
  let text := Agents.wrapFrontmatter (Agents.serializeFrontmatter fm) body in
  Agents.parseFrontmatter JSON_parse text = (Some fm, body)
  /\ (Canonical.toolsListed props = true \/ Agents.findTools body = None ->
      Agents.parseAgent JSON_parse text relativePath
      = Agents.mkAgent relativePath text (Some fm) body).
Proof.
  intros Hne Hs fm text. split.
  - exact (@parseFrontmatter_serialized JSON_parse props body Hne Hs).
  - intros Ht. exact (@parseAgent_serialized JSON_parse props body relativePath Hne Hs Ht).
Qed.

Lemma frontmatter_round_trip_witness :
  let props := [(JS.lit "name", Agents.VStr (JS.lit "helper"));
                (JS.lit "tools", Agents.VArr [JS.lit "Read"; JS.lit "Edit"]);
                (JS.lit "metadata",
                 Agents.VObj [(JS.lit "author", JS.lit "test-author")])] in
  let fm := Agents.mkFrontmatter None props in
  let text := Agents.wrapFrontmatter (Agents.serializeFrontmatter fm) (JS.lit "Help.") in
  Agents.parseFrontmatter WellFormed.noInlineArrays text = (Some fm, JS.lit "Help.")
  /\ (Canonical.toolsListed props = true \/ Agents.findTools (JS.lit "Help.") = None ->
      Agents.parseAgent WellFormed.noInlineArrays text (JS.lit "helper.md")
      = Agents.mkAgent (JS.lit "helper.md") text (Some fm) (JS.lit "Help.")).
Proof.
  intros props fm text.
  exact (@frontmatter_round_trip WellFormed.noInlineArrays props (JS.lit "Help.")
           (JS.lit "helper.md") ltac:(discriminate) eq_refl).
Defined.



(* ------------------------------------------------------------------------- *)
(** ** The git queries *)

Section GitFacts.
Import JS GitUtils.

Lemma tryCatch_returns (A : Type) (body : outcome A) (a : A) :
  exists v, tryCatch body (fun _ => Returns a) = Returns v.
Proof. destruct body; simpl; eauto. Qed.

Lemma span_sound (p : char -> bool) (s a b : str) :
  span p s = (a, b) -> s = a ++ b /\ forallb p a = true.
Proof.
  revert a b. induction s as [|c s IH]; intros a b; simpl.
  - intros H. inversion H. auto.
  - destruct (p c) eqn:Ec.
    + destruct (span p s) as [a' b'] eqn:Es. intros H. inversion H; subst.
      destruct (IH a' b eq_refl) as [-> Hf]. simpl. rewrite Ec. auto.
    + intros H. inversion H. auto.
Qed.

Lemma orgHere_sound (sep : char) (s org : str) :
  orgHere sep s = Some org ->
  org <> [] /\ ~ In 47%N org
  /\ exists rest, s = lit "github.com" ++ [sep] ++ org ++ [47%N] ++ rest.
Proof.
  unfold orgHere.
  destruct (startsWith (lit "github.com" ++ [sep]) s) eqn:Es; [|discriminate].
  apply startsWith_split in Es. change (length (lit "github.com" ++ [sep])) with 11 in Es.
  destruct (span (fun c => negb (N.eqb c 47)) (skipn 11 s)) as [o rest] eqn:Ep.
  apply span_sound in Ep. destruct Ep as [Er Hf].
  destruct o as [|c o]; [discriminate|].
  destruct rest as [|[|p] rest]; try discriminate.
  do 6 (destruct p as [p|p|]; try discriminate).
  intros H. inversion H; subst org. split; [discriminate|]. split.
  - intros Hin. rewrite forallb_forall in Hf. specialize (Hf _ Hin). discriminate.
  - exists rest. rewrite Es at 1. rewrite Er. now rewrite <- !app_assoc.
Qed.

Lemma orgMatch_sound (sep : char) (s org : str) :
  orgMatch sep s = Some org ->
  org <> [] /\ ~ In 47%N org
  /\ exists pre rest, s = pre ++ lit "github.com" ++ [sep] ++ org ++ [47%N] ++ rest.
Proof.
  induction s as [|c s IH]; cbn [orgMatch].
  - destruct (orgHere sep []) eqn:E; [|discriminate].
    intros H. inversion H; subst. apply orgHere_sound in E.
    destruct E as [H1 [H2 [rest Hr]]]. split; [auto|]. split; [auto|].
    now exists [], rest.
  - destruct (orgHere sep (c :: s)) eqn:E.
    + intros H. inversion H; subst. apply orgHere_sound in E.
      destruct E as [H1 [H2 [rest Hr]]]. split; [auto|]. split; [auto|].
      now exists [], rest.
    + intros H. destruct (IH H) as [H1 [H2 [pre [rest Hr]]]].
      split; [auto|]. split; [auto|]. exists (c :: pre), rest. simpl. now rewrite Hr.
Qed.

Lemma orgHere_match (sep : char) (org rest : str) :
  org <> [] -> ~ In 47%N org ->
  orgHere sep (lit "github.com" ++ [sep] ++ org ++ [47%N] ++ rest) = Some org.
Proof.
  intros Hne Hin. unfold orgHere.
  rewrite app_assoc, startsWith_app.
  replace (skipn 11 ((lit "github.com" ++ [sep]) ++ org ++ [47%N] ++ rest))
    with (org ++ [47%N] ++ rest) by reflexivity.
  rewrite span_stop; [|apply forallb_forall|reflexivity].
  - destruct org; [congruence|reflexivity].
  - intros x Hx. destruct (N.eqb_spec x 47); [subst; contradiction|reflexivity].
Qed.

Lemma orgMatch_https (org rest : str) :
  org <> [] -> ~ In 47%N org ->
  orgMatch 47%N (lit "https://github.com/" ++ org ++ [47%N] ++ rest) = Some org.
Proof.
  intros Hne Hin.
  change (lit "https://github.com/" ++ org ++ [47%N] ++ rest)
    with (lit "https://" ++ (lit "github.com" ++ [47%N] ++ org ++ [47%N] ++ rest)).
  assert (orgMatch 47%N (lit "github.com" ++ [47%N] ++ org ++ [47%N] ++ rest) = Some org)
    as H.
  { destruct (lit "github.com" ++ [47%N] ++ org ++ [47%N] ++ rest) eqn:E;
      cbn [orgMatch]; rewrite <- E, orgHere_match; auto. }
  cbn [orgMatch lit map list_ascii_of_string app]. exact H.
Qed.

Lemma orgOfUrl_sound (url org : str) :
  orgOfUrl url = Some org ->
  org <> [] /\ ~ In 47%N org
  /\ exists pre sep rest,
       (sep = 47%N \/ sep = 58%N)
       /\ url = pre ++ lit "github.com" ++ [sep] ++ org ++ [47%N] ++ rest.
Proof.
  unfold orgOfUrl. destruct (orgMatch 47%N url) as [o|] eqn:E.
  - intros H. inversion H; subst o. apply orgMatch_sound in E.
    destruct E as [H1 [H2 [pre [rest Hr]]]]. split; [auto|]. split; [auto|].
    exists pre, 47%N, rest. auto.
  - intros H. apply orgMatch_sound in H.
    destruct H as [H1 [H2 [pre [rest Hr]]]]. split; [auto|]. split; [auto|].
    exists pre, 58%N, rest. auto.
Qed.

End GitFacts.

(** X17: the queries [getGitRoot], [getGitProjectName], [isGitRoot],
    [getGitConfig] and [getGitOrganization] never throw, whatever the
    file system and git do; for a directory that does not exist (the
    stat fails or is not of a directory) they answer null, null, false,
    undefined and undefined. *)
Theorem git_queries_never_throw
  (fs_stat : JS.str -> outcome bool) (fs_realpath : JS.str -> outcome JS.str)
  (path_basename path_resolve : JS.str -> JS.str)
  (simpleGit : JS.str -> outcome unit) (git_checkIsRepo : JS.str -> outcome bool)
  (git_revparse : JS.str -> list JS.str -> outcome JS.str)
  (git_getConfig : JS.str -> JS.str -> outcome (option JS.str))
  (git_getRemotes : JS.str -> outcome (list GitUtils.RemoteWithRefs))
  (dir key : JS.str) :
  let root := GitUtils.getGitRoot fs_stat simpleGit git_checkIsRepo git_revparse dir in
  let name := GitUtils.getGitProjectName fs_stat path_basename simpleGit
                git_checkIsRepo git_revparse dir in
  let isRoot := GitUtils.isGitRoot fs_stat fs_realpath path_resolve simpleGit
                  git_checkIsRepo git_revparse dir in
  let config := GitUtils.getGitConfig fs_stat simpleGit git_checkIsRepo
                  git_getConfig dir key in
  let organization := GitUtils.getGitOrganization fs_stat simpleGit git_checkIsRepo
                        git_getConfig git_getRemotes dir in
  ((exists v, root = Returns v) /\ (exists v, name = Returns v)
   /\ (exists v, isRoot = Returns v) /\ (exists v, config = Returns v)
   /\ (exists v, organization = Returns v))
  /\ (fs_stat dir <> Returns true ->
      root = Returns None /\ name = Returns None /\ isRoot = Returns false
      /\ config = Returns None /\ organization = Returns None).
Proof.
  intros root name isRoot config organization.
  assert (exists v, root = Returns v) as Hroot.
  { subst root. unfold GitUtils.getGitRoot, GitUtils.directoryExistsForGit.
    destruct (fs_stat dir) as [[|]|e]; cbn [tryCatch bind negb]; eauto;
      apply tryCatch_returns. }
  split; [split; [exact Hroot|split; [|split; [|split]]]|].
  - subst name. unfold GitUtils.getGitProjectName. fold root.
    destruct Hroot as [v ->]. cbn [bind]. destruct (negb _); eauto.
  - subst isRoot. unfold GitUtils.isGitRoot, GitUtils.directoryExistsForGit.
    destruct (fs_stat dir) as [[|]|e] eqn:Es; cbn [tryCatch bind negb]; eauto.
    assert (GitUtils.getGitRoot fs_stat simpleGit git_checkIsRepo git_revparse dir
            = root) as -> by reflexivity.
    destruct Hroot as [v ->]. cbn [bind]. destruct (negb _); eauto.
    apply tryCatch_returns.
  - subst config. unfold GitUtils.getGitConfig, GitUtils.directoryExistsForGit.
    destruct (fs_stat dir) as [[|]|e]; cbn [tryCatch bind negb]; eauto;
      apply tryCatch_returns.
  - subst organization.
    unfold GitUtils.getGitOrganization, GitUtils.directoryExistsForGit.
    destruct (fs_stat dir) as [[|]|e]; cbn [tryCatch bind negb]; eauto;
      apply tryCatch_returns.
  - intros Hs. subst root name isRoot config organization.
    unfold GitUtils.getGitProjectName, GitUtils.isGitRoot, GitUtils.getGitConfig,
      GitUtils.getGitOrganization, GitUtils.getGitRoot, GitUtils.directoryExistsForGit.
    destruct (fs_stat dir) as [[|]|e]; [congruence| |]; cbn; auto.
Qed.

(** X18: [getGitInfo] and [isGitRepo] throw exactly when the
    [simpleGit] constructor does, which they call outside their try
    block. Otherwise both return, and they agree: [getGitInfo] reports a
    repository exactly when [isGitRepo] answers true, that is when
    checkIsRepo resolved to true; and info that reports no repository
    has no branch, no commit and no dirty flag. *)
Theorem getGitInfo_throws_at_construction
  (simpleGit : JS.str -> outcome unit) (git_checkIsRepo : JS.str -> outcome bool)
  (git_branch : JS.str -> outcome JS.str)
  (git_log : JS.str -> outcome (option JS.str))
  (git_status : JS.str -> outcome bool) (dir : JS.str) :
  let info := GitUtils.getGitInfo simpleGit git_checkIsRepo git_branch git_log
                git_status dir in
  let isRepo := GitUtils.isGitRepo simpleGit git_checkIsRepo dir in
  (forall e, info = Throws e <-> simpleGit dir = Throws e)
  /\ (forall e, isRepo = Throws e <-> simpleGit dir = Throws e)
  /\ (forall b, isRepo = Returns b <->
                exists i, info = Returns i /\ GitUtils.gi_isGitRepo i = b)
  /\ (isRepo = Returns true <->
      simpleGit dir = Returns tt /\ git_checkIsRepo dir = Returns true)
  /\ (forall i, info = Returns i -> GitUtils.gi_isGitRepo i = false ->
                i = GitUtils.notARepo).
Proof.
  intros info isRepo. subst info isRepo.
  unfold GitUtils.getGitInfo, GitUtils.isGitRepo.
  destruct (simpleGit dir) as [[]|e0]; cbn [bind].
  - destruct (git_checkIsRepo dir) as [[|]|e1]; cbn [tryCatch bind negb];
      (split; [split; intros; discriminate|]);
      (split; [split; intros; discriminate|]);
      (split; [intros b; split;
               [intros H; inversion H; eexists; split; reflexivity
               |intros [i [H <-]]; inversion H; reflexivity]|]);
      (split; [split; [intros H; inversion H; auto|intros [_ H]; congruence]|]);
      intros i H; inversion H; subst; cbn; congruence.
  - split; [intros e; split; intros H; inversion H; reflexivity|].
    split; [intros e; split; intros H; inversion H; reflexivity|].
    split; [intros b; split; [discriminate|intros [i [H _]]; discriminate]|].
    split; [split; [discriminate|intros [H _]; discriminate]|].
    intros i H. discriminate.
Qed.

(** X19: in a git repository whose origin remote has a fetch URL,
    [getGitOrganization] returns the organization of the URL when it has
    one, and otherwise the user.name of the git configuration (undefined
    when reading it fails). The organization of
    https://github.com/ORG/... is ORG; an organization found is never
    empty, holds no slash, and stands in the URL between github.com/ or
    github.com: and the next slash. *)
Theorem getGitOrganization_from_origin
  (fs_stat : JS.str -> outcome bool) (simpleGit : JS.str -> outcome unit)
  (git_checkIsRepo : JS.str -> outcome bool)
  (git_getConfig : JS.str -> JS.str -> outcome (option JS.str))
  (git_getRemotes : JS.str -> outcome (list GitUtils.RemoteWithRefs))
  (dir url : JS.str) (remotes : list GitUtils.RemoteWithRefs)
  (origin : GitUtils.RemoteWithRefs) :
  fs_stat dir = Returns true ->
  simpleGit dir = Returns tt ->
  git_checkIsRepo dir = Returns true ->
  git_getRemotes dir = Returns remotes ->
  find (fun r => JS.str_eqb (GitUtils.remote_name r) (JS.lit "origin")) remotes
  = Some origin ->
  GitUtils.refs_fetch origin = Some url ->
  GitUtils.getGitOrganization fs_stat simpleGit git_checkIsRepo git_getConfig
    git_getRemotes dir
  = match GitUtils.orgOfUrl url with
    | Some org => Returns (Some org)
    | None =>
        match git_getConfig dir (JS.lit "user.name") with
        | Returns userName => Returns userName
        | Throws _ => Returns None
        end
    end
  /\ (forall org rest,
        org <> [] -> ~ In 47%N org ->
        url = JS.lit "https://github.com/" ++ org ++ [47%N] ++ rest ->
        GitUtils.orgOfUrl url = Some org)
  /\ (forall org,
        GitUtils.orgOfUrl url = Some org ->
        org <> [] /\ ~ In 47%N org
        /\ exists pre sep rest,
             (sep = 47%N \/ sep = 58%N)
             /\ url = pre ++ JS.lit "github.com" ++ [sep] ++ org ++ [47%N] ++ rest).
Proof.
  intros Hs Hg Hr Hm Ho Hf. split; [|split].
  - unfold GitUtils.getGitOrganization, GitUtils.directoryExistsForGit.
    rewrite Hs. cbn [tryCatch bind negb]. rewrite Hg. cbn [bind].
    rewrite Hr. cbn [bind negb]. rewrite Hm. cbn [bind]. rewrite Ho, Hf.
    cbn [truthyOpt].
    destruct (GitUtils.orgOfUrl url) as [org|] eqn:E.
    + destruct (orgOfUrl_sound _ E) as [Hne _].
      destruct url as [|c url]; [discriminate|]. cbn [JS.truthy].
      destruct org as [|c' org]; [congruence|]. reflexivity.
    + destruct (JS.truthy url); cbn [truthyOpt];
        destruct (git_getConfig dir (JS.lit "user.name")); reflexivity.
  - intros org rest Hne Hin ->. unfold GitUtils.orgOfUrl.
    now rewrite orgMatch_https.
  - intros org. apply orgOfUrl_sound.
Qed.

Lemma getGitOrganization_from_origin_witness :
  let url := JS.lit "https://github.com/julian-pani/agconf.git" in
  let origin := GitUtils.mkRemoteWithRefs (JS.lit "origin") (Some url) (Some url) in
  let upstream := GitUtils.mkRemoteWithRefs (JS.lit "upstream")
                    (Some (JS.lit "git@github.com:other/agconf.git")) None in
  GitUtils.getGitOrganization (fun _ => Returns true) (fun _ => Returns tt)
    (fun _ => Returns true) (fun _ _ => Returns (Some (JS.lit "Someone")))
    (fun _ => Returns [upstream; origin]) (JS.lit "/work/app")
  = Returns (Some (JS.lit "julian-pani")).
Proof.
  intros url origin upstream.
  exact (proj1 (@getGitOrganization_from_origin (fun _ => Returns true)
                  (fun _ => Returns tt) (fun _ => Returns true)
                  (fun _ _ => Returns (Some (JS.lit "Someone")))
                  (fun _ => Returns [upstream; origin]) (JS.lit "/work/app") url
                  [upstream; origin] origin
                  eq_refl eq_refl eq_refl eq_refl eq_refl eq_refl)).
Defined.
